(** * PyKokkos static translator: the orchestration of [StaticTranslator]

    A shallow embedding of [pykokkos/core/translators/static.py].  The
    translator mutates Python objects in two places: it writes a [parent]
    attribute on every syntax node, and it clones every translated record
    declaration with [copy.deepcopy] before clearing [is_definition] on the
    clone.  Both are modelled over explicit stores, so that aliasing is a
    theorem and not an assumption. *)

From Stdlib Require Import ZArith.
From stdpp Require Import gmap strings list.
From Equations Require Import Equations.


(** ** Python objects in a store *)

Module PyObj.

Abbreviation loc := nat.

(** Immutable values are kept inline; everything mutable lives in the
    store and is named by a reference. *)
Inductive value :=
| VNone
| VBool (b : bool)
| VInt (n : Z)
| VStr (s : string)
| VRef (l : loc).

(** A list object, or an instance with its class name and its
    [__dict__] in insertion order. *)
Inductive object :=
| OList (items : list value)
| OInst (cls : string) (attrs : list (string * value)).

Abbreviation heap := (list object).
Abbreviation memo := (gmap loc loc).

#[global] Instance value_eq_dec : EqDecision value.
Proof. solve_decision. Defined.

#[global] Instance object_eq_dec : EqDecision object.
Proof. solve_decision. Defined.

(** [d[k] = v] on an insertion-ordered dict. *)
Fixpoint dict_set {A} (k : string) (v : A) (d : list (string * A))
  : list (string * A) :=
  match d with
  | [] => [(k, v)]
  | (k', v') :: d' =>
      if decide (k' = k) then (k, v) :: d' else (k', v') :: dict_set k v d'
  end.

Fixpoint dict_get {A} (k : string) (d : list (string * A)) : option A :=
  match d with
  | [] => None
  | (k', v') :: d' => if decide (k' = k) then Some v' else dict_get k d'
  end.

(** [obj.name = v]: only instances take attributes. *)
Definition setattr (target : value) (name : string) (v : value) (h : heap)
  : option heap :=
  match target with
  | VRef l =>
      match h !! l with
      | Some (OInst cls attrs) =>
          Some (<[l := OInst cls (dict_set name v attrs)]> h)
      | _ => None
      end
  | _ => None
  end.

Definition getattr (target : value) (name : string) (h : heap)
  : option value :=
  match target with
  | VRef l =>
      match h !! l with
      | Some (OInst _ attrs) => dict_get name attrs
      | _ => None
      end
  | _ => None
  end.

(** [y.append(v)] *)
Definition list_append (y : loc) (v : value) (h : heap) : option heap :=
  match h !! y with
  | Some (OList items) => Some (<[y := OList (items ++ [v])]> h)
  | _ => None
  end.

(** *** [copy.deepcopy]

    [_deepcopy_list]: the new list is registered in the memo before its
    items are copied and appended one by one. *)
Fixpoint deepcopy_items
    (dc : value → memo → heap → option (value * memo * heap))
    (y : loc) (xs : list value) (m : memo) (h : heap)
  : option (memo * heap) :=
  match xs with
  | [] => Some (m, h)
  | a :: xs' =>
      match dc a m h with
      | Some (a', m1, h1) =>
          match list_append y a' h1 with
          | Some h2 => deepcopy_items dc y xs' m1 h2
          | None => None
          end
      | None => None
      end
  end.

(** [_deepcopy_dict] on the instance state: values are copied in
    insertion order (attribute names are strings, hence atomic). *)
Fixpoint deepcopy_dict
    (dc : value → memo → heap → option (value * memo * heap))
    (kvs : list (string * value)) (m : memo) (h : heap)
  : option (list (string * value) * memo * heap) :=
  match kvs with
  | [] => Some ([], m, h)
  | (k, v) :: rest =>
      match dc v m h with
      | Some (v', m1, h1) =>
          match deepcopy_dict dc rest m1 h1 with
          | Some (st, m2, h2) => Some ((k, v') :: st, m2, h2)
          | None => None
          end
      | None => None
      end
  end.

(** [deepcopy(x, memo)].  Atomic values are returned as they are and a
    memoised object yields its copy; otherwise the copy is allocated,
    memoised, and then filled ([_reconstruct]: [y = cls.__new__(cls)],
    [memo[id(x)] = y], [y.__dict__.update(deepcopy(state, memo))]).
    [fuel] bounds the depth of the recursion. *)
Fixpoint deepcopy_aux (fuel : nat) (x : value) (m : memo) (h : heap)
  : option (value * memo * heap) :=
  match x with
  | VRef l =>
      match m !! l with
      | Some y => Some (VRef y, m, h)
      | None =>
          match fuel with
          | O => None
          | S f =>
              match h !! l with
              | None => None
              | Some (OList items) =>
                  let y := length h in
                  match deepcopy_items (deepcopy_aux f) y items
                          (<[l := y]> m) (h ++ [OList []]) with
                  | Some (m', h') => Some (VRef y, m', h')
                  | None => None
                  end
              | Some (OInst cls attrs) =>
                  let y := length h in
                  match deepcopy_dict (deepcopy_aux f) attrs
                          (<[l := y]> m) (h ++ [OInst cls []]) with
                  | Some (st, m', h') =>
                      Some (VRef y, m', <[y := OInst cls st]> h')
                  | None => None
                  end
              end
          end
      end
  | _ => Some (x, m, h)
  end.

(** [copy.deepcopy(x)] starts from an empty memo.  Every nested call on
    an object not yet memoised memoises one more object of the store, so
    the depth never exceeds the number of objects. *)
Definition deepcopy (x : value) (h : heap) : option (value * heap) :=
  match deepcopy_aux (length h) x ∅ h with
  | Some (y, _, h') => Some (y, h')
  | None => None
  end.

(** *** Reading a store back as a tree *)

#[warnings="-register-all"]
Inductive pytree :=
| TAtom (v : value)
| TList (items : list pytree)
| TInst (cls : string) (attrs : list (string * pytree)).

Fixpoint reify_items (rf : value → option pytree) (xs : list value)
  : option (list pytree) :=
  match xs with
  | [] => Some []
  | a :: xs' =>
      match rf a, reify_items rf xs' with
      | Some t, Some ts => Some (t :: ts)
      | _, _ => None
      end
  end.

Fixpoint reify_dict (rf : value → option pytree)
    (kvs : list (string * value)) : option (list (string * pytree)) :=
  match kvs with
  | [] => Some []
  | (k, v) :: rest =>
      match rf v, reify_dict rf rest with
      | Some t, Some ts => Some ((k, t) :: ts)
      | _, _ => None
      end
  end.

(** The tree below [v], when it is finite and at most [fuel] deep. *)
Fixpoint reify (fuel : nat) (h : heap) (v : value) : option pytree :=
  match v with
  | VRef l =>
      match fuel with
      | O => None
      | S f =>
          match h !! l with
          | None => None
          | Some (OList items) =>
              TList <$> reify_items (reify f h) items
          | Some (OInst cls attrs) =>
              TInst cls <$> reify_dict (reify f h) attrs
          end
      end
  | _ => Some (TAtom v)
  end.

Fixpoint tree_size (t : pytree) : nat :=
  match t with
  | TAtom _ => 1
  | TList items => S (sum_list (map tree_size items))
  | TInst _ attrs => S (sum_list (map (λ p, tree_size (snd p)) attrs))
  end.

Definition tree_setattr (name : string) (t : pytree) (r : pytree) : pytree :=
  match r with
  | TInst cls attrs => TInst cls (dict_set name t attrs)
  | _ => r
  end.

(** *** Shape of a store *)

Definition obj_values (o : object) : list value :=
  match o with
  | OList items => items
  | OInst _ attrs => attrs.*2
  end.

(** No dangling reference: the state of any Python heap. *)
Definition closed (h : heap) : Prop :=
  ∀ l o r, h !! l = Some o → VRef r ∈ obj_values o → r < length h.

Inductive reachable (h : heap) : loc → loc → Prop :=
| reach_refl l : reachable h l l
| reach_step l o r l' :
    h !! l = Some o → VRef r ∈ obj_values o → reachable h r l' →
    reachable h l l'.

End PyObj.

(** ** Syntax trees and the [parent] attribute *)

Module Ast.

(** An [ast.AST] node: its identity, its class, the identifier it carries
    and the nodes [ast.iter_child_nodes] yields for it, in field order. *)
#[warnings="-register-all"]
Inductive AST := Node (nid : nat) (cls : string) (ident : string) (kids : list AST).

Definition nid (n : AST) : nat := match n with Node i _ _ _ => i end.
Definition cls (n : AST) : string := match n with Node _ c _ _ => c end.
Definition ident (n : AST) : string := match n with Node _ _ s _ => s end.

Definition iter_child_nodes (n : AST) : list AST :=
  match n with Node _ _ _ ks => ks end.

Fixpoint ast_size (n : AST) : nat :=
  match n with Node _ _ _ ks => S (sum_list (map ast_size ks)) end.

Definition todo_size (todo : list AST) : nat := sum_list (map ast_size todo).

(** [ast.walk]: [todo = deque([node])], then pop on the left, extend on
    the right with the children, yield. *)
Equations? walk_queue (todo : list AST) : list AST
  by wf (todo_size todo) lt :=
  walk_queue [] := [];
  walk_queue (node :: rest) :=
    node :: walk_queue (rest ++ iter_child_nodes node).
Proof.
  unfold todo_size. rewrite map_app, sum_list_with_app.
  destruct node as [i c s ks]. simpl. lia.
Qed.

Definition walk (node : AST) : list AST := walk_queue [node].

(** The [parent] attributes, keyed by the identity of the node that
    carries the attribute; the value is the identity of the parent. *)
Abbreviation parents := (gmap nat nat).

(** [for child in ast.iter_child_nodes(node): child.parent = node] *)
Definition set_parents (σ : parents) (node : AST) : parents :=
  foldl (λ σ child, <[nid child := nid node]> σ) σ (iter_child_nodes node).

Definition add_parent_refs (classdef : AST) (σ : parents) : parents :=
  foldl set_parents σ (walk classdef).

End Ast.

(** ** The translator *)

Module Static.
Import PyObj Ast.

Abbreviation dict A := (list (string * A)).

Definition values {A} (d : dict A) : list A := d.*2.

(** Modelled from the spec: the enumeration [PyKokkosStyles] of
    [pykokkos.core.parsers] is not among the sources; the style of an
    entity is workload or function group, and the translator only asks
    whether it is [workload]. *)
Inductive PyKokkosStyles := workload | function_group.

#[global] Instance PyKokkosStyles_eq_dec : EqDecision PyKokkosStyles.
Proof. solve_decision. Defined.

(** [PyKokkosEntity], as far as the translator reads it; [name] is
    [entity.name.declname]. *)
Record PyKokkosEntity := {
  style : PyKokkosStyles;
  name : string;
  AST : Ast.AST;
  source : list string * Z;
  path : string;
  pk_import : string;
}.

(** [PyKokkosMembers]: the three tables the translator iterates, and the
    three it only hands on. *)
Record PyKokkosMembers {V F C : Type} := {
  pk_mains : dict Ast.AST;
  pk_workunits : dict Ast.AST;
  pk_functions : dict Ast.AST;
  views : V;
  fields : F;
  classtype_methods : C;
}.
Arguments PyKokkosMembers : clear implicits.

(** Everything a visitor is constructed with, after the empty
    environment [{}] and before [debug=True]. *)
Definition visitor_new (V F C T : Type) : Type :=
  (list string * Z) → V → dict Ast.AST → F → dict Ast.AST → C → string →
  bool → T.

(** The collaborators of the translator.  An object that is built once
    and called several times carries a state of its own; a visitor that
    builds IR allocates it in the store.  [WorkunitVisitor_visit] has no
    result when the visit raises. *)
Class Collaborators := {
  ViewTable : Type;
  FieldTable : Type;
  MethodTable : Type;
  SymbolsPass : Type;
  ClasstypeVisitor : Type;
  KokkosFunctionVisitor : Type;
  WorkunitVisitor : Type;
  PyKokkosMembers_extract :
    PyKokkosEntity → list PyKokkosEntity → parents →
    PyKokkosMembers ViewTable FieldTable MethodTable;
  SymbolsPass_new :
    PyKokkosMembers ViewTable FieldTable MethodTable → string → string →
    SymbolsPass;
  SymbolsPass_check_symbols :
    SymbolsPass → parents → Ast.AST → list string * SymbolsPass;
  ClasstypeVisitor_new :
    visitor_new ViewTable FieldTable MethodTable ClasstypeVisitor;
  ClasstypeVisitor_visit :
    ClasstypeVisitor → parents → Ast.AST → heap → value * heap;
  KokkosFunctionVisitor_new :
    visitor_new ViewTable FieldTable MethodTable KokkosFunctionVisitor;
  KokkosFunctionVisitor_visit :
    KokkosFunctionVisitor → parents → Ast.AST → heap →
    value * KokkosFunctionVisitor * heap;
  WorkunitVisitor_new :
    visitor_new ViewTable FieldTable MethodTable WorkunitVisitor;
  WorkunitVisitor_visit :
    WorkunitVisitor → parents → Ast.AST → heap →
    option ((string * value) * WorkunitVisitor * heap);
  generate_functor :
    string → PyKokkosMembers ViewTable FieldTable MethodTable →
    dict (string * value) → list value → heap → value * heap;
  bind_main :
    string → PyKokkosMembers ViewTable FieldTable MethodTable →
    (list string * Z) → string → string → heap → list string;
  bind_workunits :
    string → PyKokkosMembers ViewTable FieldTable MethodTable →
    dict (string * value) → string → heap → list string;
  Serializer_serialize : heap → value → string;
  ast_repr : Ast.AST → string;
}.

Section Translator.
Context `{Collaborators}.

Abbreviation Members := (PyKokkosMembers ViewTable FieldTable MethodTable).

(** The [StaticTranslator] object: [pk_import] and [pk_members] are
    declared by [__init__] and bound by [translate]. *)
Record StaticTranslator := {
  self_pk_import : option string;
  self_pk_members : option Members;
  module_file : string;
  functor_file : string;
}.

Definition init (module functor : string) : StaticTranslator :=
  {| self_pk_import := None; self_pk_members := None;
     module_file := module; functor_file := functor |}.

(** What a run can be observed to do, in order. *)
Inductive event :=
| EvAddParentRefs (classdef : Ast.AST)
| EvExtract
| EvCheckSymbols
| EvSymbolsPass (body : Ast.AST)
| EvPrint (line : string)
| EvTranslateClasstypes
| EvClasstypeVisit (classdef : Ast.AST)
| EvDeepcopy (node : value)
| EvTranslateFunctions
| EvFunctionVisit (functiondef : Ast.AST)
| EvTranslateWorkunits
| EvWorkunitVisit (w : Ast.AST)
| EvGenerateFunctor
| EvGenerateBindings
| EvSerialize (node : value).

Record world := {
  w_self : StaticTranslator;
  w_parents : parents;
  w_heap : heap;
  w_log : list event;
}.

(** How a call ends: with a value, with [SystemExit] carrying the
    argument of [sys.exit], or with another exception. *)
Inductive outcome (A : Type) :=
| Return (a : A)
| SysExit (arg : option Z)
| Raised.
Arguments Return {A} a.
Arguments SysExit {A} arg.
Arguments Raised {A}.

(** The status the interpreter exits with on an uncaught [SystemExit]:
    [None] is success, an integer is the status. *)
Definition exit_status (arg : option Z) : Z :=
  match arg with None => 0%Z | Some n => n end.

Definition M (A : Type) : Type := world → outcome A * world.

Definition ret {A} (a : A) : M A := λ w, (Return a, w).

Definition bind {A B} (c : M A) (k : A → M B) : M B :=
  λ w, match c w with
       | (Return a, w') => k a w'
       | (SysExit arg, w') => (SysExit arg, w')
       | (Raised, w') => (Raised, w')
       end.

Definition emit (e : event) : M unit :=
  λ w, (Return tt,
        {| w_self := w_self w; w_parents := w_parents w;
           w_heap := w_heap w; w_log := w_log w ++ [e] |}).

Definition sys_exit {A} (arg : option Z) : M A := λ w, (SysExit arg, w).

Definition raise {A} : M A := λ w, (Raised, w).

Definition print (line : string) : M unit := emit (EvPrint line).

Definition get_self : M StaticTranslator := λ w, (Return (w_self w), w).
Definition get_parents : M parents := λ w, (Return (w_parents w), w).
Definition get_heap : M heap := λ w, (Return (w_heap w), w).

Definition set_self (s : StaticTranslator) : M unit :=
  λ w, (Return tt,
        {| w_self := s; w_parents := w_parents w;
           w_heap := w_heap w; w_log := w_log w |}).

Definition set_parents_store (σ : parents) : M unit :=
  λ w, (Return tt,
        {| w_self := w_self w; w_parents := σ;
           w_heap := w_heap w; w_log := w_log w |}).

Definition set_heap (h : heap) : M unit :=
  λ w, (Return tt,
        {| w_self := w_self w; w_parents := w_parents w;
           w_heap := h; w_log := w_log w |}).

End Translator.

Abbreviation Members := (PyKokkosMembers ViewTable FieldTable MethodTable).

Arguments Return {A} a.
Arguments SysExit {A} arg.
Arguments Raised {A}.
Arguments StaticTranslator {_}.
Arguments world {_}.
Arguments M {_} A.

Declare Scope py_scope.
Delimit Scope py_scope with py.
Notation "'let*' p ':=' c 'in' k" := (bind c (λ p, k))
  (at level 10, p pattern, c at level 100, k at level 200) : py_scope.
Notation "c ';;' k" := (bind c (λ _, k))
  (at level 100, k at level 200, right associativity) : py_scope.

Section Pipeline.
Context `{Collaborators}.
Local Open Scope py_scope.

(** A [for] loop whose body updates the local variables [s]. *)
Fixpoint for_fold {A S} (xs : list A) (s : S) (body : S → A → M S) : M S :=
  match xs with
  | [] => ret s
  | x :: rest => let* s' := body s x in for_fold rest s' body
  end.

(** Reading an attribute of [self] that has not been bound raises. *)
Definition get_pk_import : M string :=
  let* self := get_self in
  match self_pk_import self with
  | Some s => ret s
  | None => raise
  end.

Definition get_pk_members : M Members :=
  let* self := get_self in
  match self_pk_members self with
  | Some m => ret m
  | None => raise
  end.

Definition set_pk_import (s : string) : M unit :=
  let* self := get_self in
  set_self {| self_pk_import := Some s;
              self_pk_members := self_pk_members self;
              module_file := module_file self;
              functor_file := functor_file self |}.

Definition set_pk_members (m : Members) : M unit :=
  let* self := get_self in
  set_self {| self_pk_import := self_pk_import self;
              self_pk_members := Some m;
              module_file := module_file self;
              functor_file := functor_file self |}.

(** [copy.deepcopy] and attribute assignment on the store of the run. *)
Definition copy_deepcopy (x : value) : M value :=
  emit (EvDeepcopy x) ;;
  let* h := get_heap in
  match deepcopy x h with
  | Some (y, h') => set_heap h' ;; ret y
  | None => raise
  end.

Definition py_setattr (target : value) (attr : string) (v : value) : M unit :=
  let* h := get_heap in
  match setattr target attr v h with
  | Some h' => set_heap h'
  | None => raise
  end.

(** Calls into the collaborators. *)
Definition symbols_pass_check_symbols (symbols_pass : SymbolsPass)
    (body : Ast.AST) : M (list string * SymbolsPass) :=
  emit (EvSymbolsPass body) ;;
  let* σ := get_parents in
  ret (SymbolsPass_check_symbols symbols_pass σ body).

Definition classtype_visit (node_visitor : ClasstypeVisitor)
    (classdef : Ast.AST) : M value :=
  emit (EvClasstypeVisit classdef) ;;
  let* σ := get_parents in
  let* h := get_heap in
  let '(definition, h') := ClasstypeVisitor_visit node_visitor σ classdef h in
  set_heap h' ;;
  ret definition.

Definition function_visit (node_visitor : KokkosFunctionVisitor)
    (functiondef : Ast.AST) : M (value * KokkosFunctionVisitor) :=
  emit (EvFunctionVisit functiondef) ;;
  let* σ := get_parents in
  let* h := get_heap in
  let '(method, node_visitor', h') :=
    KokkosFunctionVisitor_visit node_visitor σ functiondef h in
  set_heap h' ;;
  ret (method, node_visitor').

(** [None] when the visit raised. *)
Definition workunit_visit (node_visitor : WorkunitVisitor) (w : Ast.AST)
  : M (option ((string * value) * WorkunitVisitor)) :=
  emit (EvWorkunitVisit w) ;;
  let* σ := get_parents in
  let* h := get_heap in
  match WorkunitVisitor_visit node_visitor σ w h with
  | Some (result, node_visitor', h') =>
      set_heap h' ;; ret (Some (result, node_visitor'))
  | None => ret None
  end.

Definition serialize (node : value) : M string :=
  emit (EvSerialize node) ;;
  let* h := get_heap in
  ret (Serializer_serialize h node).

(** *** The methods of [StaticTranslator] *)

Definition add_parent_refs (classdef : Ast.AST) : M Ast.AST :=
  emit (EvAddParentRefs classdef) ;;
  let* σ := get_parents in
  set_parents_store (Ast.add_parent_refs classdef σ) ;;
  ret classdef.

Definition check_body (st : SymbolsPass * list string) (body : Ast.AST)
  : M (SymbolsPass * list string) :=
  let '(symbols_pass, error_messages) := st in
  let* r := symbols_pass_check_symbols symbols_pass body in
  ret (r.2, error_messages ++ r.1).

Definition check_symbols (classtypes : list PyKokkosEntity) (path : string)
  : M unit :=
  emit EvCheckSymbols ;;
  let* members := get_pk_members in
  let* pk_import := get_pk_import in
  let symbols_pass := SymbolsPass_new members pk_import path in
  let* st := for_fold (values (pk_mains members)) (symbols_pass, []) check_body in
  let* st := for_fold (values (pk_workunits members)) st check_body in
  let* st := for_fold (values (pk_functions members)) st check_body in
  let* st := for_fold (map AST classtypes) st check_body in
  let error_messages := st.2 in
  match error_messages with
  | [] => ret tt
  | _ :: _ =>
      for_fold error_messages tt (λ _ error, print error) ;;
      sys_exit None
  end.

(** Lines 149 and 150: the declaration is a deep copy of the definition
    with [is_definition] rebound to [False]. *)
Definition clone_declaration (definition : value) : M value :=
  let* declaration := copy_deepcopy definition in
  py_setattr declaration "is_definition" (VBool false) ;;
  ret declaration.

Definition translate_classtype (st : list value * list value)
    (c : PyKokkosEntity) : M (list value * list value) :=
  let '(declarations, definitions) := st in
  let classdef := AST c in
  let source := source c in
  let* members := get_pk_members in
  let* pk_import := get_pk_import in
  let node_visitor :=
    ClasstypeVisitor_new source (views members) (pk_workunits members)
      (fields members) (pk_functions members) (classtype_methods members)
      pk_import true in
  let* definition := classtype_visit node_visitor classdef in
  let* declaration := clone_declaration definition in
  ret (declarations ++ [declaration], definitions ++ [definition]).

Definition translate_classtypes (classtypes : list PyKokkosEntity)
  : M (list value) :=
  emit EvTranslateClasstypes ;;
  let* st := for_fold classtypes ([], []) translate_classtype in
  ret (st.1 ++ st.2).

Definition translate_function (st : KokkosFunctionVisitor * list value)
    (functiondef : Ast.AST) : M (KokkosFunctionVisitor * list value) :=
  let '(node_visitor, translation) := st in
  let* r := function_visit node_visitor functiondef in
  ret (r.2, translation ++ [r.1]).

Definition translate_functions (source : list string * Z) : M (list value) :=
  emit EvTranslateFunctions ;;
  let* members := get_pk_members in
  let* pk_import := get_pk_import in
  let node_visitor :=
    KokkosFunctionVisitor_new source (views members) (pk_workunits members)
      (fields members) (pk_functions members) (classtype_methods members)
      pk_import true in
  let* st := for_fold (values (pk_functions members)) (node_visitor, [])
               translate_function in
  ret st.2.

Definition translate_workunit
    (st : WorkunitVisitor * dict (string * value)) (item : string * Ast.AST)
  : M (WorkunitVisitor * dict (string * value)) :=
  let '(node_visitor, workunits) := st in
  let '(n, w) := item in
  let* r := workunit_visit node_visitor w in
  match r with
  | Some (result, node_visitor') =>
      ret (node_visitor', dict_set n result workunits)
  | None =>
      print ("Translation of " +:+ ast_repr w +:+ " failed") ;;
      sys_exit (Some 1%Z)
  end.

Definition translate_workunits (source : list string * Z)
  : M (dict (string * value)) :=
  emit EvTranslateWorkunits ;;
  let* members := get_pk_members in
  let* pk_import := get_pk_import in
  let node_visitor :=
    WorkunitVisitor_new source (views members) (pk_workunits members)
      (fields members) (pk_functions members) (classtype_methods members)
      pk_import true in
  let* st := for_fold (pk_workunits members) (node_visitor, [])
               translate_workunit in
  ret st.2.

Definition generate_header : string :=
  "// ******* AUTOMATICALLY GENERATED BY PyKokkos *******".

Definition newline : string := String (Ascii.ascii_of_nat 10) EmptyString.

Definition include_line (h : string) : string :=
  "#include <" +:+ h +:+ ">" +:+ newline.

Definition generate_includes (self : StaticTranslator) : string :=
  let headers :=
    ["pybind11/pybind11.h"; "Kokkos_Core.hpp"; "Kokkos_Sort.hpp";
     "fstream"; "iostream"; "cmath"; functor_file self] in
  let headers := map include_line headers in
  foldr String.append "" headers.

Definition generate_bindings (entity : PyKokkosEntity) (functor_name : string)
    (source : list string * Z) (workunits : dict (string * value))
  : M (list string) :=
  emit EvGenerateBindings ;;
  let* self := get_self in
  if decide (style entity = workload) then
    let* members := get_pk_members in
    let* pk_import := get_pk_import in
    let* h := get_heap in
    ret (bind_main functor_name members source pk_import (module_file self) h)
  else
    let* members := get_pk_members in
    let* h := get_heap in
    ret (bind_workunits functor_name members workunits (module_file self) h).

Definition assemble_functor (functor_name : string)
    (workunits : dict (string * value)) (functions : list value) : M value :=
  emit EvGenerateFunctor ;;
  let* members := get_pk_members in
  let* h := get_heap in
  let '(struct, h') := generate_functor functor_name members workunits functions h in
  set_heap h' ;;
  ret struct.

Definition translate (entity : PyKokkosEntity)
    (classtypes : list PyKokkosEntity) : M (list string * list string) :=
  set_pk_import (pk_import entity) ;;
  add_parent_refs (AST entity) ;;
  for_fold classtypes tt (λ _ c, add_parent_refs (AST c) ;; ret tt) ;;
  emit EvExtract ;;
  let* σ := get_parents in
  set_pk_members (PyKokkosMembers_extract entity classtypes σ) ;;
  check_symbols classtypes (path entity) ;;
  let source := source entity in
  let functor_name := "pk_functor_" +:+ name entity in
  let* classtypes := translate_classtypes classtypes in
  let* functions := translate_functions source in
  let* workunits := translate_workunits source in
  let* struct := assemble_functor functor_name workunits functions in
  let* bindings := generate_bindings entity functor_name source workunits in
  let functor := [generate_header] in
  let* fragments :=
    for_fold classtypes [] (λ acc c, let* s := serialize c in ret (acc ++ [s])) in
  let functor := functor ++ fragments in
  let* fragment := serialize struct in
  let functor := functor ++ [fragment] in
  let* self := get_self in
  let bindings := generate_includes self :: bindings in
  let bindings := generate_header :: bindings in
  ret (functor, bindings).

End Pipeline.

(** *** The steps of a run, as the events show them *)

Inductive stage :=
| LinkParents
| ExtractMembers
| ValidateSymbols
| TranslateClasstypes
| TranslateFunctions
| TranslateWorkunits
| AssembleFunctor
| GenerateBindings
| Serialize.

#[global] Instance stage_eq_dec : EqDecision stage.
Proof. solve_decision. Defined.

(** The step an event belongs to; a printed line belongs to the step
    that prints it. *)
Definition stage_of (e : event) : option stage :=
  match e with
  | EvAddParentRefs _ => Some LinkParents
  | EvExtract => Some ExtractMembers
  | EvCheckSymbols | EvSymbolsPass _ => Some ValidateSymbols
  | EvPrint _ => None
  | EvTranslateClasstypes | EvClasstypeVisit _ | EvDeepcopy _ =>
      Some TranslateClasstypes
  | EvTranslateFunctions | EvFunctionVisit _ => Some TranslateFunctions
  | EvTranslateWorkunits | EvWorkunitVisit _ => Some TranslateWorkunits
  | EvGenerateFunctor => Some AssembleFunctor
  | EvGenerateBindings => Some GenerateBindings
  | EvSerialize _ => Some Serialize
  end.

(** Consecutive events of one step count as one occurrence of it. *)
Fixpoint squash (l : list stage) : list stage :=
  match l with
  | [] => []
  | s :: rest =>
      match rest with
      | s' :: _ => if decide (s = s') then squash rest else s :: squash rest
      | [] => [s]
      end
  end.

Definition stages (es : list event) : list stage := squash (omap stage_of es).

Definition pipeline : list stage :=
  [LinkParents; ExtractMembers; ValidateSymbols; TranslateClasstypes;
   TranslateFunctions; TranslateWorkunits; AssembleFunctor; GenerateBindings;
   Serialize].

(** The bodies of a compilation that carry symbols. *)
Definition symbol_bodies `{Collaborators} (members : Members)
    (classtypes : list PyKokkosEntity) : list Ast.AST :=
  values (pk_mains members) ++ values (pk_workunits members) ++
  values (pk_functions members) ++ map AST classtypes.

(** A symbol pass run over [bodies] in order: its diagnostics and the
    state it is left in. *)
Fixpoint run_pass `{Collaborators} (symbols_pass : SymbolsPass)
    (σ : parents) (bodies : list Ast.AST) : list string * SymbolsPass :=
  match bodies with
  | [] => ([], symbols_pass)
  | body :: rest =>
      let r := SymbolsPass_check_symbols symbols_pass σ body in
      let r' := run_pass r.2 σ rest in
      (r.1 ++ r'.1, r'.2)
  end.

Definition diagnostics `{Collaborators} (symbols_pass : SymbolsPass)
    (σ : parents) (bodies : list Ast.AST) : list string :=
  (run_pass symbols_pass σ bodies).1.

(** The events of a run that call the symbol pass. *)
Definition checked (es : list event) : list Ast.AST :=
  omap (λ e, match e with EvSymbolsPass body => Some body | _ => None end) es.

Definition printed (es : list event) : list string :=
  omap (λ e, match e with EvPrint line => Some line | _ => None end) es.

Definition visited_workunits (es : list event) : list Ast.AST :=
  omap (λ e, match e with EvWorkunitVisit w => Some w | _ => None end) es.

End Static.

(** ** Vocabulary of the statements *)

Section StoreVocabulary.
Import PyObj.

(** [v'] is the copy of [v] under the memo [m]. *)
Definition vrel (m : memo) (v v' : value) : Prop :=
  match v with
  | VRef a => ∃ b, v' = VRef b ∧ m !! a = Some b
  | _ => v' = v
  end.

Definition kvrel (m : memo) (p q : string * value) : Prop :=
  p.1 = q.1 ∧ vrel m p.2 q.2.

Definition orel (m : memo) (o o' : object) : Prop :=
  match o, o' with
  | OList xs, OList ys => Forall2 (vrel m) xs ys
  | OInst c kvs, OInst c' kvs' => c = c' ∧ Forall2 (kvrel m) kvs kvs'
  | _, _ => False
  end.

(** Every copy recorded in the memo is in the store, and no object is
    the copy of two. *)
Definition memo_bound (m : memo) (h : heap) : Prop :=
  ∀ a b, m !! a = Some b → b < length h.

Definition memo_inj (m : memo) : Prop :=
  ∀ a a' b, m !! a = Some b → m !! a' = Some b → a = a'.

(** What one call of the copier guarantees about the store and the memo:
    objects that existed are untouched, the memo only grows, and the new
    memo entries are exactly the objects allocated by the call. *)
Record copy_frame (m : memo) (h : heap) (m' : memo) (h' : heap) : Prop := {
  cf_len : length h ≤ length h';
  cf_old : ∀ l, l < length h → h' !! l = h !! l;
  cf_sub : m ⊆ m';
  cf_img : ∀ a b, m' !! a = Some b →
                  m !! a = Some b ∨ (length h ≤ b ∧ b < length h');
  cf_new : ∀ b, length h ≤ b → b < length h' → ∃ a, m' !! a = Some b;
  cf_inj : memo_bound m h → memo_inj m → memo_inj m';
}.

Definition dc_frame
    (dc : value → memo → heap → option (value * memo * heap)) : Prop :=
  ∀ x m h x' m' h',
    dc x m h = Some (x', m', h') → copy_frame m h m' h' ∧ vrel m' x x'.

(** The invariants of a copy in progress, [h0] being the store in which
    it started: values of [h0], stores that extend [h0], and the memo as
    an isomorphism between finished objects. *)
Section CopyInvariants.
Variable h0 : heap.

Definition old_val (v : value) : Prop :=
  match v with VRef l => l < length h0 | _ => True end.

Definition agree (h : heap) : Prop :=
  length h0 ≤ length h ∧ ∀ l, l < length h0 → h !! l = h0 !! l.

Definition iso_inv (P : loc → Prop) (m : memo) (h : heap) : Prop :=
  ∀ a b, m !! a = Some b → ¬ P a →
    ∃ o o', h0 !! a = Some o ∧ h !! b = Some o' ∧ orel m o o'.

Definition dc_iso
    (dc : value → memo → heap → option (value * memo * heap)) : Prop :=
  ∀ x m h x' m' h' P,
    dc x m h = Some (x', m', h') →
    old_val x → agree h → memo_bound m h →
    iso_inv P m h → iso_inv P m' h'.

(** Termination: each nested call on an object not yet memoised memoises
    it first, so the objects of the original store that are not memoised
    bound the depth of the recursion. *)
Definition unmemoised (m : memo) : gset loc :=
  set_seq 0 (length h0) ∖ dom m.

Definition dc_total
    (dc : value → memo → heap → option (value * memo * heap)) (f : nat)
  : Prop :=
  ∀ x m h, old_val x → agree h → size (unmemoised m) ≤ f →
           is_Some (dc x m h).

End CopyInvariants.

Definition is_atom (v : value) : Prop :=
  match v with VRef _ => False | _ => True end.

Definition tree_getattr (name : string) (t : pytree) : option pytree :=
  match t with
  | TInst _ attrs => dict_get name attrs
  | _ => None
  end.

(** A dictionary without the key [k]. *)
Definition dict_remove {A} (k : string) (d : list (string * A))
  : list (string * A) :=
  filter (λ p, p.1 ≠ k) d.

(** The forward declaration as the specification words it, not as the
    source builds it: the same record with the body of every method
    left out. *)
Definition omit_body (method : pytree) : pytree :=
  match method with
  | TInst c attrs => TInst c (dict_remove "body" attrs)
  | _ => method
  end.

Definition omit_bodies (record : pytree) : pytree :=
  match record with
  | TInst c attrs =>
      TInst c
        (map (λ p, if decide (p.1 = "methods")
                   then (p.1, match p.2 with
                              | TList ms => TList (map omit_body ms)
                              | t => t
                              end)
                   else p)
             attrs)
  | _ => record
  end.

(** [closed], decided. *)
Definition closedb (h : heap) : bool :=
  forallb
    (λ o, forallb (λ v, match v with
                        | VRef r => bool_decide (r < length h)
                        | _ => true
                        end)
            (obj_values o))
    h.

End StoreVocabulary.

Section AstVocabulary.
Import Ast.

(** The assignments [child.parent = node] of a run, in order. *)
Definition node_edges (node : AST) : list (nat * nat) :=
  map (λ child, (nid child, nid node)) (iter_child_nodes node).

Definition edges (nodes : list AST) : list (nat * nat) :=
  concat (map node_edges nodes).

Definition assign (σ : parents) (es : list (nat * nat)) : parents :=
  foldl (λ σ e, <[e.1 := e.2]> σ) σ es.

Inductive subnode : AST → AST → Prop :=
| subnode_refl t : subnode t t
| subnode_child n t k :
    k ∈ iter_child_nodes t → subnode n k → subnode n t.

End AstVocabulary.

Section RunVocabulary.
Import PyObj Ast Static.
Context `{Collaborators}.
Local Open Scope py_scope.

(** A world that differs from [w] in its store and by further events. *)
Definition upd (w : world) (h : heap) (es : list event) : world :=
  {| w_self := w_self w; w_parents := w_parents w;
     w_heap := h; w_log := w_log w ++ es |}.

(** [self] has been bound by [translate]. *)
Definition bound (w : world) (members : Members) (import : string) : Prop :=
  self_pk_members (w_self w) = Some members ∧
  self_pk_import (w_self w) = Some import.

Definition link_store (σ : parents) (asts : list Ast.AST) : parents :=
  foldl (λ σ a, Ast.add_parent_refs a σ) σ asts.

(** The world in which the symbols are checked: [self] bound, every tree
    linked, the members extracted. *)
Definition linked (entity : PyKokkosEntity) (classtypes : list PyKokkosEntity)
    (w : world) : world :=
  let σ := link_store (w_parents w) (AST entity :: map AST classtypes) in
  {| w_self :=
       {| self_pk_import := Some (pk_import entity);
          self_pk_members := Some (PyKokkosMembers_extract entity classtypes σ);
          module_file := module_file (w_self w);
          functor_file := functor_file (w_self w) |};
     w_parents := σ;
     w_heap := w_heap w;
     w_log := w_log w ++
              map EvAddParentRefs (AST entity :: map AST classtypes) ++
              [EvExtract] |}.

(** The rest of [translate] once the workunits are translated, and once
    the symbols are checked. *)
Definition after_workunits (entity : PyKokkosEntity) (functor_name : string)
    (source : list string * Z) (classtypes functions : list value)
    (workunits : dict (string * value)) : M (list string * list string) :=
  let* struct := assemble_functor functor_name workunits functions in
  let* bindings := generate_bindings entity functor_name source workunits in
  let functor := [generate_header] in
  let* fragments :=
    for_fold classtypes [] (λ acc c, let* s := serialize c in ret (acc ++ [s])) in
  let functor := functor ++ fragments in
  let* fragment := serialize struct in
  let functor := functor ++ [fragment] in
  let* self := get_self in
  let bindings := generate_includes self :: bindings in
  let bindings := generate_header :: bindings in
  ret (functor, bindings).

Definition after_symbols (entity : PyKokkosEntity)
    (classtypes : list PyKokkosEntity) : M (list string * list string) :=
  let source := source entity in
  let functor_name := "pk_functor_" +:+ name entity in
  let* classtypes := translate_classtypes classtypes in
  let* functions := translate_functions source in
  let* workunits := translate_workunits source in
  after_workunits entity functor_name source classtypes functions workunits.

Definition bindings_of (entity : PyKokkosEntity) (functor_name : string)
    (source : list string * Z) (workunits : dict (string * value))
    (self : StaticTranslator) (members : Members) (import : string) (h : heap)
  : list string :=
  if decide (style entity = workload) then
    bind_main functor_name members source import (module_file self) h
  else bind_workunits functor_name members workunits (module_file self) h.

(** [d] was obtained from [f] by lines 149 and 150. *)
Definition cloned (d f : value) : Prop :=
  ∃ w w', clone_declaration f w = (Return d, w').

(** For the classtype [c], the visitor returned [f] and [d] is its
    forward declaration. *)
Definition translated (c : PyKokkosEntity) (d f : value) : Prop :=
  (∃ node_visitor σ h,
     f = (ClasstypeVisitor_visit node_visitor σ (AST c) h).1) ∧
  cloned d f.

Definition in_stage (s : stage) (e : event) : Prop := stage_of e = Some s.

Definition in_stage_or_print (s : stage) (e : event) : Prop :=
  stage_of e = Some s ∨ stage_of e = None.

Definition failure_message (w : Ast.AST) : string :=
  "Translation of " +:+ ast_repr w +:+ " failed".

Definition run_members (entity : PyKokkosEntity)
    (classtypes : list PyKokkosEntity) (w : world) : Members :=
  PyKokkosMembers_extract entity classtypes
    (link_store (w_parents w) (AST entity :: map AST classtypes)).

Definition run_bodies (entity : PyKokkosEntity)
    (classtypes : list PyKokkosEntity) (w : world) : list Ast.AST :=
  symbol_bodies (run_members entity classtypes w) classtypes.

Definition run_errors (entity : PyKokkosEntity)
    (classtypes : list PyKokkosEntity) (w : world) : list string :=
  diagnostics
    (SymbolsPass_new (run_members entity classtypes w) (pk_import entity)
       (path entity))
    (link_store (w_parents w) (AST entity :: map AST classtypes))
    (run_bodies entity classtypes w).

Definition check_events (entity : PyKokkosEntity)
    (classtypes : list PyKokkosEntity) (w : world) : list event :=
  EvCheckSymbols :: map EvSymbolsPass (run_bodies entity classtypes w) ++
  map EvPrint (run_errors entity classtypes w).

Definition function_events (entity : PyKokkosEntity)
    (classtypes : list PyKokkosEntity) (w : world) : list event :=
  EvTranslateFunctions ::
  map EvFunctionVisit (values (pk_functions (run_members entity classtypes w))).

(** The four ways a run can go, with the events it leaves behind. *)
Inductive run_case (entity : PyKokkosEntity)
    (classtypes : list PyKokkosEntity) (w : world)
  : outcome (list string * list string) → world → Prop :=
| run_symbols_fail :
    run_errors entity classtypes w ≠ [] →
    run_case entity classtypes w (SysExit None)
      (upd (linked entity classtypes w) (w_heap w)
         (check_events entity classtypes w))
| run_classtypes_raise h es :
    run_errors entity classtypes w = [] →
    Forall (in_stage TranslateClasstypes) es →
    run_case entity classtypes w Raised
      (upd (linked entity classtypes w) h
         (check_events entity classtypes w ++ EvTranslateClasstypes :: es))
| run_workunits_fail h es pre a post :
    run_errors entity classtypes w = [] →
    Forall (in_stage TranslateClasstypes) es →
    values (pk_workunits (run_members entity classtypes w)) =
      pre ++ a :: post →
    run_case entity classtypes w (SysExit (Some 1%Z))
      (upd (linked entity classtypes w) h
         (check_events entity classtypes w ++ EvTranslateClasstypes :: es ++
          function_events entity classtypes w ++
          EvTranslateWorkunits :: map EvWorkunitVisit (pre ++ [a]) ++
          [EvPrint (failure_message a)]))
| run_success h0 es ds fs functions workunits :
    run_errors entity classtypes w = [] →
    Forall (in_stage TranslateClasstypes) es →
    length ds = length classtypes →
    Forall3 translated classtypes ds fs →
    let r := generate_functor ("pk_functor_" +:+ name entity)
               (run_members entity classtypes w) workunits functions h0 in
    run_case entity classtypes w
      (Return
         (generate_header :: map (Serializer_serialize r.2) (ds ++ fs) ++
            [Serializer_serialize r.2 r.1],
          generate_header ::
            generate_includes (w_self (linked entity classtypes w)) ::
            bindings_of entity ("pk_functor_" +:+ name entity) (source entity)
              workunits (w_self (linked entity classtypes w))
              (run_members entity classtypes w) (pk_import entity) r.2))
      (upd (linked entity classtypes w) r.2
         (check_events entity classtypes w ++ EvTranslateClasstypes :: es ++
          function_events entity classtypes w ++
          EvTranslateWorkunits ::
          map EvWorkunitVisit
            (values (pk_workunits (run_members entity classtypes w))) ++
          [EvGenerateFunctor; EvGenerateBindings] ++
          map EvSerialize (ds ++ fs) ++ [EvSerialize r.1])).

(** A non-empty run of events of the step [s], printed lines included,
    that starts with an event of [s]. *)
Definition block (s : stage) (es : list event) : Prop :=
  ∃ e es', es = e :: es' ∧ in_stage s e ∧ Forall (in_stage_or_print s) es'.

(** [self] as it would be with other bindings left by an earlier call. *)
Definition rebind (w : world) (import : option string)
    (members : option Members) : world :=
  {| w_self := {| self_pk_import := import; self_pk_members := members;
                  module_file := module_file (w_self w);
                  functor_file := functor_file (w_self w) |};
     w_parents := w_parents w; w_heap := w_heap w; w_log := w_log w |}.

Definition new_events (w w' : world) (es : list event) : Prop :=
  w_log w' = w_log w ++ es.

Definition fixed_includes : string :=
  include_line "pybind11/pybind11.h" +:+ include_line "Kokkos_Core.hpp" +:+
  include_line "Kokkos_Sort.hpp" +:+ include_line "fstream" +:+
  include_line "iostream" +:+ include_line "cmath".

(** The events of translating the classtypes [cs] into the definitions
    [fs]: each classtype is visited, and what the visit returned is
    copied right away. *)
Definition classtype_events (cs : list PyKokkosEntity) (fs : list value)
  : list event :=
  concat (zip_with (λ c f, [EvClasstypeVisit (AST c); EvDeepcopy f]) cs fs).

(** Lines 141 to 148: the visit of the classtype [c] by a visitor made
    for it, from its own source. *)
Definition fresh_visit (members : Members) (import : string)
    (c : PyKokkosEntity) (σ : parents) (h : heap) : value * heap :=
  ClasstypeVisitor_visit
    (ClasstypeVisitor_new (source c) (views members) (pk_workunits members)
       (fields members) (pk_functions members) (classtype_methods members)
       import true)
    σ (AST c) h.

Definition visited_functions (es : list event) : list Ast.AST :=
  omap (λ e, match e with EvFunctionVisit f => Some f | _ => None end) es.

(** [self] as [__init__] leaves it: [pk_import] and [pk_members] are
    annotated there, not assigned. *)
Definition unbound (w : world) : Prop :=
  self_pk_members (w_self w) = None ∧ self_pk_import (w_self w) = None.

(** Every object of [h] is in [h'] as it is in [h]. *)
Definition extends (h h' : heap) : Prop :=
  ∀ l o, h !! l = Some o → h' !! l = Some o.

(** The classtype visitor builds records: a visit returns an instance,
    changes no object that existed and leaves no dangling reference. *)
Definition builds_records : Prop :=
  ∀ node_visitor σ classdef h, closed h →
    let r := ClasstypeVisitor_visit node_visitor σ classdef h in
    closed r.2 ∧ extends h r.2 ∧
    ∃ (x : loc) cls attrs, r.1 = VRef x ∧ r.2 !! x = Some (OInst cls attrs).

(** One pass through the body of the loop of [translate_classtypes]
    (lines 141 to 153) on the classtype [c], entered in the world [w]:
    [f] is what the visit of [c] returns, and [d] the copy lines 149
    and 150 make of [f] in the store the visit has left, with
    [is_definition] false when line 150 is done. *)
Definition classtype_pass (members : Members) (import : string)
    (c : PyKokkosEntity) (w : world) (d f : value) : Prop :=
  let r := fresh_visit members import c (w_parents w) (w_heap w) in
  f = r.1 ∧
  ∃ w', clone_declaration f (upd w r.2 [EvClasstypeVisit (AST c)]) =
          (Return d, w') ∧
        getattr d "is_definition" (w_heap w') = Some (VBool false).

(** The world in which the loop of [translate_classtypes] starts when
    the symbols were accepted. *)
Definition checked_world (entity : PyKokkosEntity)
    (classtypes : list PyKokkosEntity) (w : world) : world :=
  upd (linked entity classtypes w) (w_heap w)
    (check_events entity classtypes w ++ [EvTranslateClasstypes]).

(** Every event of a run that ends with [o], in order.  Each method of
    the translator leaves the event of its call, and each pass through
    the body of a loop the event of the call it makes. *)
Definition run_log (entity : PyKokkosEntity)
    (classtypes : list PyKokkosEntity) (w : world)
    (o : outcome (list string * list string)) (es : list event) : Prop :=
  let members := run_members entity classtypes w in
  let checked :=
    map EvAddParentRefs (AST entity :: map AST classtypes) ++ [EvExtract] ++
    check_events entity classtypes w in
  match o with
  | SysExit None => es = checked
  | Raised =>
      ∃ k fs, k < length classtypes ∧ length fs = S k ∧
        es = checked ++ EvTranslateClasstypes ::
             classtype_events (take (S k) classtypes) fs
  | SysExit (Some status) =>
      status = 1%Z ∧
      ∃ fs pre a post,
        length fs = length classtypes ∧
        values (pk_workunits members) = pre ++ a :: post ∧
        es = checked ++ EvTranslateClasstypes ::
             classtype_events classtypes fs ++
             function_events entity classtypes w ++
             EvTranslateWorkunits :: map EvWorkunitVisit (pre ++ [a]) ++
             [EvPrint (failure_message a)]
  | Return _ =>
      ∃ ds fs struct,
        length ds = length classtypes ∧ length fs = length classtypes ∧
        es = checked ++ EvTranslateClasstypes ::
             classtype_events classtypes fs ++
             function_events entity classtypes w ++
             EvTranslateWorkunits ::
             map EvWorkunitVisit (values (pk_workunits members)) ++
             [EvGenerateFunctor; EvGenerateBindings] ++
             map EvSerialize (ds ++ fs) ++ [EvSerialize struct]
  end.

End RunVocabulary.

Ltac run_world :=
  unfold upd; simpl; rewrite <- ?app_assoc; simpl; try reflexivity.

Ltac other_stage :=
  repeat first
    [ apply Forall_nil_2
    | apply Forall_cons; split; [done|]
    | apply Forall_app; split
    | (apply Forall_forall; intros ? (? & -> & _)%list_elem_of_fmap; done)
    | (eapply Forall_impl; [eassumption|];
       let Hx := fresh in
       intros ? Hx; unfold in_stage in Hx; rewrite Hx; done) ].

(** ** A small instance of the collaborators

    Enough of a member extractor, a symbol pass, three visitors, a functor
    assembler, a binding generator and a serializer to run the translator
    on concrete inputs. *)

Module Demo.
Import PyObj Ast Static.

Definition alloc (o : object) (h : heap) : value * heap :=
  (VRef (length h), h ++ [o]).

Definition members_of (c : string) (classdef : Ast.AST) : dict Ast.AST :=
  map (λ n, (ident n, n))
      (filter (λ n, cls n = c) (iter_child_nodes classdef)).

Definition extract (entity : PyKokkosEntity) (_ : list PyKokkosEntity)
    (_ : parents) : PyKokkosMembers unit unit unit :=
  {| pk_mains := members_of "Main" (AST entity);
     pk_workunits := members_of "Workunit" (AST entity);
     pk_functions := members_of "Function" (AST entity);
     views := tt; fields := tt; classtype_methods := tt |}.

(** A symbol is unknown when its node is of class [Ghost]. *)
Definition check (seen : nat) (_ : parents) (body : Ast.AST)
  : list string * nat :=
  (map (λ n, "Unknown symbol " +:+ ident n)
       (filter (λ n, cls n = "Ghost") (walk body)),
   S seen).

(** Modelled from the spec: the target IR of [pykokkos.core.cppast] is
    not among the sources; a method declaration is a signature and a
    body, a record declaration carries its name, the definition flag and
    its methods. *)
Definition method_decl (n : Ast.AST) (h : heap) : value * heap :=
  let '(body, h1) := alloc (OInst "CompoundStmt" [("stmts", VInt (Z.of_nat (length (iter_child_nodes n))))]) h in
  alloc (OInst "MethodDecl" [("declname", VStr (ident n)); ("body", body)]) h1.

Fixpoint method_decls (ns : list Ast.AST) (h : heap) : list value * heap :=
  match ns with
  | [] => ([], h)
  | n :: rest =>
      let '(m, h1) := method_decl n h in
      let '(ms, h2) := method_decls rest h1 in
      (m :: ms, h2)
  end.

Definition record_decl (name : string) (methods : list value) (h : heap)
  : value * heap :=
  let '(ms, h1) := alloc (OList methods) h in
  alloc (OInst "RecordDecl"
           [("name", VStr name); ("is_definition", VBool true); ("methods", ms)])
        h1.

Definition visit_classtype (_ : unit) (_ : parents) (classdef : Ast.AST)
    (h : heap) : value * heap :=
  let '(ms, h1) := method_decls (iter_child_nodes classdef) h in
  record_decl (ident classdef) ms h1.

Definition visit_function (count : nat) (_ : parents) (functiondef : Ast.AST)
    (h : heap) : value * nat * heap :=
  let '(m, h1) := method_decl functiondef h in (m, S count, h1).

(** A workunit with a child of class [Unsupported] cannot be translated. *)
Definition visit_workunit (count : nat) (_ : parents) (w : Ast.AST) (h : heap)
  : option ((string * value) * nat * heap) :=
  if decide (Exists (λ n, cls n = "Unsupported") (iter_child_nodes w)) then None
  else
    let '(m, h1) := method_decl w h in
    Some (("for", m), S count, h1).

Definition functor_record (functor_name : string)
    (_ : PyKokkosMembers unit unit unit)
    (workunits : dict (string * value)) (functions : list value) (h : heap)
  : value * heap :=
  record_decl functor_name (functions ++ map (λ p, p.2.2) workunits) h.

Definition main_binding (functor_name : string)
    (_ : PyKokkosMembers unit unit unit) (_ : list string * Z)
    (_ module : string) (_ : heap) : list string :=
  ["PYBIND11_MODULE(" +:+ module +:+ ") run " +:+ functor_name].

Definition workunit_bindings (functor_name : string)
    (_ : PyKokkosMembers unit unit unit)
    (workunits : dict (string * value)) (module : string) (_ : heap)
  : list string :=
  map (λ p, "PYBIND11_MODULE(" +:+ module +:+ ") " +:+ p.1) workunits.

(** A forward declaration is rendered without its members. *)
Definition render (h : heap) (node : value) : string :=
  match getattr node "name" h, getattr node "is_definition" h with
  | Some (VStr n), Some (VBool true) => "struct " +:+ n +:+ " {...};"
  | Some (VStr n), Some (VBool false) => "struct " +:+ n +:+ ";"
  | _, _ => "?"
  end.

#[export] Instance collaborators : Collaborators := {|
  ViewTable := unit;
  FieldTable := unit;
  MethodTable := unit;
  SymbolsPass := nat;
  ClasstypeVisitor := unit;
  KokkosFunctionVisitor := nat;
  WorkunitVisitor := nat;
  PyKokkosMembers_extract := extract;
  SymbolsPass_new := λ _ _ _, 0;
  SymbolsPass_check_symbols := check;
  ClasstypeVisitor_new := λ _ _ _ _ _ _ _ _, tt;
  ClasstypeVisitor_visit := visit_classtype;
  KokkosFunctionVisitor_new := λ _ _ _ _ _ _ _ _, 0;
  KokkosFunctionVisitor_visit := visit_function;
  WorkunitVisitor_new := λ _ _ _ _ _ _ _ _, 0;
  WorkunitVisitor_visit := visit_workunit;
  generate_functor := functor_record;
  bind_main := main_binding;
  bind_workunits := workunit_bindings;
  Serializer_serialize := render;
  ast_repr := λ n, "<ast." +:+ cls n +:+ " " +:+ ident n +:+ ">";
|}.

Definition world0 : world :=
  {| w_self := init "kernel" "functor.hpp";
     w_parents := ∅; w_heap := []; w_log := [] |}.

(** A function-style entity with two workunits and a helper. *)
Definition square : Ast.AST :=
  Node 1 "Workunit" "square" [Node 2 "Assign" "view" [Node 3 "Name" "i" []]].

Definition scale : Ast.AST :=
  Node 4 "Workunit" "scale" [Node 5 "Assign" "view" []].

Definition helper : Ast.AST :=
  Node 6 "Function" "helper" [Node 7 "Return" "" []].

Definition kernels : PyKokkosEntity :=
  {| style := function_group; name := "kernels";
     AST := Node 0 "ClassDef" "kernels" [square; scale; helper];
     source := (["..."], 1%Z); path := "kernels.py"; pk_import := "pk" |}.

Definition point : PyKokkosEntity :=
  {| style := function_group; name := "Point";
     AST := Node 10 "ClassDef" "Point" [Node 11 "FunctionDef" "norm" [Node 12 "Return" "" []]];
     source := (["..."], 1%Z); path := "point.py"; pk_import := "pk" |}.

(** The same entity with an undeclared name in [scale]. *)
Definition kernels_ghost : PyKokkosEntity :=
  {| style := function_group; name := "kernels";
     AST := Node 0 "ClassDef" "kernels"
              [square; Node 4 "Workunit" "scale" [Node 5 "Ghost" "ghost" []]; helper];
     source := (["..."], 1%Z); path := "kernels.py"; pk_import := "pk" |}.

(** The same entity with a construct the workunit visitor rejects in
    [clip], the second of three workunits. *)
Definition clip : Ast.AST :=
  Node 8 "Workunit" "clip" [Node 9 "Unsupported" "lambda" []].

Definition kernels_fault : PyKokkosEntity :=
  {| style := function_group; name := "kernels";
     AST := Node 0 "ClassDef" "kernels" [square; clip; scale; helper];
     source := (["..."], 1%Z); path := "kernels.py"; pk_import := "pk" |}.

(** The world in which the classtype [Point] is translated, and the
    store once its visitor has returned. *)
Definition world1 : world := linked kernels [point] world0.

Definition point_heap : heap := (visit_classtype tt ∅ (AST point) []).2.

Definition world2 : world := upd world1 point_heap [EvClasstypeVisit (AST point)].

(** The tree the record of [Point] reads back as. *)
Definition point_tree : pytree :=
  TInst "RecordDecl"
    [("name", TAtom (VStr "Point"));
     ("is_definition", TAtom (VBool true));
     ("methods",
      TList
        [TInst "MethodDecl"
           [("declname", TAtom (VStr "norm"));
            ("body", TInst "CompoundStmt" [("stmts", TAtom (VInt 1))])]])].

(** An entity with nothing to translate. *)
Definition hollow : PyKokkosEntity :=
  {| style := workload; name := "hollow";
     AST := Node 20 "ClassDef" "hollow" [];
     source := (["..."], 1%Z); path := "hollow.py"; pk_import := "pk" |}.

(** A record two of whose attributes name the same list, and which
    names itself. *)
Definition pair_heap : heap :=
  [OList [];
   OInst "RecordDecl"
     [("name", VStr "Pair"); ("is_definition", VBool true);
      ("fields", VRef 0); ("methods", VRef 0); ("canonical", VRef 1)]].

Definition world3 : world := upd world1 pair_heap [].

(** The same collaborators with a classtype visitor that, like
    [ast.NodeVisitor.generic_visit], returns [None]. *)
Definition generic : Collaborators := {|
  ViewTable := unit;
  FieldTable := unit;
  MethodTable := unit;
  SymbolsPass := nat;
  ClasstypeVisitor := unit;
  KokkosFunctionVisitor := nat;
  WorkunitVisitor := nat;
  PyKokkosMembers_extract := extract;
  SymbolsPass_new := λ _ _ _, 0;
  SymbolsPass_check_symbols := check;
  ClasstypeVisitor_new := λ _ _ _ _ _ _ _ _, tt;
  ClasstypeVisitor_visit := λ _ _ _ h, (VNone, h);
  KokkosFunctionVisitor_new := λ _ _ _ _ _ _ _ _, 0;
  KokkosFunctionVisitor_visit := visit_function;
  WorkunitVisitor_new := λ _ _ _ _ _ _ _ _, 0;
  WorkunitVisitor_visit := visit_workunit;
  generate_functor := functor_record;
  bind_main := main_binding;
  bind_workunits := workunit_bindings;
  Serializer_serialize := render;
  ast_repr := λ n, "<ast." +:+ cls n +:+ " " +:+ ident n +:+ ">";
|}.

(** The world in which the classtypes are translated, for [generic]. *)
Definition world_generic : @world generic :=
  @linked generic kernels [point]
    {| w_self := @init generic "kernel" "functor.hpp";
       w_parents := ∅; w_heap := []; w_log := [] |}.

(** An expression whose two names share their context node, as the
    trees of [ast.parse] do. *)
Definition shared_load : Ast.AST := Node 9 "Load" "" [].

Definition binop : Ast.AST :=
  Node 30 "BinOp" "+"
    [Node 31 "Name" "x" [shared_load]; Node 32 "Name" "y" [shared_load]].

End Demo.

(** ** Facts about the object store *)

Section DeepcopyFrame.
Import PyObj.

Lemma vrel_mono (m m' : memo) v v' : m ⊆ m' → vrel m v v' → vrel m' v v'.
Proof.
  intros Hsub. destruct v; simpl; try done.
  intros (b & -> & Hb). exists b. split; [done|].
  by eapply lookup_weaken.
Qed.

Lemma kvrel_mono (m m' : memo) p q : m ⊆ m' → kvrel m p q → kvrel m' p q.
Proof. intros Hsub [? ?]. split; [done|]. by eapply vrel_mono. Qed.

Lemma orel_mono (m m' : memo) o o' : m ⊆ m' → orel m o o' → orel m' o o'.
Proof.
  intros Hsub. destruct o, o'; simpl; try done.
  - intros H. eapply Forall2_impl; [exact H|]. intros ??. by apply vrel_mono.
  - intros [-> H]. split; [done|]. eapply Forall2_impl; [exact H|].
    intros ??. by apply kvrel_mono.
Qed.

Lemma copy_frame_refl m h : copy_frame m h m h.
Proof. split; [lia|done|done|by left|intros; lia|done]. Qed.

Lemma memo_bound_step (m : memo) (h : heap) (m' : memo) (h' : heap) :
  length h ≤ length h' →
  (∀ a b, m' !! a = Some b →
          m !! a = Some b ∨ (length h ≤ b ∧ b < length h')) →
  memo_bound m h → memo_bound m' h'.
Proof.
  intros L I B a b Hb.
  destruct (I _ _ Hb) as [H1|H1]; [|lia]. apply B in H1. lia.
Qed.

Lemma list_append_Some y v (h h' : heap) :
  list_append y v h = Some h' →
  ∃ items, h !! y = Some (OList items) ∧ h' = <[y := OList (items ++ [v])]> h.
Proof.
  unfold list_append. destruct (h !! y) as [[items|]|] eqn:E; try done.
  intros [= <-]. eauto.
Qed.

Lemma deepcopy_items_frame dc y xs : dc_frame dc →
  ∀ m h m' h' ys0,
    deepcopy_items dc y xs m h = Some (m', h') →
    h !! y = Some (OList ys0) →
    length h ≤ length h' ∧
    (∀ l, l < length h → l ≠ y → h' !! l = h !! l) ∧
    m ⊆ m' ∧
    (∀ a b, m' !! a = Some b →
            m !! a = Some b ∨ (length h ≤ b ∧ b < length h')) ∧
    (∀ b, length h ≤ b → b < length h' → ∃ a, m' !! a = Some b) ∧
    (memo_bound m h → memo_inj m → memo_inj m') ∧
    ∃ ys, h' !! y = Some (OList (ys0 ++ ys)) ∧ Forall2 (vrel m') xs ys.
Proof.
  intros Hdc. induction xs as [|a xs IH]; intros m h m' h' ys0; simpl.
  - intros [= <- <-] Hy.
    split; [lia|]. split; [done|]. split; [done|]. split; [by left|].
    split; [intros; lia|]. split; [done|].
    exists []. rewrite app_nil_r. split; [done|constructor].
  - destruct (dc a m h) as [[[a' m1] h1]|] eqn:Ea; [|done].
    destruct (list_append y a' h1) as [h2|] eqn:Eapp; [|done].
    intros Hrec Hy.
    apply Hdc in Ea as [F Ha].
    apply list_append_Some in Eapp as (items & Hy1 & ->).
    pose proof (lookup_lt_Some _ _ _ Hy) as Hylt.
    rewrite (cf_old _ _ _ _ F) in Hy1 by done.
    rewrite Hy in Hy1. injection Hy1 as <-.
    pose proof (cf_len _ _ _ _ F) as Hlen.
    assert (<[y:=OList (ys0 ++ [a'])]> h1 !! y = Some (OList (ys0 ++ [a'])))
      as Hy2 by (apply list_lookup_insert_eq; lia).
    destruct (IH _ _ _ _ _ Hrec Hy2)
      as (L & O & S & I & N & J & ys & Hy' & Hrel).
    unfold memo_bound in J. rewrite length_insert in L, O, I, N, J.
    split; [lia|]. split.
    { intros l Hl Hne. rewrite O by lia.
      rewrite list_lookup_insert_ne by done. by apply (cf_old _ _ _ _ F). }
    split; [etrans; [apply (cf_sub _ _ _ _ F)|done]|].
    split.
    { intros a0 b Hb. destruct (I _ _ Hb) as [H1|H1]; [|right; lia].
      destruct (cf_img _ _ _ _ F _ _ H1) as [?|?]; [by left|right; lia]. }
    split.
    { intros b Hb1 Hb2. destruct (decide (b < length h1)) as [Hlt|Hge].
      - destruct (cf_new _ _ _ _ F b Hb1 Hlt) as [a0 Ha0].
        exists a0. by eapply lookup_weaken.
      - apply N; lia. }
    split.
    { intros B Hinj. apply J; [|by apply (cf_inj _ _ _ _ F)].
      eapply memo_bound_step; [exact Hlen|apply (cf_img _ _ _ _ F)|done]. }
    exists (a' :: ys). rewrite <- app_assoc in Hy'. split; [done|].
    constructor; [|done]. by eapply vrel_mono.
Qed.

Lemma deepcopy_dict_frame dc kvs : dc_frame dc →
  ∀ m h st m' h',
    deepcopy_dict dc kvs m h = Some (st, m', h') →
    copy_frame m h m' h' ∧ Forall2 (kvrel m') kvs st.
Proof.
  intros Hdc. induction kvs as [|[k v] kvs IH]; intros m h st m' h'; simpl.
  - intros [= <- <- <-]. split; [apply copy_frame_refl|constructor].
  - destruct (dc v m h) as [[[v' m1] h1]|] eqn:Ev; [|done].
    destruct (deepcopy_dict dc kvs m1 h1) as [[[st1 m2] h2]|] eqn:Er; [|done].
    intros [= <- <- <-].
    apply Hdc in Ev as [F Hv]. apply IH in Er as [F' Hrel].
    destruct F, F'. split.
    + split.
      * lia.
      * intros l Hl. rewrite cf_old1 by lia. by apply cf_old0.
      * by etrans.
      * intros a b Hb. destruct (cf_img1 _ _ Hb) as [H1|H1]; [|right; lia].
        destruct (cf_img0 _ _ H1) as [?|?]; [by left|right; lia].
      * intros b Hb1 Hb2. destruct (decide (b < length h1)) as [Hlt|Hge].
        -- destruct (cf_new0 b Hb1 Hlt) as [a0 Ha0].
           exists a0. by eapply lookup_weaken.
        -- apply cf_new1; lia.
      * intros B Hinj. apply cf_inj1; [|by apply cf_inj0].
        by eapply memo_bound_step.
    + constructor; [|done]. split; [done|]. simpl. by eapply vrel_mono.
Qed.

Lemma copy_frame_alloc (l : loc) (m : memo) (h : heap) o m' h' :
  m !! l = None →
  length (h ++ [o]) ≤ length h' →
  (∀ l0, l0 < length (h ++ [o]) → l0 ≠ length h → h' !! l0 = (h ++ [o]) !! l0) →
  <[l := length h]> m ⊆ m' →
  (∀ a b, m' !! a = Some b →
          <[l := length h]> m !! a = Some b ∨
          (length (h ++ [o]) ≤ b ∧ b < length h')) →
  (∀ b, length (h ++ [o]) ≤ b → b < length h' → ∃ a, m' !! a = Some b) →
  (memo_bound (<[l := length h]> m) (h ++ [o]) →
   memo_inj (<[l := length h]> m) → memo_inj m') →
  copy_frame m h m' h'.
Proof.
  rewrite length_app. simpl. intros Hl L O S I N J. split.
  - lia.
  - intros l0 Hl0. rewrite O by lia. by apply lookup_app_l.
  - etrans; [|exact S]. by apply insert_subseteq.
  - intros a b Hb. destruct (I _ _ Hb) as [H1|H1]; [|right; lia].
    destruct (decide (l = a)) as [->|Hne].
    + rewrite lookup_insert_eq in H1. injection H1 as <-. right. lia.
    + rewrite lookup_insert_ne in H1 by done. by left.
  - intros b Hb1 Hb2. destruct (decide (b = length h)) as [->|Hne].
    + exists l. eapply lookup_weaken; [|exact S]. apply lookup_insert_eq.
    + apply N; lia.
  - intros B Hinj. apply J.
    + intros a b. rewrite length_app. simpl.
      destruct (decide (l = a)) as [->|Hne].
      * rewrite lookup_insert_eq. intros [= <-]. lia.
      * rewrite lookup_insert_ne by done. intros Hab. apply B in Hab. lia.
    + intros a a' b.
      destruct (decide (l = a)) as [<-|Hne];
        destruct (decide (l = a')) as [<-|Hne']; [done| | |].
      * rewrite lookup_insert_eq, lookup_insert_ne by done.
        intros [= <-] Hb. apply B in Hb. lia.
      * rewrite lookup_insert_eq, lookup_insert_ne by done.
        intros Hb [= <-]. apply B in Hb. lia.
      * rewrite !lookup_insert_ne by done. apply Hinj.
Qed.

Lemma deepcopy_aux_frame fuel : dc_frame (deepcopy_aux fuel).
Proof.
  induction fuel as [|f IH]; intros x m h x' m' h';
    (destruct x as [| | | |l]; simpl;
     try (intros [= <- <- <-]; split; [apply copy_frame_refl|done]));
    (destruct (m !! l) as [y|] eqn:Em;
     [intros [= <- <- <-]; split; [apply copy_frame_refl|by exists y]|]);
    [done|].
  destruct (h !! l) as [[items|cls attrs]|] eqn:El; [| |done].
  - destruct (deepcopy_items _ _ _ _ _) as [[m1 h1]|] eqn:E; [|done].
    intros [= <- <- <-].
    eapply (deepcopy_items_frame _ _ _ IH _ _ _ _ []) in E
      as (L & O & S & I & N & J & ys & Hy & Hrel);
      [|by apply list_lookup_middle].
    split; [by eapply copy_frame_alloc|].
    exists (length h). split; [done|].
    eapply lookup_weaken; [|exact S]. apply lookup_insert_eq.
  - destruct (deepcopy_dict _ _ _ _) as [[[st m1] h1]|] eqn:E; [|done].
    intros [= <- <- <-].
    apply (deepcopy_dict_frame _ _ IH) in E as [[L O S I N J] Hrel].
    split.
    + eapply copy_frame_alloc; rewrite ?length_insert; eauto.
      intros l0 Hl0 Hne. rewrite list_lookup_insert_ne by done. by apply O.
    + exists (length h). split; [done|].
      eapply lookup_weaken; [|exact S]. apply lookup_insert_eq.
Qed.

End DeepcopyFrame.

(** The copy is isomorphic to the original: every memoised pair relates
    an object of the original store to its finished copy.  Objects whose
    copy is still being filled are the pending ones, [P]. *)
Section DeepcopyIso.
Import PyObj.
Variable h0 : heap.
Hypothesis h0_closed : closed h0.

Lemma agree_frame m h m' h' : copy_frame m h m' h' → agree h0 h → agree h0 h'.
Proof.
  intros F [L O]. destruct F. split; [lia|].
  intros l Hl. rewrite cf_old0 by lia. by apply O.
Qed.

Lemma memo_bound_frame m h m' h' :
  copy_frame m h m' h' → memo_bound m h → memo_bound m' h'.
Proof.
  intros F B a b Hb. destruct F.
  destruct (cf_img0 _ _ Hb) as [H1|H1]; [|lia]. apply B in H1. lia.
Qed.

Lemma closed_old_values l o :
  h0 !! l = Some o → Forall (old_val h0) (obj_values o).
Proof.
  intros Hl. apply Forall_forall. intros v Hv.
  destruct v; simpl; try done. by eapply h0_closed.
Qed.

Lemma deepcopy_dict_iso f kvs : dc_iso h0 (deepcopy_aux f) →
  ∀ m h st m' h' P,
    deepcopy_dict (deepcopy_aux f) kvs m h = Some (st, m', h') →
    Forall (old_val h0) kvs.*2 → agree h0 h → memo_bound m h →
    iso_inv h0 P m h → iso_inv h0 P m' h'.
Proof.
  intros Hdc. induction kvs as [|[k v] kvs IH]; intros m h st m' h' P; simpl.
  - by intros [= <- <- <-].
  - destruct (deepcopy_aux f v m h) as [[[v' m1] h1]|] eqn:Ev; [|done].
    destruct (deepcopy_dict _ kvs m1 h1) as [[[st1 m2] h2]|] eqn:Er; [|done].
    intros [= <- <- <-] Hold Hag Hb Hinv.
    apply Forall_cons in Hold as [Hv Hold].
    pose proof (deepcopy_aux_frame f _ _ _ _ _ _ Ev) as [F _].
    eapply IH; [exact Er|done|by eapply agree_frame|by eapply memo_bound_frame|].
    by eapply Hdc.
Qed.

Lemma deepcopy_items_iso f (y : loc) xs : dc_iso h0 (deepcopy_aux f) →
  length h0 ≤ y →
  ∀ m h m' h' ys0 (P : loc → Prop),
    deepcopy_items (deepcopy_aux f) y xs m h = Some (m', h') →
    Forall (old_val h0) xs → agree h0 h → memo_bound m h →
    h !! y = Some (OList ys0) →
    (∀ a, m !! a = Some y → P a) →
    iso_inv h0 P m h → iso_inv h0 P m' h'.
Proof.
  intros Hdc Hy0. induction xs as [|x xs IH]; intros m h m' h' ys0 P; simpl.
  - by intros [= <- <-].
  - destruct (deepcopy_aux f x m h) as [[[x' m1] h1]|] eqn:Ex; [|done].
    destruct (list_append y x' h1) as [h2|] eqn:Eapp; [|done].
    intros Hrec Hold Hag Hb Hy HP Hinv.
    apply Forall_cons in Hold as [Hx Hold].
    pose proof (deepcopy_aux_frame f _ _ _ _ _ _ Ex) as [F _].
    apply list_append_Some in Eapp as (items & Hy1 & ->).
    pose proof (lookup_lt_Some _ _ _ Hy) as Hylt.
    pose proof (agree_frame _ _ _ _ F Hag) as [L1 O1].
    pose proof (memo_bound_frame _ _ _ _ F Hb) as Hb1.
    assert (∀ a, m1 !! a = Some y → P a) as HP1.
    { intros a Ha. destruct (cf_img _ _ _ _ F _ _ Ha) as [?|?]; [eauto|lia]. }
    eapply IH; [exact Hrec|done| | | |exact HP1|].
    + split; [by rewrite length_insert|].
      intros l Hl. rewrite list_lookup_insert_ne by lia. by apply O1.
    + intros a b Hab. rewrite length_insert. by eapply Hb1.
    + apply list_lookup_insert_eq. by eapply lookup_lt_Some.
    + intros a b Hab HnP.
      destruct (Hdc _ _ _ _ _ _ P Ex Hx Hag Hb Hinv a b Hab HnP)
        as (o & o' & Ho & Ho' & Hrel).
      exists o, o'. split; [done|]. split; [|done].
      rewrite list_lookup_insert_ne; [done|].
      intros <-. apply HnP. by apply HP1.
Qed.

Lemma iso_inv_alloc (P : loc → Prop) (l : loc) (m : memo) (h : heap) o :
  m !! l = None → memo_bound m h → iso_inv h0 P m h →
  iso_inv h0 (λ a, P a ∨ a = l) (<[l := length h]> m) (h ++ [o]).
Proof.
  intros Hl Hb Hinv a b Hab HnP.
  assert (a ≠ l) as Hne by (intros ->; apply HnP; by right).
  rewrite lookup_insert_ne in Hab by done.
  destruct (Hinv a b Hab) as (o1 & o1' & Ho & Ho' & Hrel);
    [intros ?; apply HnP; by left|].
  exists o1, o1'. split; [done|]. split.
  - rewrite lookup_app_l; [done|]. by eapply lookup_lt_Some.
  - eapply orel_mono; [|done]. by apply insert_subseteq.
Qed.

Lemma deepcopy_aux_iso fuel : dc_iso h0 (deepcopy_aux fuel).
Proof.
  induction fuel as [|f IH]; intros x m h x' m' h' P;
    (destruct x as [| | | |l]; simpl; try by intros [= <- <- <-]);
    (destruct (m !! l) as [y|] eqn:Em; [by intros [= <- <- <-]|]);
    [done|].
  destruct (h !! l) as [[items|cls attrs]|] eqn:El; [| |done].
  - destruct (deepcopy_items _ _ _ _ _) as [[m1 h1]|] eqn:E; [|done].
    intros [= <- <- <-] Hx Hag Hb Hinv.
    assert (h0 !! l = Some (OList items)) as El0.
    { destruct Hag as [_ O]. by rewrite <- O. }
    pose proof (closed_old_values _ _ El0) as Hold. simpl in Hold.
    assert (agree h0 (h ++ [OList []])) as Hag1.
    { destruct Hag as [L O]. split; [rewrite length_app; lia|].
      intros l0 Hl0. rewrite lookup_app_l by lia. by apply O. }
    assert (memo_bound (<[l:=length h]> m) (h ++ [OList []])) as Hb1.
    { intros a b. rewrite length_app. simpl.
      destruct (decide (l = a)) as [->|Hne].
      - rewrite lookup_insert_eq. intros [= <-]. lia.
      - rewrite lookup_insert_ne by done. intros Hab. apply Hb in Hab. lia. }
    pose proof (deepcopy_items_frame _ _ _ (deepcopy_aux_frame f)
                  _ _ _ _ [] E (list_lookup_middle _ _ _ _ eq_refl))
      as (L & O & S & I & N & J & ys & Hy & Hrel).
    eapply (deepcopy_items_iso f _ _ IH) with (P := λ a, P a ∨ a = l) in E;
      [|destruct Hag; lia|done|done|done|by apply list_lookup_middle| |].
    + intros a b Hab HnP. destruct (decide (a = l)) as [->|Hne].
      * assert (m1 !! l = Some (length h)) as Hl1.
        { eapply lookup_weaken; [|exact S]. apply lookup_insert_eq. }
        rewrite Hl1 in Hab. injection Hab as <-.
        exists (OList items), (OList ys). by repeat split.
      * apply E; [done|by intros [?|?]].
    + intros a. destruct (decide (l = a)) as [->|Hne]; [by right|].
      rewrite lookup_insert_ne by done. intros Ha. apply Hb in Ha. lia.
    + by apply iso_inv_alloc.
  - destruct (deepcopy_dict _ _ _ _) as [[[st m1] h1]|] eqn:E; [|done].
    intros [= <- <- <-] Hx Hag Hb Hinv.
    assert (h0 !! l = Some (OInst cls attrs)) as El0.
    { destruct Hag as [_ O]. by rewrite <- O. }
    pose proof (closed_old_values _ _ El0) as Hold. simpl in Hold.
    assert (agree h0 (h ++ [OInst cls []])) as Hag1.
    { destruct Hag as [L O]. split; [rewrite length_app; lia|].
      intros l0 Hl0. rewrite lookup_app_l by lia. by apply O. }
    assert (memo_bound (<[l:=length h]> m) (h ++ [OInst cls []])) as Hb1.
    { intros a b. rewrite length_app. simpl.
      destruct (decide (l = a)) as [->|Hne].
      - rewrite lookup_insert_eq. intros [= <-]. lia.
      - rewrite lookup_insert_ne by done. intros Hab. apply Hb in Hab. lia. }
    pose proof (deepcopy_dict_frame _ _ (deepcopy_aux_frame f) _ _ _ _ _ E)
      as [[L O S I N J] Hrel].
    rewrite length_app in L, O, I, N. simpl in L, O, I, N.
    eapply (deepcopy_dict_iso f _ IH) with (P := λ a, P a ∨ a = l) in E;
      [|done|done|done|by apply iso_inv_alloc].
    intros a b Hab HnP. destruct (decide (a = l)) as [->|Hne].
    + assert (m1 !! l = Some (length h)) as Hl1.
      { eapply lookup_weaken; [|exact S]. apply lookup_insert_eq. }
      rewrite Hl1 in Hab. injection Hab as <-.
      exists (OInst cls attrs), (OInst cls st). split; [done|].
      split; [apply list_lookup_insert_eq; lia|]. by split.
    + destruct (E a b Hab) as (o & o' & Ho & Ho' & Hr); [by intros [?|?]|].
      exists o, o'. split; [done|]. split; [|done].
      rewrite list_lookup_insert_ne; [done|]. intros <-.
      destruct (I _ _ Hab) as [H1|H1]; [|lia].
      rewrite lookup_insert_ne in H1 by done. apply Hb in H1. lia.
Qed.

Lemma unmemoised_mono (m m' : memo) :
  m ⊆ m' → size (unmemoised h0 m') ≤ size (unmemoised h0 m).
Proof.
  intros Hsub. apply subseteq_size. unfold unmemoised.
  apply subseteq_dom in Hsub.
  intros x [Hx Hn]%elem_of_difference. apply elem_of_difference.
  split; [done|]. intros Hd. apply Hn. by apply Hsub.
Qed.

Lemma unmemoised_insert (m : memo) (l y : loc) :
  m !! l = None → l < length h0 →
  size (unmemoised h0 (<[l := y]> m)) < size (unmemoised h0 m).
Proof.
  intros Hl Hlt. apply subset_size. unfold unmemoised.
  rewrite dom_insert_L. apply not_elem_of_dom in Hl.
  assert (l ∈ (set_seq 0 (length h0) : gset loc)) as Hin
    by (apply elem_of_set_seq; lia).
  split.
  - intros x [Hx Hn]%elem_of_difference. apply elem_of_difference.
    split; [done|]. intros Hd. apply Hn. apply elem_of_union. by right.
  - intros Hsub. specialize (Hsub l).
    rewrite !elem_of_difference in Hsub. destruct Hsub as [_ Hn]; [done|].
    apply Hn, elem_of_union. left. by apply elem_of_singleton.
Qed.

Lemma unmemoised_none (m : memo) (l : loc) :
  size (unmemoised h0 m) ≤ 0 → l < length h0 → is_Some (m !! l).
Proof.
  intros Hsz Hlt. apply elem_of_dom.
  assert (unmemoised h0 m ≡ ∅) as He by (apply size_empty_inv; lia).
  assert (l ∈ (set_seq 0 (length h0) : gset loc)) as Hin
    by (apply elem_of_set_seq; lia).
  unfold unmemoised in He. destruct (decide (l ∈ dom m)) as [Hd|Hn]; [done|].
  exfalso. apply (not_elem_of_empty (C:=gset loc) l). rewrite <- He.
  by apply elem_of_difference.
Qed.

Lemma agree_insert_new (y : loc) o h :
  length h0 ≤ y → agree h0 h → agree h0 (<[y := o]> h).
Proof.
  intros Hy [L O]. split; [by rewrite length_insert|].
  intros l Hl. rewrite list_lookup_insert_ne by lia. by apply O.
Qed.

Lemma agree_alloc o h : agree h0 h → agree h0 (h ++ [o]).
Proof.
  intros [L O]. split; [rewrite length_app; lia|].
  intros l Hl. rewrite lookup_app_l by lia. by apply O.
Qed.

Lemma deepcopy_items_total f (y : loc) xs :
  dc_total h0 (deepcopy_aux f) f → length h0 ≤ y →
  ∀ m h ys0,
    Forall (old_val h0) xs → agree h0 h → size (unmemoised h0 m) ≤ f →
    h !! y = Some (OList ys0) →
    is_Some (deepcopy_items (deepcopy_aux f) y xs m h).
Proof.
  intros Hdc Hy0. induction xs as [|x xs IH]; intros m h ys0; simpl; [done|].
  intros Hold Hag Hsz Hy. apply Forall_cons in Hold as [Hx Hold].
  destruct (Hdc x m h Hx Hag Hsz) as [[[x' m1] h1] Ex]. rewrite Ex.
  pose proof (deepcopy_aux_frame f _ _ _ _ _ _ Ex) as [F _].
  pose proof (lookup_lt_Some _ _ _ Hy) as Hylt.
  unfold list_append. rewrite (cf_old _ _ _ _ F) by done. rewrite Hy.
  eapply IH; [done| | |].
  - apply agree_insert_new; [done|]. by eapply agree_frame.
  - etrans; [apply unmemoised_mono, (cf_sub _ _ _ _ F)|done].
  - apply list_lookup_insert_eq. pose proof (cf_len _ _ _ _ F). lia.
Qed.

Lemma deepcopy_dict_total f kvs :
  dc_total h0 (deepcopy_aux f) f →
  ∀ m h,
    Forall (old_val h0) kvs.*2 → agree h0 h → size (unmemoised h0 m) ≤ f →
    is_Some (deepcopy_dict (deepcopy_aux f) kvs m h).
Proof.
  intros Hdc. induction kvs as [|[k v] kvs IH]; intros m h; simpl; [done|].
  intros Hold Hag Hsz. apply Forall_cons in Hold as [Hv Hold].
  destruct (Hdc v m h Hv Hag Hsz) as [[[v' m1] h1] Ev]. rewrite Ev.
  pose proof (deepcopy_aux_frame f _ _ _ _ _ _ Ev) as [F _].
  destruct (IH m1 h1) as [[[st m2] h2] Er]; [done|by eapply agree_frame| |].
  - etrans; [apply unmemoised_mono, (cf_sub _ _ _ _ F)|done].
  - by rewrite Er.
Qed.

Lemma deepcopy_aux_total fuel : dc_total h0 (deepcopy_aux fuel) fuel.
Proof.
  induction fuel as [|f IH]; intros x m h Hx Hag Hsz;
    (destruct x as [| | | |l]; simpl; try done);
    (destruct (m !! l) as [y|] eqn:Em; [done|]).
  - destruct (unmemoised_none m l Hsz Hx) as [y Hy]. congruence.
  - destruct Hag as [L O].
    destruct (lookup_lt_is_Some_2 h0 l Hx) as [o Ho].
    rewrite (O l Hx), Ho.
    pose proof (closed_old_values _ _ Ho) as Hold.
    pose proof (unmemoised_insert m l (length h) Em Hx) as Hlt.
    destruct o as [items|cls attrs]; simpl in Hold.
    + destruct (deepcopy_items_total f (length h) items IH L
                  (<[l:=length h]> m) (h ++ [OList []]) [])
        as [[m1 h1] E]; [done|by apply agree_alloc|lia| |by rewrite E].
      by apply list_lookup_middle.
    + destruct (deepcopy_dict_total f attrs IH
                  (<[l:=length h]> m) (h ++ [OInst cls []]))
        as [[[st m1] h1] E]; [done|by apply agree_alloc|lia|by rewrite E].
Qed.

End DeepcopyIso.

(** The copy reads back as the same tree. *)
Section Reify.
Import PyObj.

Lemma deepcopy_ref_spec (h : heap) (x : loc) :
  closed h → x < length h →
  ∃ y m h',
    deepcopy (VRef x) h = Some (VRef y, h') ∧
    m !! x = Some y ∧
    copy_frame ∅ h m h' ∧
    memo_inj m ∧
    ∀ a b, m !! a = Some b →
           ∃ o o', h !! a = Some o ∧ h' !! b = Some o' ∧ orel m o o'.
Proof.
  intros Hc Hx.
  assert (agree h h) as Hag by done.
  destruct (deepcopy_aux_total h Hc (length h) (VRef x) ∅ h)
    as [[[x' m] h'] E]; [done|done| |].
  { unfold unmemoised. rewrite dom_empty_L, difference_empty_L.
    by rewrite size_set_seq. }
  destruct (deepcopy_aux_frame _ _ _ _ _ _ _ E) as [F (y & -> & Hy)].
  exists y, m, h'. unfold deepcopy. rewrite E.
  split; [done|]. split; [done|]. split; [done|]. split.
  - apply (cf_inj _ _ _ _ F); [by intros ??; rewrite lookup_empty|].
    by intros ???; rewrite lookup_empty.
  - intros a b Hab.
    eapply (deepcopy_aux_iso h Hc _ _ _ _ _ _ _ (λ _, False) E); eauto.
    + by intros ??; rewrite lookup_empty.
    + by intros ??; rewrite lookup_empty.
Qed.

Lemma reify_items_transfer (R : value → value → Prop)
    (rf rf' : value → option pytree) (n : nat) xs ys ts :
  Forall2 R xs ys →
  reify_items rf xs = Some ts →
  sum_list (map tree_size ts) < n →
  (∀ v v' t, R v v' → rf v = Some t → tree_size t < n → rf' v' = Some t) →
  reify_items rf' ys = Some ts.
Proof.
  intros HR. revert ts. induction HR as [|x y xs ys Hxy HR IH]; intros ts.
  - done.
  - simpl. destruct (rf x) as [t|] eqn:Ex; [|done].
    destruct (reify_items rf xs) as [ts'|] eqn:Exs; [|done].
    intros [= <-]. simpl. intros Hsz Hrf.
    rewrite (Hrf _ _ _ Hxy Ex) by lia.
    rewrite (IH ts' eq_refl) by (done || lia). done.
Qed.

Lemma reify_dict_transfer (R : value → value → Prop)
    (rf rf' : value → option pytree) (n : nat) kvs kvs' ts :
  Forall2 (λ p q, p.1 = q.1 ∧ R p.2 q.2) kvs kvs' →
  reify_dict rf kvs = Some ts →
  sum_list (map (λ p, tree_size (snd p)) ts) < n →
  (∀ v v' t, R v v' → rf v = Some t → tree_size t < n → rf' v' = Some t) →
  reify_dict rf' kvs' = Some ts.
Proof.
  intros HR. revert ts.
  induction HR as [|[k x] [k' y] xs ys [Hk Hxy] HR IH]; intros ts.
  - done.
  - simpl in Hk, Hxy. subst k'. simpl.
    destruct (rf x) as [t|] eqn:Ex; [|done].
    destruct (reify_dict rf xs) as [ts'|] eqn:Exs; [|done].
    intros [= <-]. simpl. intros Hsz Hrf.
    rewrite (Hrf _ _ _ Hxy Ex) by lia.
    rewrite (IH ts' eq_refl) by (done || lia). done.
Qed.

Lemma Forall2_eq_refl {A} (l : list A) : Forall2 eq l l.
Proof. induction l; constructor; done. Qed.

Lemma Forall2_kv_refl (l : list (string * value)) :
  Forall2 (λ p q, p.1 = q.1 ∧ p.2 = q.2) l l.
Proof. induction l; constructor; done. Qed.

(** More fuel never changes a tree that was already read. *)
Lemma reify_mono (h : heap) f : ∀ f' v t,
  reify f h v = Some t → f ≤ f' → reify f' h v = Some t.
Proof.
  induction f as [|f IH]; intros f' v t;
    (destruct v as [| | | |l]; simpl; intros Hr Hle;
     try done; try (by destruct f')).
  destruct f' as [|f']; [lia|]. simpl.
  destruct (h !! l) as [[items|cls attrs]|]; [| |done].
  - destruct (reify_items (reify f h) items) as [ts|] eqn:E; [|done].
    erewrite (reify_items_transfer eq _ _ (S (sum_list (map tree_size ts))));
      [done|apply Forall2_eq_refl|exact E|lia|].
    intros v v' t' <- Hv _. apply IH; [done|lia].
  - destruct (reify_dict (reify f h) attrs) as [ts|] eqn:E; [|done].
    erewrite (reify_dict_transfer eq _ _
                (S (sum_list (map (λ p, tree_size (snd p)) ts))));
      [done|apply Forall2_kv_refl|exact E|lia|].
    intros v v' t' <- Hv _. apply IH; [done|lia].
Qed.

Lemma reify_det (h : heap) f f' v t t' :
  reify f h v = Some t → reify f' h v = Some t' → t = t'.
Proof.
  intros H1 H2.
  apply (reify_mono _ _ (f `max` f')) in H1; [|lia].
  apply (reify_mono _ _ (f `max` f')) in H2; [|lia].
  congruence.
Qed.

Lemma reify_atom f (h : heap) v : is_atom v → reify f h v = Some (TAtom v).
Proof. by destruct v, f. Qed.

Lemma reify_dict_set (rf : value → option pytree) k v tv st ts :
  reify_dict rf st = Some ts → rf v = Some tv →
  reify_dict rf (dict_set k v st) = Some (dict_set k tv ts).
Proof.
  intros Hst Hv. revert ts Hst.
  induction st as [|[k' v'] st IH]; intros ts; simpl.
  - intros [= <-]. by rewrite Hv.
  - destruct (rf v') as [t'|] eqn:Ev'; [|done].
    destruct (reify_dict rf st) as [ts'|] eqn:Est; [|done].
    intros [= <-]. simpl. case_decide.
    + simpl. by rewrite Hv, Est.
    + simpl. by rewrite Ev', (IH ts' eq_refl).
Qed.

Lemma dict_set_values {A} k (a : A) d v :
  v ∈ (dict_set k a d).*2 → v = a ∨ v ∈ d.*2.
Proof.
  induction d as [|[k' v'] d IH]; simpl.
  - intros ->%list_elem_of_singleton. by left.
  - case_decide; simpl; rewrite !elem_of_cons.
    + intros [?|?]; [by left|right; by right].
    + intros [?|Hv]; [right; by left|].
      destruct (IH Hv) as [?|?]; [by left|right; by right].
Qed.

(** Reading the copy of the root, one of whose attributes has been
    rebound to an atom, while every other copied object is as the memo
    relates it. *)
Section Transfer.
Variables (h0 hN : heap) (m : memo) (x : loc) (t0 : pytree) (F : nat).
Hypothesis Hroot : reify F h0 (VRef x) = Some t0.
Hypothesis Hiso : ∀ a b, m !! a = Some b → a ≠ x →
  ∃ o o', h0 !! a = Some o ∧ hN !! b = Some o' ∧ orel m o o'.

Lemma reify_transfer g : ∀ v v' t,
  reify g h0 v = Some t → tree_size t < tree_size t0 → vrel m v v' →
  reify g hN v' = Some t.
Proof.
  induction g as [|g IH]; intros v v' t Hr Hsz Hv;
    (destruct v as [| | | |a]; simpl in Hv; [by subst..|]); [done|].
  destruct Hv as (b & -> & Hb). destruct (decide (a = x)) as [->|Hne].
  { pose proof (reify_det _ _ _ _ _ _ Hr Hroot). subst. lia. }
  destruct (Hiso a b Hb Hne) as (o & o' & Ho & Ho' & Hrel).
  simpl in Hr |- *. rewrite Ho in Hr. rewrite Ho'.
  destruct o as [xs|c kvs], o' as [ys|c' kvs']; simpl in Hrel; try done.
  - destruct (reify_items (reify g h0) xs) as [ts|] eqn:E; [|done].
    simpl in Hr. injection Hr as <-. simpl in Hsz.
    erewrite (reify_items_transfer (vrel m) _ _ (tree_size t0));
      [done|exact Hrel|exact E|lia|].
    intros v1 v1' t1 H1 H2 H3. by apply (IH v1).
  - destruct Hrel as [<- Hrel].
    destruct (reify_dict (reify g h0) kvs) as [ts|] eqn:E; [|done].
    simpl in Hr. injection Hr as <-. simpl in Hsz.
    erewrite (reify_dict_transfer (vrel m) _ _ (tree_size t0));
      [done|exact Hrel|exact E|lia|].
    intros v1 v1' t1 H1 H2 H3. by apply (IH v1).
Qed.

Lemma reify_root cls attrs (y : loc) st k v :
  h0 !! x = Some (OInst cls attrs) →
  hN !! y = Some (OInst cls (dict_set k v st)) →
  Forall2 (kvrel m) attrs st → is_atom v →
  reify F hN (VRef y) = Some (tree_setattr k (TAtom v) t0).
Proof.
  intros Hx Hy Hrel Hv. pose proof Hroot as Hr.
  assert (∃ F', F = S F') as [F' HF].
  { clear Hiso. destruct F; [done|eauto]. }
  rewrite HF in Hr |- *. simpl in Hr |- *. rewrite Hx in Hr. rewrite Hy.
  destruct (reify_dict (reify F' h0) attrs) as [ts|] eqn:E; [|done].
  simpl in Hr. injection Hr as Hr.
  erewrite reify_dict_set; [by rewrite <- Hr| |by apply reify_atom].
  eapply (reify_dict_transfer (vrel m) _ _ (tree_size t0));
    [exact Hrel|exact E|rewrite <- Hr; simpl; lia|].
  intros v1 v1' t1 H1 H2 H3. by apply (reify_transfer F' v1).
Qed.

End Transfer.

End Reify.

(** ** Facts about the runs of the translator *)

Section RunFacts.
Import PyObj Ast Static.
Context `{Collaborators}.
Local Open Scope py_scope.

Lemma upd_upd w h1 es1 h2 es2 :
  upd (upd w h1 es1) h2 es2 = upd w h2 (es1 ++ es2).
Proof. unfold upd. simpl. by rewrite app_assoc. Qed.

Lemma upd_nil w : upd w (w_heap w) [] = w.
Proof. destruct w. unfold upd. simpl. by rewrite app_nil_r. Qed.

Lemma for_fold_app {A S} (xs ys : list A) (s : S) body w :
  for_fold (xs ++ ys) s body w =
  (let* s' := for_fold xs s body in for_fold ys s' body) w.
Proof.
  revert s w. induction xs as [|x xs IH]; intros s w; simpl; [done|].
  unfold bind. destruct (body s x w) as [[s'| |] w']; simpl; [|done..].
  by rewrite IH.
Qed.

Lemma run_pass_app sp σ xs ys :
  run_pass sp σ (xs ++ ys) =
  ((run_pass sp σ xs).1 ++ (run_pass (run_pass sp σ xs).2 σ ys).1,
   (run_pass (run_pass sp σ xs).2 σ ys).2).
Proof.
  revert sp. induction xs as [|x xs IH]; intros sp; simpl.
  - by destruct (run_pass sp σ ys).
  - rewrite IH. simpl. by rewrite app_assoc.
Qed.

Lemma check_bodies_run bodies : ∀ sp acc w,
  for_fold bodies (sp, acc) check_body w =
  (Return ((run_pass sp (w_parents w) bodies).2,
           acc ++ (run_pass sp (w_parents w) bodies).1),
   upd w (w_heap w) (map EvSymbolsPass bodies)).
Proof.
  induction bodies as [|b bodies IH]; intros sp acc w; simpl.
  - by rewrite app_nil_r, upd_nil.
  - unfold bind at 1. simpl. rewrite IH. simpl.
    unfold upd. simpl. by rewrite <- !app_assoc.
Qed.

Lemma print_all_run lines w :
  for_fold lines tt (λ _ error, print error) w =
  (Return tt, upd w (w_heap w) (map EvPrint lines)).
Proof.
  revert w. induction lines as [|l lines IH]; intros w; simpl.
  - by rewrite upd_nil.
  - unfold bind at 1. simpl. rewrite IH. unfold upd. simpl.
    by rewrite <- app_assoc.
Qed.

(** *** Linking and extraction *)

Lemma link_loop_run cs : ∀ w,
  for_fold cs tt (λ _ c, add_parent_refs (AST c) ;; ret tt) w =
  (Return tt,
   {| w_self := w_self w;
      w_parents := link_store (w_parents w) (map AST cs);
      w_heap := w_heap w;
      w_log := w_log w ++ map EvAddParentRefs (map AST cs) |}).
Proof.
  induction cs as [|c cs IH]; intros w; simpl.
  - rewrite app_nil_r. by destruct w.
  - unfold bind at 1. simpl. rewrite IH. simpl. by rewrite <- app_assoc.
Qed.

Lemma translate_eq entity classtypes w :
  translate entity classtypes w =
  (check_symbols classtypes (path entity) ;; after_symbols entity classtypes)
    (linked entity classtypes w).
Proof.
  unfold translate. unfold bind at 1. simpl.
  unfold bind at 1. simpl.
  unfold bind at 1. rewrite link_loop_run. simpl.
  unfold bind at 1. simpl. unfold bind at 1. simpl. unfold bind at 1. simpl.
  unfold linked. simpl. rewrite <- !app_assoc. reflexivity.
Qed.

(** *** Symbol validation *)

Lemma check_symbols_run classtypes path w members import :
  bound w members import →
  let errors := diagnostics (SymbolsPass_new members import path)
                  (w_parents w) (symbol_bodies members classtypes) in
  check_symbols classtypes path w =
  (match errors with [] => Return tt | _ :: _ => SysExit None end,
   upd w (w_heap w)
     (EvCheckSymbols :: map EvSymbolsPass (symbol_bodies members classtypes) ++
      map EvPrint errors)).
Proof.
  intros [Hm Hi]. simpl.
  unfold check_symbols, get_pk_members, get_pk_import.
  unfold bind at 1. simpl. unfold bind at 1. unfold bind at 1. simpl.
  rewrite Hm. simpl. unfold bind at 1. unfold bind at 1. simpl.
  rewrite Hi. simpl.
  do 4 (unfold bind at 1; rewrite check_bodies_run; simpl).
  unfold diagnostics, symbol_bodies. rewrite !run_pass_app. simpl.
  rewrite <- !app_assoc.
  match goal with
  | |- context [match ?e with [] => ret () | _ => _ end _] =>
      generalize e
  end.
  intros [|e errors].
  - unfold ret, upd. simpl. rewrite !map_app, <- ?app_assoc, ?app_nil_r.
    simpl. by rewrite <- ?app_assoc.
  - unfold bind. rewrite print_all_run. unfold sys_exit, upd. simpl.
    rewrite !map_app, <- ?app_assoc. simpl. by rewrite <- ?app_assoc.
Qed.

(** *** Assembly, bindings and serialization *)

Lemma serialize_all_run cts : ∀ acc w,
  for_fold cts acc (λ acc c, let* s := serialize c in ret (acc ++ [s])) w =
  (Return (acc ++ map (Serializer_serialize (w_heap w)) cts),
   upd w (w_heap w) (map EvSerialize cts)).
Proof.
  induction cts as [|c cts IH]; intros acc w; simpl.
  - by rewrite app_nil_r, upd_nil.
  - unfold bind at 1. simpl. rewrite IH. simpl.
    unfold upd. simpl. by rewrite <- !app_assoc.
Qed.

Lemma assemble_functor_run functor_name workunits functions w members import :
  bound w members import →
  let r := generate_functor functor_name members workunits functions (w_heap w) in
  assemble_functor functor_name workunits functions w =
  (Return r.1, upd w r.2 [EvGenerateFunctor]).
Proof.
  intros [Hm Hi]. cbv zeta.
  unfold assemble_functor, get_pk_members, bind, get_self, get_heap, set_heap,
    emit, ret. cbn. rewrite Hm. cbn.
  by destruct (generate_functor _ _ _ _ _) as [struct h1].
Qed.

Lemma generate_bindings_run entity functor_name source workunits w members
    import :
  bound w members import →
  generate_bindings entity functor_name source workunits w =
  (Return (bindings_of entity functor_name source workunits (w_self w)
             members import (w_heap w)),
   upd w (w_heap w) [EvGenerateBindings]).
Proof.
  intros [Hm Hi].
  unfold generate_bindings, bindings_of, get_pk_members, get_pk_import, bind,
    get_self, get_heap, emit, ret. cbn.
  destruct (decide (style entity = workload)); cbn; rewrite Hm; cbn;
    rewrite ?Hi; done.
Qed.

Lemma after_workunits_run entity functor_name source cts functions workunits
    w members import :
  bound w members import →
  let r := generate_functor functor_name members workunits functions (w_heap w) in
  after_workunits entity functor_name source cts functions workunits w =
  (Return
     (generate_header :: map (Serializer_serialize r.2) cts ++
        [Serializer_serialize r.2 r.1],
      generate_header :: generate_includes (w_self w) ::
        bindings_of entity functor_name source workunits (w_self w)
          members import r.2),
   upd w r.2
     ([EvGenerateFunctor; EvGenerateBindings] ++ map EvSerialize cts ++
      [EvSerialize r.1])).
Proof.
  intros Hb. cbv zeta. unfold after_workunits.
  unfold bind at 1. rewrite (assemble_functor_run _ _ _ _ _ _ Hb). cbv zeta.
  destruct (generate_functor _ _ _ _ _) as [struct h1]. cbn [fst snd].
  unfold bind at 1.
  rewrite (generate_bindings_run _ _ _ _ _ members import) by done.
  unfold bind at 1. rewrite serialize_all_run.
  unfold bind, serialize, emit, get_heap, get_self, ret, upd. cbn.
  by rewrite <- !app_assoc.
Qed.

(** *** The three translation steps *)

Lemma clone_declaration_run f w :
  clone_declaration f w =
  match deepcopy f (w_heap w) with
  | Some (d, h2) =>
      match setattr d "is_definition" (VBool false) h2 with
      | Some h3 => (Return d, upd w h3 [EvDeepcopy f])
      | None => (Raised, upd w h2 [EvDeepcopy f])
      end
  | None => (Raised, upd w (w_heap w) [EvDeepcopy f])
  end.
Proof.
  unfold clone_declaration, copy_deepcopy, py_setattr, bind, get_heap,
    set_heap, emit, ret, raise. simpl.
  destruct (deepcopy f (w_heap w)) as [[d h2]|]; simpl; [|done].
  by destruct (setattr d _ _ h2).
Qed.

Lemma translate_classtype_run ds0 fs0 c w members import :
  bound w members import →
  ∃ o h es,
    translate_classtype (ds0, fs0) c w = (o, upd w h es) ∧
    Forall (in_stage TranslateClasstypes) es ∧
    match o with
    | Return st => ∃ d f, st = (ds0 ++ [d], fs0 ++ [f]) ∧ translated c d f
    | SysExit _ => False
    | Raised => True
    end.
Proof.
  intros [Hm Hi].
  unfold translate_classtype, get_pk_members, get_pk_import, classtype_visit.
  unfold bind at 1. unfold bind at 1. simpl. rewrite Hm. simpl.
  unfold bind at 1. unfold bind at 1. simpl. rewrite Hi. simpl.
  unfold bind at 1. unfold bind at 1. simpl.
  unfold bind at 1. simpl. unfold bind at 1. simpl.
  destruct (ClasstypeVisitor_visit _ _ _ _) as [f h1] eqn:Ev. simpl.
  unfold bind at 1. simpl.
  match goal with
  | |- context [clone_declaration f ?w1] =>
      pose proof (clone_declaration_run f w1) as E; simpl in E
  end.
  destruct (deepcopy f h1) as [[d h2]|];
    [destruct (setattr d _ _ h2) as [h3|]|]; rewrite E; simpl.
  - eexists _, _, _. split; [run_world|].
    split; [by repeat constructor|].
    exists d, f. split; [done|]. split; [|eexists _, _; exact E].
    eexists _, _, _. by rewrite Ev.
  - eexists _, _, _. split; [run_world|]. split; [by repeat constructor|done].
  - eexists _, _, _. split; [run_world|]. split; [by repeat constructor|done].
Qed.

Lemma for_fold_cons {A S} (x : A) xs (s : S) body w :
  for_fold (x :: xs) s body w =
  bind (body s x) (λ s', for_fold xs s' body) w.
Proof. done. Qed.

Lemma bound_upd w h es members import :
  bound w members import → bound (upd w h es) members import.
Proof. done. Qed.

Lemma classtypes_loop_run cs members import : ∀ ds0 fs0 w,
  bound w members import →
  ∃ o h es,
    for_fold cs (ds0, fs0) translate_classtype w = (o, upd w h es) ∧
    Forall (in_stage TranslateClasstypes) es ∧
    match o with
    | Return st =>
        ∃ ds fs, st = (ds0 ++ ds, fs0 ++ fs) ∧ length ds = length cs ∧
                 Forall3 translated cs ds fs
    | SysExit _ => False
    | Raised => True
    end.
Proof.
  induction cs as [|c cs IH]; intros ds0 fs0 w Hb.
  - exists (Return (ds0, fs0)), (w_heap w), []. rewrite upd_nil.
    split; [done|]. split; [done|]. exists [], []. rewrite !app_nil_r.
    split; [done|]. split; [done|constructor].
  - destruct (translate_classtype_run ds0 fs0 c w _ _ Hb)
      as (o & h & es & Hc & HP & Ho).
    rewrite for_fold_cons. unfold bind. rewrite Hc.
    destruct o as [st| |]; [|done|].
    + destruct Ho as (d & f & -> & Hdf).
      destruct (IH (ds0 ++ [d]) (fs0 ++ [f]) (upd w h es))
        as (o' & h' & es' & Hr & HP' & Ho'); [done|].
      exists o', h', (es ++ es'). rewrite Hr, upd_upd.
      split; [done|]. split; [by apply Forall_app|].
      destruct o' as [st'| |]; [|done..].
      destruct Ho' as (ds & fs & -> & Hlen & Hall).
      exists (d :: ds), (f :: fs). rewrite <- !app_assoc. simpl.
      split; [done|]. split; [by rewrite Hlen|by constructor].
    + by exists Raised, h, es.
Qed.

Lemma translate_classtypes_run cs w members import :
  bound w members import →
  ∃ o h es,
    translate_classtypes cs w = (o, upd w h (EvTranslateClasstypes :: es)) ∧
    Forall (in_stage TranslateClasstypes) es ∧
    match o with
    | Return cts =>
        ∃ ds fs, cts = ds ++ fs ∧ length ds = length cs ∧
                 Forall3 translated cs ds fs
    | SysExit _ => False
    | Raised => True
    end.
Proof.
  intros Hb. unfold translate_classtypes. unfold bind at 1. simpl.
  match goal with
  | |- context [bind _ _ ?w1] =>
      destruct (classtypes_loop_run cs members import [] [] w1)
        as (o & h & es & Hr & HP & Ho); [done|]
  end.
  unfold bind. rewrite Hr. exists (match o with
                                   | Return st => Return (st.1 ++ st.2)
                                   | SysExit a => SysExit a
                                   | Raised => Raised
                                   end), h, es.
  destruct o as [st| |]; [|done|].
  - destruct Ho as (ds & fs & -> & Hlen & Hall). simpl.
    split; [run_world|]. split; [done|]. by exists ds, fs.
  - split; [run_world|]. done.
Qed.

Lemma translate_function_run nv tr f w :
  translate_function (nv, tr) f w =
  let r := KokkosFunctionVisitor_visit nv (w_parents w) f (w_heap w) in
  (Return (r.1.2, tr ++ [r.1.1]), upd w r.2 [EvFunctionVisit f]).
Proof.
  unfold translate_function, function_visit, bind, get_parents, get_heap,
    set_heap, emit, ret. simpl.
  by destruct (KokkosFunctionVisitor_visit _ _ _ _) as [[m nv'] h1].
Qed.

Lemma functions_loop_run fs : ∀ st w,
  ∃ st' h,
    for_fold fs st translate_function w =
    (Return st', upd w h (map EvFunctionVisit fs)).
Proof.
  induction fs as [|f fs IH]; intros [nv tr] w.
  - exists (nv, tr), (w_heap w). by rewrite upd_nil.
  - rewrite for_fold_cons. unfold bind. rewrite translate_function_run.
    simpl.
    match goal with
    | |- context [for_fold fs ?st1 _ ?w1] =>
        destruct (IH st1 w1) as (st' & h' & Hr)
    end.
    rewrite Hr. exists st', h'. by rewrite upd_upd.
Qed.

Lemma translate_functions_run source w members import :
  bound w members import →
  ∃ fns h,
    translate_functions source w =
    (Return fns,
     upd w h (EvTranslateFunctions ::
              map EvFunctionVisit (values (pk_functions members)))).
Proof.
  intros [Hm Hi]. unfold translate_functions, get_pk_members, get_pk_import.
  unfold bind at 1. simpl. unfold bind at 1. unfold bind at 1. simpl.
  rewrite Hm. simpl. unfold bind at 1. unfold bind at 1. simpl.
  rewrite Hi. simpl.
  match goal with
  | |- context [for_fold ?fs ?st1 _] =>
      unfold bind at 1;
      match goal with
      | |- context [for_fold fs st1 _ ?w1] =>
          destruct (functions_loop_run fs st1 w1) as (st' & h' & Hr)
      end
  end.
  rewrite Hr. exists st'.2, h'. run_world.
Qed.

Lemma translate_workunit_run nv wus n a w :
  translate_workunit (nv, wus) (n, a) w =
  match WorkunitVisitor_visit nv (w_parents w) a (w_heap w) with
  | Some (r, nv', h') =>
      (Return (nv', dict_set n r wus), upd w h' [EvWorkunitVisit a])
  | None =>
      (SysExit (Some 1%Z),
       upd w (w_heap w) [EvWorkunitVisit a; EvPrint (failure_message a)])
  end.
Proof.
  unfold translate_workunit, workunit_visit, print, sys_exit, bind,
    get_parents, get_heap, set_heap, emit, ret. simpl.
  destruct (WorkunitVisitor_visit _ _ _ _) as [[[r nv'] h']|]; simpl.
  - done.
  - unfold upd. simpl. by rewrite <- app_assoc.
Qed.

Lemma workunits_loop_run items : ∀ st w,
  ∃ o h es,
    for_fold items st translate_workunit w = (o, upd w h es) ∧
    match o with
    | Return _ => es = map EvWorkunitVisit (values items)
    | SysExit arg =>
        arg = Some 1%Z ∧
        ∃ pre a post,
          values items = pre ++ a :: post ∧
          es = map EvWorkunitVisit (pre ++ [a]) ++ [EvPrint (failure_message a)]
    | Raised => False
    end.
Proof.
  induction items as [|[n a] items IH]; intros [nv wus] w.
  - exists (Return (nv, wus)), (w_heap w), []. by rewrite upd_nil.
  - rewrite for_fold_cons. unfold bind. rewrite translate_workunit_run.
    destruct (WorkunitVisitor_visit _ _ _ _) as [[[r nv'] h']|].
    + destruct (IH (nv', dict_set n r wus) (upd w h' [EvWorkunitVisit a]))
        as (o & h & es & Hr & Ho).
      exists o, h, (EvWorkunitVisit a :: es). rewrite Hr, upd_upd.
      split; [done|]. destruct o as [st|arg|]; [by rewrite Ho| |done].
      destruct Ho as (-> & pre & b & post & Hv & ->). split; [done|].
      exists (a :: pre), b, post. split; [|done].
      unfold values in *. simpl. by f_equal.
    + eexists (SysExit (Some 1%Z)), _, _. split; [done|]. split; [done|].
      by exists [], a, (values items).
Qed.

Lemma translate_workunits_run source w members import :
  bound w members import →
  ∃ o h es,
    translate_workunits source w =
    (o, upd w h (EvTranslateWorkunits :: es)) ∧
    match o with
    | Return _ => es = map EvWorkunitVisit (values (pk_workunits members))
    | SysExit arg =>
        arg = Some 1%Z ∧
        ∃ pre a post,
          values (pk_workunits members) = pre ++ a :: post ∧
          es = map EvWorkunitVisit (pre ++ [a]) ++ [EvPrint (failure_message a)]
    | Raised => False
    end.
Proof.
  intros [Hm Hi]. unfold translate_workunits, get_pk_members, get_pk_import.
  unfold bind at 1. simpl. unfold bind at 1. unfold bind at 1. simpl.
  rewrite Hm. simpl. unfold bind at 1. unfold bind at 1. simpl.
  rewrite Hi. simpl. unfold bind at 1.
  match goal with
  | |- context [for_fold ?items ?st1 _ ?w1] =>
      destruct (workunits_loop_run items st1 w1) as (o & h & es & Hr & Ho)
  end.
  rewrite Hr.
  exists (match o with
          | Return st => Return st.2
          | SysExit a => SysExit a
          | Raised => Raised
          end), h, es.
  destruct o as [st|arg|]; (split; [run_world|done]).
Qed.

(** *** Every run of [translate] *)

Lemma run_case_eq entity classtypes w o w1 w2 :
  run_case entity classtypes w o w1 → w1 = w2 →
  run_case entity classtypes w o w2.
Proof. by intros ? <-. Qed.

Lemma linked_bound entity classtypes w :
  bound (linked entity classtypes w) (run_members entity classtypes w)
        (pk_import entity).
Proof. done. Qed.

Lemma translate_run_case entity classtypes w :
  run_case entity classtypes w (translate entity classtypes w).1
    (translate entity classtypes w).2.
Proof.
  cut (∃ o w', translate entity classtypes w = (o, w') ∧
               run_case entity classtypes w o w').
  { by intros (o & w' & -> & Hr). }
  rewrite translate_eq. unfold bind at 1.
  pose proof (linked_bound entity classtypes w) as Hb.
  rewrite (check_symbols_run _ _ _ _ _ Hb).
  change (diagnostics _ _ _) with (run_errors entity classtypes w).
  change (EvCheckSymbols :: _ ++ map EvPrint (run_errors entity classtypes w))
    with (check_events entity classtypes w).
  set (w0 := linked entity classtypes w) in *.
  change (w_heap w0) with (w_heap w).
  destruct (run_errors entity classtypes w) as [|e errors] eqn:Herr.
  2: { eexists _, _. split; [done|]. apply run_symbols_fail. by rewrite Herr. }
  unfold after_symbols.
  set (w1 := upd w0 (w_heap w) (check_events entity classtypes w)).
  assert (bound w1 (run_members entity classtypes w) (pk_import entity))
    as Hb1 by done.
  destruct (translate_classtypes_run classtypes w1 _ _ Hb1)
    as (o & h & es & Hc & HP & Ho).
  unfold bind at 1. rewrite Hc. destruct o as [cts| |]; [|done|].
  2: { eexists _, _. split; [done|]. unfold w1. rewrite upd_upd.
       by apply run_classtypes_raise. }
  destruct Ho as (ds & fs & -> & Hlen & Hall).
  set (w2 := upd w1 h (EvTranslateClasstypes :: es)).
  destruct (translate_functions_run (source entity) w2 _ _ Hb1)
    as (fns & h2 & Hf).
  unfold bind at 1. rewrite Hf.
  set (w3 := upd w2 h2 _).
  destruct (translate_workunits_run (source entity) w3 _ _ Hb1)
    as (o & h3 & es3 & Hw & Ho).
  unfold bind at 1. rewrite Hw. destruct o as [wus|arg|]; [| |done].
  - rewrite (after_workunits_run _ _ _ _ _ _ (upd w3 h3 _) _ _ Hb1). simpl.
    eexists _, _. split; [done|].
    subst es3. unfold w3, w2, w1. rewrite !upd_upd.
    eapply run_case_eq; [by eapply (run_success _ _ _ _ es ds fs)|]. simpl.
    unfold upd, function_events; simpl; rewrite <- ?app_assoc; simpl;
      by rewrite <- ?app_assoc.
  - destruct Ho as (-> & pre & a & post & Hv & ->).
    eexists _, _. split; [done|].
    unfold w3, w2, w1. rewrite !upd_upd.
    eapply run_case_eq; [by eapply (run_workunits_fail _ _ _ _ es pre a post)|].
    unfold upd, function_events; simpl; rewrite <- ?app_assoc; simpl;
      by rewrite <- ?app_assoc.
Qed.

(** *** The order of the steps *)

Lemma squash_cons_cons s s' l :
  squash (s :: s' :: l) =
  if decide (s = s') then squash (s' :: l) else s :: squash (s' :: l).
Proof. done. Qed.

Lemma squash_head l : head (squash l) = head l.
Proof.
  induction l as [|s l IH]; [done|].
  destruct l as [|s' l]; [done|]. rewrite squash_cons_cons.
  case_decide; [|done]. rewrite IH. by subst.
Qed.

Lemma squash_block s es rest :
  Forall (in_stage_or_print s) es →
  squash (s :: omap stage_of es ++ rest) = squash (s :: rest).
Proof.
  induction 1 as [|e es [He|He] _ IH]; [done|..];
    cbn [omap list_omap]; rewrite He; [|done].
  rewrite <- app_comm_cons, squash_cons_cons. by rewrite decide_True.
Qed.

Lemma block_stages s es rest :
  block s es → head (stages rest) ≠ Some s →
  stages (es ++ rest) = s :: stages rest.
Proof.
  intros (e & es' & -> & He & Hes) Hrest. unfold stages in *. simpl.
  cbn [omap list_omap]. rewrite He, omap_app, squash_block by done.
  rewrite squash_head in Hrest.
  destruct (omap stage_of rest) as [|s' l]; [done|].
  rewrite squash_cons_cons, decide_False; [done|]. intros ->. by apply Hrest.
Qed.

Lemma stages_chain (bs : list (stage * list event)) :
  Forall (λ b, block b.1 b.2) bs → NoDup bs.*1 →
  stages (concat bs.*2) = bs.*1.
Proof.
  induction 1 as [|[s es] bs Hb Hbs IH]; [done|].
  intros [Hs Hnd]%NoDup_cons. simpl in Hb.
  change (stages (es ++ concat bs.*2) = s :: bs.*1).
  rewrite (block_stages s es (concat bs.*2) Hb).
  - by rewrite IH.
  - rewrite IH by done. destruct bs as [|[s' es'] bs']; simpl; [done|].
    intros [= ->]. apply Hs. simpl. by left.
Qed.

Lemma block_intro s e es :
  in_stage s e → Forall (in_stage_or_print s) es → block s (e :: es).
Proof. intros. by exists e, es. Qed.

Lemma Forall_stage_map {A} s (f : A → event) l :
  (∀ a, in_stage_or_print s (f a)) → Forall (in_stage_or_print s) (map f l).
Proof. intros Hf. apply Forall_forall. intros e (a & -> & _)%list_elem_of_fmap. apply Hf. Qed.

Lemma Forall_stage_weaken s es :
  Forall (in_stage s) es → Forall (in_stage_or_print s) es.
Proof. intros Hes. eapply Forall_impl; [exact Hes|]. intros e He. by left. Qed.

Lemma serialize_block cts struct :
  block Serialize (map EvSerialize cts ++ [EvSerialize struct]).
Proof.
  destruct cts as [|c cts]; simpl.
  - by apply block_intro.
  - apply block_intro; [done|]. apply Forall_app. split.
    + apply Forall_stage_map. by left.
    + apply Forall_singleton. by left.
Qed.

Lemma link_block entity classtypes :
  block LinkParents (map EvAddParentRefs (AST entity :: map AST classtypes)).
Proof. apply block_intro; [done|]. apply Forall_stage_map. by left. Qed.

Lemma check_block entity classtypes w :
  block ValidateSymbols (check_events entity classtypes w).
Proof.
  apply block_intro; [done|]. apply Forall_app. split.
  - apply Forall_stage_map. by left.
  - apply Forall_stage_map. by right.
Qed.

Lemma function_block entity classtypes w :
  block TranslateFunctions (function_events entity classtypes w).
Proof. apply block_intro; [done|]. apply Forall_stage_map. by left. Qed.

Lemma run_case_stages entity classtypes w o w' :
  run_case entity classtypes w o w' →
  ∃ es, new_events w w' es ∧
        stages es =
        match o with
        | Return _ => pipeline
        | SysExit None => take 3 pipeline
        | SysExit (Some _) => take 6 pipeline
        | Raised => take 4 pipeline
        end.
Proof.
  pose proof (link_block entity classtypes) as B1.
  pose proof (check_block entity classtypes w) as B3.
  pose proof (function_block entity classtypes w) as B5.
  assert (block ExtractMembers [EvExtract]) as B2 by by apply block_intro.
  set (ev_link := map EvAddParentRefs (AST entity :: map AST classtypes)).
  set (ev_check := check_events entity classtypes w).
  set (ev_fun := function_events entity classtypes w).
  assert (∀ h es, w_log (upd (linked entity classtypes w) h es) =
                  w_log w ++ ev_link ++ [EvExtract] ++ es) as Hlog.
  { intros h es. unfold upd, linked. cbn [w_log]. by rewrite <- !app_assoc. }
  intros [Herr|h es Herr Hes|h es pre a post Herr Hes Hv
               |h es ds fs fns wus Herr Hes Hlen Hall r].
  - exists (concat [ev_link; [EvExtract]; ev_check]). split.
    { unfold new_events. rewrite Hlog. simpl. by rewrite ?app_nil_r. }
    apply (stages_chain [(LinkParents, _); (ExtractMembers, _);
                         (ValidateSymbols, _)]);
      [|by apply (bool_decide_unpack _)].
    by repeat constructor.
  - exists (concat [ev_link; [EvExtract]; ev_check;
                    EvTranslateClasstypes :: es]). split.
    { unfold new_events. rewrite Hlog. simpl. by rewrite ?app_nil_r. }
    apply (stages_chain [(LinkParents, _); (ExtractMembers, _);
                         (ValidateSymbols, _); (TranslateClasstypes, _)]);
      [|by apply (bool_decide_unpack _)].
    repeat constructor; try done.
    apply block_intro; [done|]. by apply Forall_stage_weaken.
  - exists (concat [ev_link; [EvExtract]; ev_check;
                    EvTranslateClasstypes :: es; ev_fun;
                    EvTranslateWorkunits :: map EvWorkunitVisit (pre ++ [a]) ++
                      [EvPrint (failure_message a)]]). split.
    { unfold new_events. rewrite Hlog. simpl.
      by rewrite ?app_nil_r, <- ?app_assoc. }
    apply (stages_chain [(LinkParents, _); (ExtractMembers, _);
                         (ValidateSymbols, _); (TranslateClasstypes, _);
                         (TranslateFunctions, _); (TranslateWorkunits, _)]);
      [|by apply (bool_decide_unpack _)].
    repeat constructor; try done.
    + apply block_intro; [done|]. by apply Forall_stage_weaken.
    + apply block_intro; [done|]. apply Forall_app. split.
      * apply Forall_stage_map. by left.
      * apply Forall_singleton. by right.
  - exists (concat [ev_link; [EvExtract]; ev_check;
                    EvTranslateClasstypes :: es; ev_fun;
                    EvTranslateWorkunits ::
                      map EvWorkunitVisit
                        (values (pk_workunits
                                   (run_members entity classtypes w)));
                    [EvGenerateFunctor]; [EvGenerateBindings];
                    map EvSerialize (ds ++ fs) ++ [EvSerialize r.1]]).
    split.
    { unfold new_events. rewrite Hlog. simpl.
      by rewrite ?app_nil_r, <- ?app_assoc. }
    apply (stages_chain [(LinkParents, _); (ExtractMembers, _);
                         (ValidateSymbols, _); (TranslateClasstypes, _);
                         (TranslateFunctions, _); (TranslateWorkunits, _);
                         (AssembleFunctor, _); (GenerateBindings, _);
                         (Serialize, _)]);
      [|by apply (bool_decide_unpack _)].
    repeat constructor; try done.
    + apply block_intro; [done|]. by apply Forall_stage_weaken.
    + apply block_intro; [done|]. apply Forall_stage_map. by left.
    + by apply block_intro.
    + by apply block_intro.
    + apply serialize_block.
Qed.

Lemma translate_cases entity classtypes w :
  ∃ o w', translate entity classtypes w = (o, w') ∧
          run_case entity classtypes w o w'.
Proof.
  destruct (translate entity classtypes w) as [o w'] eqn:E.
  exists o, w'. split; [done|].
  pose proof (translate_run_case entity classtypes w) as Hr.
  by rewrite E in Hr.
Qed.

(** *** Properties of the whole run *)


Lemma checked_app es1 es2 : checked (es1 ++ es2) = checked es1 ++ checked es2.
Proof. apply omap_app. Qed.

Lemma checked_other es :
  Forall (λ e, stage_of e ≠ Some ValidateSymbols) es → checked es = [].
Proof.
  induction 1 as [|e es He _ IH]; [done|].
  unfold checked in *. cbn [omap list_omap]. rewrite IH.
  by destruct e.
Qed.

Lemma checked_map_other {A} (f : A → event) l :
  (∀ a, stage_of (f a) ≠ Some ValidateSymbols) → checked (map f l) = [].
Proof.
  intros Hf. apply checked_other, Forall_forall.
  intros e (a & -> & _)%list_elem_of_fmap. apply Hf.
Qed.

Lemma checked_bodies bodies : checked (map EvSymbolsPass bodies) = bodies.
Proof. induction bodies as [|b bodies IH]; [done|]. simpl. by f_equal. Qed.

Lemma checked_check_events entity classtypes w :
  checked (check_events entity classtypes w) = run_bodies entity classtypes w.
Proof.
  unfold check_events. change (EvCheckSymbols :: ?l) with ([EvCheckSymbols] ++ l).
  rewrite !checked_app, checked_bodies, (checked_map_other EvPrint) by done.
  by rewrite app_nil_r.
Qed.

(** After the symbols are checked no event belongs to that step. *)
Lemma run_case_rest entity classtypes w o w' :
  run_case entity classtypes w o w' →
  ∃ h rest,
    w' = upd (linked entity classtypes w) h
           (check_events entity classtypes w ++ rest) ∧
    Forall (λ e, stage_of e ≠ Some ValidateSymbols) rest.
Proof.
  intros [Herr|h es Herr Hes|h es pre a post Herr Hes Hv
          |h es ds fs fns wus Herr Hes Hlen Hall r].
  - exists (w_heap w), []. by rewrite app_nil_r.
  - eexists _, _. split; [done|]. other_stage.
  - eexists _, _. split; [done|]. unfold function_events. other_stage.
  - eexists _, _. split; [done|]. unfold function_events. other_stage.
Qed.

(** C8.  In every run the symbol pass is called on the body of every
    workload driver, of every workunit, of every helper function and of
    every classtype, once each and in this order, and on nothing else. *)
Theorem symbols_checked_once entity classtypes w :
  let members := run_members entity classtypes w in
  ∃ es,
    w_log (translate entity classtypes w).2 = w_log w ++ es ∧
    checked es =
    values (pk_mains members) ++ values (pk_workunits members) ++
    values (pk_functions members) ++ map AST classtypes.
Proof.
  intros members.
  destruct (translate_cases entity classtypes w) as (o & w' & -> & Hr).
  apply run_case_rest in Hr as (h & rest & -> & Hrest).
  exists (map EvAddParentRefs (AST entity :: map AST classtypes) ++
          [EvExtract] ++ check_events entity classtypes w ++ rest).
  split.
  - unfold upd, linked. cbn [w_log snd]. by rewrite <- !app_assoc.
  - rewrite !checked_app, checked_check_events, (checked_other rest) by done.
    rewrite (checked_map_other EvAddParentRefs) by done.
    by rewrite app_nil_r.
Qed.

(** C3.  When the symbol pass, run over every body of the entity and of
    the classtypes, leaves at least one diagnostic, the run ends in
    [sys.exit()] once every body has been checked and every diagnostic
    printed: nothing is translated, the store of IR is untouched and no
    artifact is returned. *)
Theorem symbol_errors_abort entity classtypes w :
  run_errors entity classtypes w ≠ [] →
  translate entity classtypes w =
  (SysExit None,
   upd (linked entity classtypes w) (w_heap w)
     (EvCheckSymbols :: map EvSymbolsPass (run_bodies entity classtypes w) ++
      map EvPrint (run_errors entity classtypes w))).
Proof.
  intros Herr.
  destruct (translate_cases entity classtypes w) as (o & w' & -> & Hr).
  by destruct Hr.
Qed.

Lemma last_app_Some {A} (l1 l2 : list A) y :
  last l2 = Some y → last (l1 ++ l2) = Some y.
Proof.
  intros Hy. induction l1 as [|x l1 IH]; [done|].
  rewrite <- app_comm_cons. destruct (l1 ++ l2) eqn:E; [|exact IH].
  by destruct l1, l2.
Qed.

Lemma last_cons_Some {A} (x : A) l y : last l = Some y → last (x :: l) = Some y.
Proof. apply (last_app_Some [x]). Qed.


Lemma append_assoc (a b c : string) : (a +:+ b) +:+ c = a +:+ b +:+ c.
Proof.
  induction a as [|x a IH]; [done|].
  change (String x ((a +:+ b) +:+ c) = String x (a +:+ b +:+ c)).
  by rewrite IH.
Qed.

Lemma append_nil_r (a : string) : a +:+ "" = a.
Proof.
  induction a as [|x a IH]; [done|].
  change (String x (a +:+ "") = String x a). by rewrite IH.
Qed.

Lemma generate_includes_eq self :
  generate_includes self =
  fixed_includes +:+ include_line (functor_file self).
Proof.
  unfold generate_includes, fixed_includes.
  cbn [map foldr]. by rewrite append_nil_r, !append_assoc.
Qed.


Lemma translate_classtypes_world cs w members import cts w2 :
  bound w members import →
  translate_classtypes cs w = (Return cts, w2) →
  ∃ h es, w2 = upd w h es.
Proof.
  intros Hb Hc.
  destruct (translate_classtypes_run cs w _ _ Hb) as (o & h & es & Hr & _).
  rewrite Hr in Hc. injection Hc as _ <-. by eexists _, _.
Qed.

Lemma translate_functions_world source w members import fns w3 :
  bound w members import →
  translate_functions source w = (Return fns, w3) →
  ∃ h es, w3 = upd w h es.
Proof.
  intros Hb Hc.
  destruct (translate_functions_run source w _ _ Hb) as (fns' & h & Hr).
  rewrite Hr in Hc. injection Hc as _ <-. by eexists _, _.
Qed.

Lemma translate_workunits_unfold source w members import :
  bound w members import →
  translate_workunits source w =
  bind
    (for_fold (pk_workunits members)
       (WorkunitVisitor_new source (views members) (pk_workunits members)
          (fields members) (pk_functions members)
          (classtype_methods members) import true, [])
       translate_workunit)
    (λ st, ret st.2)
    (upd w (w_heap w) [EvTranslateWorkunits]).
Proof.
  intros [Hm Hi].
  unfold translate_workunits, get_pk_members, get_pk_import, bind, get_self,
    emit, ret. simpl. rewrite Hm. simpl. by rewrite Hi.
Qed.

(** C2.  Let the run have checked the symbols and translated the
    classtypes and the helper functions.  If the workunits before [a]
    are translated and the visit of [a] raises, then [translate] ends in
    [sys.exit(1)], whose status is not zero, right after the failure is
    printed: the workunits after [a] are never visited and neither the
    functor nor the bindings are produced, however many workunits there
    are. *)
Theorem workunit_fault_aborts entity classtypes w cts w2 fns w3
    pre n a post st_k w_k :
  let members := run_members entity classtypes w in
  run_errors entity classtypes w = [] →
  translate_classtypes classtypes
    (upd (linked entity classtypes w) (w_heap w)
       (check_events entity classtypes w)) = (Return cts, w2) →
  translate_functions (source entity) w2 = (Return fns, w3) →
  pk_workunits members = pre ++ (n, a) :: post →
  for_fold pre
    (WorkunitVisitor_new (source entity) (views members)
       (pk_workunits members) (fields members) (pk_functions members)
       (classtype_methods members) (pk_import entity) true, [])
    translate_workunit (upd w3 (w_heap w3) [EvTranslateWorkunits]) =
    (Return st_k, w_k) →
  WorkunitVisitor_visit st_k.1 (w_parents w_k) a (w_heap w_k) = None →
  translate entity classtypes w =
    (SysExit (Some 1%Z),
     upd w_k (w_heap w_k) [EvWorkunitVisit a; EvPrint (failure_message a)]) ∧
  exit_status (Some 1%Z) ≠ 0%Z.
Proof.
  intros members Herr Hc Hf Hsplit Hpre Hvisit. split; [|done].
  rewrite translate_eq. unfold bind at 1.
  pose proof (linked_bound entity classtypes w) as Hb.
  rewrite (check_symbols_run _ _ _ _ _ Hb).
  change (diagnostics _ _ _) with (run_errors entity classtypes w).
  change (EvCheckSymbols :: _ ++ map EvPrint (run_errors entity classtypes w))
    with (check_events entity classtypes w).
  change (w_heap (linked entity classtypes w)) with (w_heap w).
  rewrite Herr. unfold after_symbols.
  unfold bind at 1. rewrite Hc. unfold bind at 1. rewrite Hf.
  pose proof (bound_upd _ (w_heap w) (check_events entity classtypes w)
                _ _ Hb) as Hb1.
  destruct (translate_classtypes_world _ _ _ _ _ _ Hb1 Hc) as (h2 & es2 & ->).
  pose proof (bound_upd _ h2 es2 _ _ Hb1) as Hb2.
  destruct (translate_functions_world _ _ _ _ _ _ Hb2 Hf) as (h3 & es3 & ->).
  pose proof (bound_upd _ h3 es3 _ _ Hb2) as Hb3.
  unfold bind at 1. rewrite (translate_workunits_unfold _ _ _ _ Hb3).
  fold members.
  set (nv0 := WorkunitVisitor_new _ _ _ _ _ _ _ _) in *.
  rewrite Hsplit.
  unfold bind at 1. rewrite for_fold_app. unfold bind at 1.
  rewrite Hpre. rewrite for_fold_cons. unfold bind at 1.
  destruct st_k as [nv wus]. rewrite translate_workunit_run.
  simpl in Hvisit. by rewrite Hvisit.
Qed.

End RunFacts.

Section AstFacts.
Import Ast.

Lemma elem_of_concat {A} (x : A) (ls : list (list A)) :
  x ∈ concat ls ↔ ∃ l, x ∈ l ∧ l ∈ ls.
Proof.
  induction ls as [|l ls IH]; simpl.
  - split; [by intros ?%elem_of_nil|by intros (? & _ & ?%elem_of_nil)].
  - rewrite elem_of_app, IH. split.
    + intros [Hx|(l' & Hx & Hl')]; [exists l|exists l'];
        (split; [done|]); [by left|by right].
    + intros (l' & Hx & [->|Hl']%elem_of_cons); [by left|right; eauto].
Qed.

Lemma assign_app σ es1 es2 : assign σ (es1 ++ es2) = assign (assign σ es1) es2.
Proof. apply foldl_app. Qed.

Lemma set_parents_assign σ node : set_parents σ node = assign σ (node_edges node).
Proof.
  unfold set_parents, assign, node_edges.
  generalize (iter_child_nodes node). intros ks. revert σ.
  induction ks as [|k ks IH]; intros σ; [done|]. simpl. apply IH.
Qed.

Lemma add_parent_refs_assign classdef σ :
  add_parent_refs classdef σ = assign σ (edges (walk classdef)).
Proof.
  unfold add_parent_refs, edges. generalize (walk classdef). intros ns.
  revert σ. induction ns as [|n ns IH]; intros σ; [done|].
  simpl. rewrite assign_app, <- set_parents_assign. apply IH.
Qed.

Lemma assign_snoc σ es e : assign σ (es ++ [e]) = <[e.1 := e.2]> (assign σ es).
Proof. by rewrite assign_app. Qed.

Lemma assign_notin σ es k : k ∉ es.*1 → assign σ es !! k = σ !! k.
Proof.
  induction es as [|e es IH] using rev_ind; [done|].
  rewrite fmap_app, not_elem_of_app. intros [Hes He].
  rewrite assign_snoc, lookup_insert_ne; [by apply IH|].
  intros <-. apply He. simpl. by left.
Qed.

Lemma assign_in es k :
  k ∈ es.*1 → ∃ p, (k, p) ∈ es ∧ ∀ σ', assign σ' es !! k = Some p.
Proof.
  induction es as [|[k' p'] es IH] using rev_ind.
  { by intros ?%elem_of_nil. }
  rewrite fmap_app. intros Hk. destruct (decide (k' = k)) as [->|Hne].
  - exists p'. split; [apply elem_of_app; right; by left|].
    intros σ'. by rewrite assign_snoc, lookup_insert_eq.
  - apply elem_of_app in Hk as [Hk|Hk].
    + destruct (IH Hk) as (p & Hp & Hl). exists p.
      split; [apply elem_of_app; by left|].
      intros σ'. by rewrite assign_snoc, lookup_insert_ne.
    + simpl in Hk. apply list_elem_of_singleton in Hk. congruence.
Qed.

Lemma assign_idempotent σ es : assign (assign σ es) es = assign σ es.
Proof.
  apply map_eq. intros k. destruct (decide (k ∈ es.*1)) as [Hk|Hk].
  - destruct (assign_in es k Hk) as (p & _ & Hl). by rewrite !Hl.
  - by rewrite !assign_notin.
Qed.

Lemma assign_nodup σ es k p :
  NoDup es.*1 → (k, p) ∈ es → assign σ es !! k = Some p.
Proof.
  induction es as [|[k' p'] es IH] using rev_ind.
  { by intros _ ?%elem_of_nil. }
  rewrite fmap_app. intros [Hnd [Hdis _]]%NoDup_app.
  intros [Hin|Hin]%elem_of_app.
  - rewrite assign_snoc, lookup_insert_ne; [by apply IH|].
    simpl. intros <-. apply (Hdis k').
    + apply list_elem_of_fmap. by exists (k', p).
    + simpl. by left.
  - apply list_elem_of_singleton in Hin. injection Hin as -> ->.
    by rewrite assign_snoc, lookup_insert_eq.
Qed.

(** Breadth first: after the queue itself come the children of the
    nodes in the order in which the nodes are visited. *)
Lemma walk_queue_children todo :
  walk_queue todo =
  todo ++ concat (map iter_child_nodes (walk_queue todo)).
Proof.
  funelim (walk_queue todo); simp walk_queue; [done|].
  rewrite H at 1. simpl. by rewrite <- app_assoc.
Qed.

Lemma walk_children classdef :
  walk classdef =
  classdef :: concat (map iter_child_nodes (walk classdef)).
Proof. unfold walk. by rewrite walk_queue_children at 1. Qed.

Lemma walk_closed classdef node child :
  node ∈ walk classdef → child ∈ iter_child_nodes node →
  child ∈ walk classdef.
Proof.
  intros Hn Hc. rewrite walk_children. right.
  apply elem_of_concat. exists (iter_child_nodes node).
  split; [done|]. by apply list_elem_of_fmap_2.
Qed.

Lemma walk_complete classdef node :
  subnode node classdef → node ∈ walk classdef.
Proof.
  intros Hs. assert (classdef ∈ walk classdef) as Hroot.
  { rewrite walk_children. by left. }
  revert Hroot. generalize (walk_closed classdef).
  generalize (walk classdef). intros W Hclosed.
  induction Hs as [t|n t k Hk Hs IH]; [done|].
  intros Ht. apply IH. by eapply Hclosed.
Qed.

Lemma walk_queue_sound todo : ∀ n,
  n ∈ walk_queue todo → ∃ t, t ∈ todo ∧ subnode n t.
Proof.
  funelim (walk_queue todo); simp walk_queue; intros n.
  { by intros ?%elem_of_nil. }
  intros [->|Hin]%elem_of_cons.
  - exists node. split; [by left|constructor].
  - destruct (H _ Hin) as (t & [Ht|Ht]%elem_of_app & Hs).
    + exists t. split; [by right|done].
    + exists node. split; [by left|]. by eapply subnode_child.
Qed.

Lemma walk_sound classdef node :
  node ∈ walk classdef → subnode node classdef.
Proof.
  intros (t & Ht & Hs)%walk_queue_sound.
  apply list_elem_of_singleton in Ht. by subst.
Qed.

Lemma edges_keys nodes :
  (edges nodes).*1 = map nid (concat (map iter_child_nodes nodes)).
Proof.
  unfold edges. induction nodes as [|n ns IH]; [done|].
  simpl. rewrite fmap_app, map_app, IH. f_equal.
  unfold node_edges. rewrite <- list_fmap_compose. done.
Qed.

Lemma edge_in classdef node child :
  node ∈ walk classdef → child ∈ iter_child_nodes node →
  (nid child, nid node) ∈ edges (walk classdef).
Proof.
  intros Hn Hc. unfold edges. apply elem_of_concat.
  exists (node_edges node). split.
  - unfold node_edges. apply list_elem_of_fmap. by exists child.
  - by apply list_elem_of_fmap_2.
Qed.

Lemma edge_inv nodes k p :
  (k, p) ∈ edges nodes →
  ∃ node child, node ∈ nodes ∧ child ∈ iter_child_nodes node ∧
                k = nid child ∧ p = nid node.
Proof.
  unfold edges. intros (es & Hkp & Hes)%elem_of_concat.
  apply list_elem_of_fmap in Hes as (node & -> & Hnode).
  unfold node_edges in Hkp.
  apply list_elem_of_fmap in Hkp as (child & [= -> ->] & Hchild).
  by exists node, child.
Qed.

Lemma last_container nodes k :
  k ∈ (edges nodes).*1 →
  ∃ before parent after,
    nodes = before ++ parent :: after ∧
    k ∈ map nid (iter_child_nodes parent) ∧
    (∀ n, n ∈ after → k ∉ map nid (iter_child_nodes n)) ∧
    ∀ σ, assign σ (edges nodes) !! k = Some (nid parent).
Proof.
  induction nodes as [|n nodes IH] using rev_ind.
  { by intros ?%elem_of_nil. }
  unfold edges. rewrite map_app, concat_app. cbn [map concat].
  rewrite app_nil_r. fold (edges nodes). rewrite fmap_app.
  intros Hk.
  destruct (decide (k ∈ (node_edges n).*1)) as [Hn|Hn].
  - exists nodes, n, []. split; [done|].
    assert ((node_edges n).*1 = map nid (iter_child_nodes n)) as Hkeys.
    { unfold node_edges. by rewrite <- list_fmap_compose. }
    split; [by rewrite <- Hkeys|]. split; [by intros ? ?%elem_of_nil|].
    intros σ. rewrite assign_app.
    destruct (assign_in (node_edges n) k Hn) as (p & Hp & Hl).
    rewrite Hl. unfold node_edges in Hp.
    by apply list_elem_of_fmap in Hp as (child & [= _ ->] & _).
  - apply elem_of_app in Hk as [Hk|Hk]; [|done].
    destruct (IH Hk) as (before & parent & after & -> & Hin & Hafter & Hl).
    exists before, parent, (after ++ [n]). rewrite <- app_assoc.
    split; [done|]. split; [done|]. split.
    + intros m [Hm|Hm]%elem_of_app; [by apply Hafter|].
      apply list_elem_of_singleton in Hm as ->.
      unfold node_edges in Hn. by rewrite <- list_fmap_compose in Hn.
    + intros σ. rewrite assign_app, assign_notin by done. apply Hl.
Qed.

(** C7.  Running [add_parent_refs] a second time changes no [parent]
    attribute.  After one run every child of a node of the tree carries
    the identity of a node of the tree that has it among its children:
    the last such node in the order of [ast.walk].  When no node occurs
    twice in the tree, that node is the one that contains the child. *)
Theorem add_parent_refs_idempotent (classdef : AST) (σ : parents) :
  add_parent_refs classdef (add_parent_refs classdef σ) =
    add_parent_refs classdef σ ∧
  (∀ node child,
     subnode node classdef → child ∈ iter_child_nodes node →
     ∃ before parent after,
       walk classdef = before ++ parent :: after ∧
       subnode parent classdef ∧
       nid child ∈ map nid (iter_child_nodes parent) ∧
       (∀ n, n ∈ after → nid child ∉ map nid (iter_child_nodes n)) ∧
       add_parent_refs classdef σ !! nid child = Some (nid parent)) ∧
  (NoDup (map nid (walk classdef)) →
   ∀ node child,
     subnode node classdef → child ∈ iter_child_nodes node →
     add_parent_refs classdef σ !! nid child = Some (nid node)).
Proof.
  rewrite !add_parent_refs_assign. split; [apply assign_idempotent|]. split.
  - intros node child Hn%walk_complete Hc.
    pose proof (edge_in _ _ _ Hn Hc) as He.
    destruct (last_container (walk classdef) (nid child))
      as (before & parent & after & Hw & Hin & Hafter & Hl).
    { apply list_elem_of_fmap. by exists (nid child, nid node). }
    exists before, parent, after. split; [done|]. split.
    { apply walk_sound. rewrite Hw. apply elem_of_app. right. by left. }
    split; [done|]. split; [done|]. apply Hl.
  - intros Hnd node child Hn%walk_complete Hc.
    apply assign_nodup; [|by apply edge_in].
    rewrite edges_keys. rewrite walk_children in Hnd.
    rewrite map_cons in Hnd. by apply NoDup_cons in Hnd as [_ Hnd].
Qed.


End AstFacts.

Section CloneFacts.
Import PyObj Ast Static.
Context `{Collaborators}.

Lemma dict_get_set_eq {A} k (v : A) d : dict_get k (dict_set k v d) = Some v.
Proof.
  induction d as [|[k' v'] d IH]; simpl.
  - by rewrite decide_True.
  - case_decide; simpl; [by rewrite decide_True|by rewrite decide_False].
Qed.

Lemma dict_get_set_ne {A} k k' (v : A) d :
  k ≠ k' → dict_get k' (dict_set k v d) = dict_get k' d.
Proof.
  intros Hne. induction d as [|[k0 v0] d IH]; simpl.
  - by rewrite decide_False.
  - case_decide; simpl.
    + subst. by rewrite !decide_False.
    + case_decide; [done|apply IH].
Qed.

Lemma vrel_ref (m : memo) v r : vrel m v (VRef r) → ∃ a, m !! a = Some r.
Proof.
  destruct v; simpl; try done. intros (b & [= ->] & Hb). eauto.
Qed.

Lemma orel_refs (m : memo) o o' r :
  orel m o o' → VRef r ∈ obj_values o' → ∃ a, m !! a = Some r.
Proof.
  destruct o as [xs|c kvs], o' as [ys|c' kvs']; simpl; try done.
  - intros Hrel (i & Hi)%list_elem_of_lookup.
    destruct (Forall2_lookup_r _ _ _ _ _ Hrel Hi) as (v & _ & Hv).
    by eapply vrel_ref.
  - intros [_ Hrel] (i & Hi)%list_elem_of_lookup.
    rewrite list_lookup_fmap in Hi.
    destruct (kvs' !! i) as [[k v']|] eqn:E; [|done].
    simpl in Hi. injection Hi as ->.
    destruct (Forall2_lookup_r _ _ _ _ _ Hrel E) as ([k0 v] & _ & _ & Hv).
    by eapply vrel_ref.
Qed.

Lemma reify_items_ext (rf rf' : value → option pytree) xs ts :
  (∀ v t, rf v = Some t → rf' v = Some t) →
  reify_items rf xs = Some ts → reify_items rf' xs = Some ts.
Proof.
  intros Hrf. revert ts. induction xs as [|x xs IH]; intros ts; simpl; [done|].
  destruct (rf x) as [t|] eqn:Ex; [|done].
  destruct (reify_items rf xs) as [ts'|] eqn:Exs; [|done].
  intros [= <-]. by rewrite (Hrf _ _ Ex), (IH _ eq_refl).
Qed.

Lemma reify_dict_ext (rf rf' : value → option pytree) kvs ts :
  (∀ v t, rf v = Some t → rf' v = Some t) →
  reify_dict rf kvs = Some ts → reify_dict rf' kvs = Some ts.
Proof.
  intros Hrf. revert ts.
  induction kvs as [|[k x] kvs IH]; intros ts; simpl; [done|].
  destruct (rf x) as [t|] eqn:Ex; [|done].
  destruct (reify_dict rf kvs) as [ts'|] eqn:Exs; [|done].
  intros [= <-]. by rewrite (Hrf _ _ Ex), (IH _ eq_refl).
Qed.

(** A tree that was read is read again after the store has grown or
    changed elsewhere. *)
Lemma reify_frame (h h' : heap) n : ∀ v t,
  (∀ l, l < length h → h' !! l = h !! l) →
  reify n h v = Some t → reify n h' v = Some t.
Proof.
  induction n as [|n IH]; intros v t Hold;
    (destruct v as [| | | |l]; simpl; try done).
  destruct (h !! l) as [o|] eqn:El; [|done].
  rewrite (Hold l), El by by eapply lookup_lt_Some.
  destruct o as [items|cls attrs].
  - destruct (reify_items (reify n h) items) as [ts|] eqn:E; [|done].
    intros [= <-]. erewrite reify_items_ext; [done| |exact E].
    intros. by apply IH.
  - destruct (reify_dict (reify n h) attrs) as [ts|] eqn:E; [|done].
    intros [= <-]. erewrite reify_dict_ext; [done| |exact E].
    intros. by apply IH.
Qed.

Lemma reachable_old (h h' : heap) (x l : loc) :
  closed h → (∀ l, l < length h → h' !! l = h !! l) →
  x < length h → reachable h' x l → l < length h.
Proof.
  intros Hc Hold Hx Hr. induction Hr as [l|l o r l' Hl Hv Hr IH]; [done|].
  apply IH. rewrite Hold in Hl by done. by eapply Hc.
Qed.

Lemma reachable_new (h' : heap) (n : nat) (y l : loc) :
  (∀ l o r, n ≤ l → h' !! l = Some o → VRef r ∈ obj_values o → n ≤ r) →
  n ≤ y → reachable h' y l → n ≤ l.
Proof.
  intros Hc Hy Hr. induction Hr as [l|l o r l' Hl Hv Hr IH]; [done|].
  apply IH. by eapply Hc.
Qed.

(** What lines 149 and 150 do to the store. *)
Lemma clone_spec (h : heap) (x : loc) cls attrs :
  closed h → h !! x = Some (OInst cls attrs) →
  ∃ (y : loc) m h1 st,
    deepcopy (VRef x) h = Some (VRef y, h1) ∧
    setattr (VRef y) "is_definition" (VBool false) h1 =
      Some (<[y := OInst cls (dict_set "is_definition" (VBool false) st)]> h1) ∧
    m !! x = Some y ∧
    copy_frame ∅ h m h1 ∧
    memo_inj m ∧
    h1 !! y = Some (OInst cls st) ∧
    Forall2 (kvrel m) attrs st ∧
    ∀ a b, m !! a = Some b →
           ∃ o o', h !! a = Some o ∧ h1 !! b = Some o' ∧ orel m o o'.
Proof.
  intros Hc Hx. pose proof (lookup_lt_Some _ _ _ Hx) as Hlt.
  destruct (deepcopy_ref_spec h x Hc Hlt) as (y & m & h1 & Hd & Hy & F & Hinj & Hiso).
  destruct (Hiso x y Hy) as (o & o' & Ho & Ho' & Hrel).
  rewrite Hx in Ho. injection Ho as <-.
  destruct o' as [|cls' st]; [done|]. destruct Hrel as [<- Hrel].
  exists y, m, h1, st. unfold setattr. rewrite Ho'.
  do 7 (split; [done|]). done.
Qed.

Lemma tree_getattr_setattr_ne k name v t :
  k ≠ name → tree_getattr name (tree_setattr k v t) = tree_getattr name t.
Proof. intros Hne. destruct t; simpl; try done. by apply dict_get_set_ne. Qed.

(** C10.  The declaration made from the definition at [x] is a new
    object with [is_definition] false.  Making it changes no object
    that existed before, so the definition keeps its flag and all its
    members; and the two trees share no node: whatever the definition
    reaches existed before, whatever the declaration reaches is new. *)
Theorem declaration_shares_nothing w (x : loc) cls attrs :
  closed (w_heap w) → w_heap w !! x = Some (OInst cls attrs) →
  ∃ (y : loc) h',
    clone_declaration (VRef x) w =
      (Return (VRef y), upd w h' [EvDeepcopy (VRef x)]) ∧
    length (w_heap w) ≤ y ∧
    getattr (VRef y) "is_definition" h' = Some (VBool false) ∧
    (∀ l o, w_heap w !! l = Some o → h' !! l = Some o) ∧
    (∀ l, reachable h' x l → l < length (w_heap w)) ∧
    (∀ l, reachable h' y l → length (w_heap w) ≤ l).
Proof.
  intros Hc Hx. pose proof (lookup_lt_Some _ _ _ Hx) as Hlt.
  destruct (clone_spec _ _ _ _ Hc Hx)
    as (y & m & h1 & st & Hd & Hs & Hy & F & Hinj & Hy1 & Hrel & Hiso).
  pose proof (lookup_lt_Some _ _ _ Hy1) as Hylt.
  assert (length (w_heap w) ≤ y) as Hfresh.
  { destruct (cf_img _ _ _ _ F _ _ Hy) as [Hk|Hk]; [|lia].
    by rewrite lookup_empty in Hk. }
  assert (∀ l, l < length (w_heap w) →
               <[y:=OInst cls (dict_set "is_definition" (VBool false) st)]> h1
                 !! l = w_heap w !! l) as Hold.
  { intros l Hl. rewrite list_lookup_insert_ne by lia.
    by apply (cf_old _ _ _ _ F). }
  eexists y, _. rewrite clone_declaration_run, Hd, Hs.
  split; [done|]. split; [done|]. split.
  { simpl. rewrite list_lookup_insert_eq by done. apply dict_get_set_eq. }
  split.
  { intros l o Hl. rewrite Hold; [done|]. by eapply lookup_lt_Some. }
  split.
  { intros l. by apply reachable_old. }
  intros l. apply reachable_new; [|done].
  intros l0 o r Hl0 Ho Hr.
  assert (∃ a, m !! a = Some r) as [a Ha].
  { destruct (decide (l0 = y)) as [->|Hne].
    - rewrite list_lookup_insert_eq in Ho by done. injection Ho as <-.
      simpl in Hr. apply dict_set_values in Hr as [Hr|Hr]; [done|].
      eapply (orel_refs m (OInst cls attrs) (OInst cls st)); [by split|done].
    - rewrite list_lookup_insert_ne in Ho by done.
      destruct (cf_new _ _ _ _ F l0 Hl0) as [a0 Ha0];
        [by eapply lookup_lt_Some|].
      destruct (Hiso _ _ Ha0) as (o1 & o1' & _ & Ho1' & Hrel1).
      rewrite Ho in Ho1'. injection Ho1' as <-.
      by eapply orel_refs. }
  destruct (cf_img _ _ _ _ F _ _ Ha) as [Hk|Hk]; [|lia].
  by rewrite lookup_empty in Hk.
Qed.

Lemma translate_classtype_unfold ds fs c w members import :
  bound w members import →
  translate_classtype (ds, fs) c w =
  let r :=
    ClasstypeVisitor_visit
      (ClasstypeVisitor_new (source c) (views members) (pk_workunits members)
         (fields members) (pk_functions members) (classtype_methods members)
         import true)
      (w_parents w) (AST c) (w_heap w) in
  bind (clone_declaration r.1)
    (λ d, ret (ds ++ [d], fs ++ [r.1]))
    (upd w r.2 [EvClasstypeVisit (AST c)]).
Proof.
  intros [Hm Hi].
  unfold translate_classtype, get_pk_members, get_pk_import, classtype_visit.
  unfold bind at 1. unfold bind at 1. simpl. rewrite Hm. simpl.
  unfold bind at 1. unfold bind at 1. simpl. rewrite Hi. simpl.
  unfold bind at 1. unfold bind at 1. simpl.
  unfold bind at 1. simpl. unfold bind at 1. simpl.
  destruct (ClasstypeVisitor_visit _ _ _ _) as [f h1]. simpl.
  unfold bind at 1. simpl. done.
Qed.

(** C1, as the code has it.  For a classtype whose visitor returns the
    record at [x], the declaration appended by the loop reads back as
    the tree of the definition with [is_definition] bound to [False] and
    nothing else changed: every other attribute, the member bodies
    included, is the same in both, and the definition still reads as it
    did. *)
Theorem declaration_is_unflagged_definition ds fs c w members import
    (x : loc) cls attrs n t :
  bound w members import →
  let r :=
    ClasstypeVisitor_visit
      (ClasstypeVisitor_new (source c) (views members) (pk_workunits members)
         (fields members) (pk_functions members) (classtype_methods members)
         import true)
      (w_parents w) (AST c) (w_heap w) in
  r.1 = VRef x →
  closed r.2 →
  r.2 !! x = Some (OInst cls attrs) →
  reify n r.2 (VRef x) = Some t →
  ∃ (y : loc) h',
    translate_classtype (ds, fs) c w =
      (Return (ds ++ [VRef y], fs ++ [VRef x]),
       upd w h' [EvClasstypeVisit (AST c); EvDeepcopy (VRef x)]) ∧
    reify n h' (VRef x) = Some t ∧
    reify n h' (VRef y) =
      Some (tree_setattr "is_definition" (TAtom (VBool false)) t) ∧
    ∀ name, name ≠ "is_definition" →
      tree_getattr name
        (tree_setattr "is_definition" (TAtom (VBool false)) t) =
      tree_getattr name t.
Proof.
  intros Hb r Hr1 Hc Hx Ht.
  rewrite (translate_classtype_unfold _ _ _ _ _ _ Hb). fold r.
  cbv zeta. rewrite Hr1.
  destruct (clone_spec _ _ _ _ Hc Hx)
    as (y & m & h1 & st & Hd & Hs & Hy & F & Hinj & Hy1 & Hrel & Hiso).
  pose proof (lookup_lt_Some _ _ _ Hx) as Hlt.
  pose proof (lookup_lt_Some _ _ _ Hy1) as Hylt.
  assert (length r.2 ≤ y) as Hfresh.
  { destruct (cf_img _ _ _ _ F _ _ Hy) as [Hk|Hk]; [|lia].
    by rewrite lookup_empty in Hk. }
  set (h' := <[y:=OInst cls (dict_set "is_definition" (VBool false) st)]> h1).
  assert (∀ l, l < length r.2 → h' !! l = r.2 !! l) as Hold.
  { intros l Hl. unfold h'. rewrite list_lookup_insert_ne by lia.
    by apply (cf_old _ _ _ _ F). }
  exists y, h'. split; [|split; [|split]].
  - unfold bind. rewrite clone_declaration_run. simpl. rewrite Hd, Hs.
    unfold ret, upd. simpl. by rewrite <- app_assoc.
  - by eapply reify_frame.
  - eapply (reify_root r.2 h' m x t n Ht); [|exact Hx| |exact Hrel|done].
    + intros a b Hab Hne. destruct (Hiso _ _ Hab) as (o & o' & Ho & Ho' & Hr).
      exists o, o'. split; [done|]. split; [|done].
      unfold h'. rewrite list_lookup_insert_ne; [done|].
      intros <-. apply Hne. by eapply Hinj.
    + unfold h'. by rewrite list_lookup_insert_eq.
  - intros name Hne. by apply tree_getattr_setattr_ne.
Qed.

End CloneFacts.

(** ** The runs of the translator, event by event *)

Section RunExact.
Import PyObj Ast Static.
Context `{Collaborators}.
Local Open Scope py_scope.

Lemma translate_checked entity classtypes w :
  translate entity classtypes w =
  match run_errors entity classtypes w with
  | [] =>
      after_symbols entity classtypes
        (upd (linked entity classtypes w) (w_heap w)
           (check_events entity classtypes w))
  | _ :: _ =>
      (SysExit None,
       upd (linked entity classtypes w) (w_heap w)
         (check_events entity classtypes w))
  end.
Proof.
  rewrite translate_eq. unfold bind at 1.
  pose proof (linked_bound entity classtypes w) as Hb.
  rewrite (check_symbols_run _ _ _ _ _ Hb).
  change (diagnostics _ _ _) with (run_errors entity classtypes w).
  change (EvCheckSymbols :: _ ++ map EvPrint (run_errors entity classtypes w))
    with (check_events entity classtypes w).
  change (w_heap (linked entity classtypes w)) with (w_heap w).
  by destruct (run_errors entity classtypes w).
Qed.

Lemma translate_classtypes_loop cs w :
  translate_classtypes cs w =
  bind (for_fold cs ([], []) translate_classtype) (λ st, ret (st.1 ++ st.2))
    (upd w (w_heap w) [EvTranslateClasstypes]).
Proof. done. Qed.

Lemma translate_classtype_step ds fs c w members import :
  bound w members import →
  translate_classtype (ds, fs) c w =
  let r := fresh_visit members import c (w_parents w) (w_heap w) in
  bind (clone_declaration r.1)
    (λ d, ret (ds ++ [d], fs ++ [r.1]))
    (upd w r.2 [EvClasstypeVisit (AST c)]).
Proof.
  intros [Hm Hi].
  unfold translate_classtype, get_pk_members, get_pk_import, classtype_visit,
    fresh_visit.
  unfold bind at 1. unfold bind at 1. simpl. rewrite Hm. simpl.
  unfold bind at 1. unfold bind at 1. simpl. rewrite Hi. simpl.
  unfold bind at 1. unfold bind at 1. simpl.
  unfold bind at 1. simpl. unfold bind at 1. simpl.
  destruct (ClasstypeVisitor_visit _ _ _ _) as [f h1]. simpl.
  unfold bind at 1. simpl. done.
Qed.

Lemma setattr_getattr target k v h h' :
  setattr target k v h = Some h' → getattr target k h' = Some v.
Proof.
  destruct target as [| | | |l]; try done. cbn.
  destruct (h !! l) as [[items|cls attrs]|] eqn:El; try done.
  intros [= <-]. rewrite list_lookup_insert_eq by by eapply lookup_lt_Some.
  apply dict_get_set_eq.
Qed.

Lemma clone_flagged f w d w' :
  clone_declaration f w = (Return d, w') →
  getattr d "is_definition" (w_heap w') = Some (VBool false).
Proof.
  rewrite clone_declaration_run.
  destruct (deepcopy f (w_heap w)) as [[d0 h2]|]; [|done].
  destruct (setattr d0 _ _ h2) as [h3|] eqn:Es; [|done].
  intros [= <- <-]. by eapply setattr_getattr.
Qed.

Lemma clone_world f w o w' :
  clone_declaration f w = (o, w') →
  ∃ h, w' = upd w h [EvDeepcopy f].
Proof.
  rewrite clone_declaration_run.
  destruct (deepcopy f (w_heap w)) as [[d0 h2]|];
    [destruct (setattr d0 _ _ h2) as [h3|]|]; intros [= <- <-]; by eexists.
Qed.

Lemma clone_no_exit f w arg w' : clone_declaration f w ≠ (SysExit arg, w').
Proof.
  rewrite clone_declaration_run.
  destruct (deepcopy f (w_heap w)) as [[d0 h2]|];
    [destruct (setattr d0 _ _ h2) as [h3|]|]; done.
Qed.

Lemma classtype_events_cons c cs f fs :
  classtype_events (c :: cs) (f :: fs) =
  [EvClasstypeVisit (AST c); EvDeepcopy f] ++ classtype_events cs fs.
Proof. done. Qed.

Lemma classtypes_loop_log cs members import : ∀ ds0 fs0 w,
  bound w members import →
  ∃ o w',
    for_fold cs (ds0, fs0) translate_classtype w = (o, w') ∧
    match o with
    | Return st =>
        ∃ ds fs h, st = (ds0 ++ ds, fs0 ++ fs) ∧
                   length ds = length cs ∧ length fs = length cs ∧
                   w' = upd w h (classtype_events cs fs)
    | SysExit _ => False
    | Raised =>
        ∃ k fs h, k < length cs ∧ length fs = S k ∧
                  w' = upd w h (classtype_events (take (S k) cs) fs)
    end.
Proof.
  induction cs as [|c cs IH]; intros ds0 fs0 w Hb.
  - exists (Return (ds0, fs0)), w. split; [done|].
    exists [], [], (w_heap w). rewrite !app_nil_r.
    do 3 (split; [done|]). unfold classtype_events. cbn. by rewrite upd_nil.
  - rewrite for_fold_cons. unfold bind.
    rewrite (translate_classtype_step _ _ _ _ _ _ Hb). cbv zeta.
    set (r := fresh_visit members import c (w_parents w) (w_heap w)).
    unfold bind.
    destruct (clone_declaration r.1 _) as [[d|arg|] w1] eqn:Ec.
    + destruct (clone_world _ _ _ _ Ec) as [h1 ->]. unfold ret.
      rewrite upd_upd.
      match goal with
      | |- context [for_fold cs ?st _ ?w2] =>
          destruct (IH (ds0 ++ [d]) (fs0 ++ [r.1]) w2)
            as (o' & w' & Hr & Ho'); [done|]
      end.
      exists o', w'. split; [done|].
      destruct o' as [st'| |]; [|done|].
      * destruct Ho' as (ds & fs & h' & -> & Hds & Hfs & ->).
        exists (d :: ds), (r.1 :: fs), h'. rewrite <- !app_assoc.
        cbn [app length]. split; [done|].
        split; [by rewrite Hds|]. split; [by rewrite Hfs|].
        by rewrite upd_upd, classtype_events_cons.
      * destruct Ho' as (k & fs & h' & Hk & Hfs & ->).
        exists (S k), (r.1 :: fs), h'. cbn [length].
        split; [lia|]. split; [by rewrite Hfs|].
        rewrite upd_upd. by cbn [take].
    + by apply clone_no_exit in Ec.
    + destruct (clone_world _ _ _ _ Ec) as [h1 ->]. rewrite upd_upd.
      eexists Raised, _. split; [done|].
      exists 0, [r.1], h1. cbn [length]. split; [lia|]. split; [done|].
      cbn [take]. by destruct cs.
Qed.

Lemma classtypes_loop_passes cs members import : ∀ ds0 fs0 w ds fs w2,
  bound w members import →
  for_fold cs (ds0, fs0) translate_classtype w =
    (Return (ds0 ++ ds, fs0 ++ fs), w2) →
  ∀ i c, cs !! i = Some c →
    ∃ w_i d f,
      for_fold (take i cs) (ds0, fs0) translate_classtype w =
        (Return (ds0 ++ take i ds, fs0 ++ take i fs), w_i) ∧
      ds !! i = Some d ∧ fs !! i = Some f ∧
      classtype_pass members import c w_i d f.
Proof.
  induction cs as [|c0 cs IH]; intros ds0 fs0 w ds fs w2 Hb Hloop i c Hi;
    [done|].
  rewrite for_fold_cons in Hloop. unfold bind in Hloop.
  rewrite (translate_classtype_step _ _ _ _ _ _ Hb) in Hloop.
  cbv zeta in Hloop.
  set (r := fresh_visit members import c0 (w_parents w) (w_heap w)) in *.
  unfold bind in Hloop.
  destruct (clone_declaration r.1 _) as [[d0|arg|] w1] eqn:Ec; [|done..].
  pose proof (clone_flagged _ _ _ _ Ec) as Hflag.
  destruct (clone_world _ _ _ _ Ec) as [h1 Hw1].
  unfold ret in Hloop.
  assert (bound w1 members import) as Hb1.
  { rewrite Hw1. by rewrite upd_upd. }
  destruct (classtypes_loop_log cs members import (ds0 ++ [d0]) (fs0 ++ [r.1])
              w1 Hb1) as (o & w' & Hr & Ho).
  rewrite Hr in Hloop. injection Hloop as -> ->.
  destruct Ho as (ds' & fs' & h' & Hst & _).
  injection Hst as Hds Hfs.
  rewrite <- !app_assoc in Hds, Hfs.
  apply app_inv_head in Hds, Hfs. cbn [app] in Hds, Hfs. subst ds fs.
  destruct i as [|j].
  - injection Hi as <-. exists w, d0, r.1. cbn [take]. rewrite !app_nil_r.
    split; [done|]. split; [done|]. split; [done|].
    split; [done|]. by exists w1.
  - cbn in Hi.
    assert (for_fold cs (ds0 ++ [d0], fs0 ++ [r.1]) translate_classtype w1 =
            (Return ((ds0 ++ [d0]) ++ ds', (fs0 ++ [r.1]) ++ fs'), w2)) as Hr'.
    { rewrite Hr. by rewrite <- !app_assoc. }
    destruct (IH _ _ _ _ _ _ Hb1 Hr' j c Hi) as (w_j & d & f & Hp & Hd & Hf & Hpass).
    exists w_j, d, f. cbn [take]. rewrite for_fold_cons. unfold bind.
    rewrite (translate_classtype_step _ _ _ _ _ _ Hb). cbv zeta. fold r.
    unfold bind. rewrite Ec. unfold ret. rewrite Hp.
    rewrite <- !app_assoc. done.
Qed.

Lemma translate_classtypes_log cs w members import :
  bound w members import →
  ∃ o h es,
    translate_classtypes cs w = (o, upd w h (EvTranslateClasstypes :: es)) ∧
    match o with
    | Return cts =>
        ∃ ds fs, cts = ds ++ fs ∧
                 length ds = length cs ∧ length fs = length cs ∧
                 es = classtype_events cs fs
    | SysExit _ => False
    | Raised =>
        ∃ k fs, k < length cs ∧ length fs = S k ∧
                es = classtype_events (take (S k) cs) fs
    end.
Proof.
  intros Hb. rewrite translate_classtypes_loop.
  destruct (classtypes_loop_log cs members import [] []
              (upd w (w_heap w) [EvTranslateClasstypes]))
    as (o & w' & Hr & Ho); [done|].
  unfold bind. rewrite Hr. destruct o as [st| |]; [|done|].
  - destruct Ho as (ds & fs & h & -> & Hds & Hfs & ->).
    eexists (Return _), h, _. rewrite upd_upd. split; [done|].
    by exists ds, fs.
  - destruct Ho as (k & fs & h & Hk & Hfs & ->).
    eexists Raised, h, _. rewrite upd_upd. split; [done|].
    by exists k, fs.
Qed.

Lemma translate_run_log entity classtypes w :
  ∃ es,
    w_log (translate entity classtypes w).2 = w_log w ++ es ∧
    run_log entity classtypes w (translate entity classtypes w).1 es.
Proof.
  cut (∃ o w' es, translate entity classtypes w = (o, w') ∧
                  w_log w' = w_log w ++ es ∧
                  run_log entity classtypes w o es).
  { intros (o & w' & es & -> & Hlog & Hrun). by exists es. }
  rewrite translate_checked.
  destruct (run_errors entity classtypes w) as [|e errors] eqn:Herr.
  2: { eexists _, _, _. split; [done|]. split; [|red; reflexivity].
       unfold upd, linked. cbn [w_log]. by rewrite <- !app_assoc. }
  unfold after_symbols.
  set (w0 := linked entity classtypes w).
  set (w1 := upd w0 (w_heap w) (check_events entity classtypes w)).
  assert (bound w1 (run_members entity classtypes w) (pk_import entity))
    as Hb1 by done.
  destruct (translate_classtypes_log classtypes w1 _ _ Hb1)
    as (o & h & es & Hc & Ho).
  unfold bind at 1. rewrite Hc. destruct o as [cts| |]; [|done|].
  2: { destruct Ho as (k & fs & Hk & Hfs & ->).
       eexists _, _, _. split; [done|].
       split; [|exists k, fs; split; [done|split; [done|reflexivity]]].
       unfold w1, w0, upd, linked. cbn [w_log].
       by rewrite <- !app_assoc. }
  destruct Ho as (ds & fs & -> & Hds & Hfs & ->).
  set (w2 := upd w1 h _).
  destruct (translate_functions_run (source entity) w2 _ _ Hb1)
    as (fns & h2 & Hf).
  unfold bind at 1. rewrite Hf.
  set (w3 := upd w2 h2 _).
  destruct (translate_workunits_run (source entity) w3 _ _ Hb1)
    as (o & h3 & es3 & Hw & Ho).
  unfold bind at 1. rewrite Hw. destruct o as [wus|arg|]; [| |done].
  - rewrite (after_workunits_run _ _ _ _ _ _ (upd w3 h3 _) _ _ Hb1).
    cbv zeta. subst es3.
    eexists _, _, _. split; [done|]. split;
      [|exists ds, fs; eexists; split; [done|split; [done|reflexivity]]].
    unfold w3, w2, w1, w0, upd, linked, function_events. cbn [w_log].
    rewrite <- ?app_assoc. cbn [app]. rewrite <- ?app_assoc. cbn [app].
    by rewrite <- ?app_assoc.
  - destruct Ho as (-> & pre & a & post & Hv & ->).
    eexists _, _, _. split; [done|]. split;
      [|split; [done|exists fs, pre, a, post;
                     split; [done|split; [done|reflexivity]]]].
    unfold w3, w2, w1, w0, upd, linked, function_events. cbn [w_log].
    rewrite <- ?app_assoc. cbn [app]. rewrite <- ?app_assoc. cbn [app].
    by rewrite <- ?app_assoc.
Qed.


Lemma bound_world w w' h es members import :
  bound w members import → w' = upd w h es → bound w' members import.
Proof. by intros ? ->. Qed.

Lemma translate_workunits_world source w members import o w4 :
  bound w members import →
  translate_workunits source w = (o, w4) →
  ∃ h es, w4 = upd w h es.
Proof.
  intros Hb Hc.
  destruct (translate_workunits_run source w _ _ Hb) as (o' & h & es & Hr & _).
  rewrite Hr in Hc. injection Hc as _ <-. by eexists _, _.
Qed.

(** C4.  The kernel source of a run that returns.  [declarations] and
    [definitions] are the two lists the loop of [translate_classtypes]
    has built in this run, from the world in which the symbols were
    accepted, with one entry each per classtype.  At every position, the
    definition is what the visit of the classtype at that position
    returned in the world the loop had reached, and the declaration is
    the copy lines 149 and 150 made of it there, with [is_definition]
    false when it was made.  The record is the one [generate_functor]
    assembled from the functions and the workunits translated in this
    run.  The kernel source is the generator stamp, then the fragments
    of the declarations, then the fragments of the definitions, then
    the fragment of the record. *)
Theorem kernel_artifact_order entity classtypes w functor bindings :
  (translate entity classtypes w).1 = Return (functor, bindings) →
  let members := run_members entity classtypes w in
  ∃ declarations definitions w2 functions w3 workunits w4,
    for_fold classtypes ([], []) translate_classtype
      (checked_world entity classtypes w) =
      (Return (declarations, definitions), w2) ∧
    length declarations = length classtypes ∧
    length definitions = length classtypes ∧
    (∀ i c, classtypes !! i = Some c →
       ∃ w_i d f,
         for_fold (take i classtypes) ([], []) translate_classtype
           (checked_world entity classtypes w) =
           (Return (take i declarations, take i definitions), w_i) ∧
         declarations !! i = Some d ∧ definitions !! i = Some f ∧
         classtype_pass members (pk_import entity) c w_i d f) ∧
    translate_functions (source entity) w2 = (Return functions, w3) ∧
    translate_workunits (source entity) w3 = (Return workunits, w4) ∧
    let r := generate_functor ("pk_functor_" +:+ name entity) members
               workunits functions (w_heap w4) in
    functor =
      [generate_header] ++
      map (Serializer_serialize r.2) declarations ++
      map (Serializer_serialize r.2) definitions ++
      [Serializer_serialize r.2 r.1].
Proof.
  intros Hret members. rewrite translate_checked in Hret.
  destruct (run_errors entity classtypes w) as [|e errors]; [|done].
  unfold after_symbols in Hret. unfold bind at 1 in Hret.
  rewrite translate_classtypes_loop, upd_upd in Hret.
  fold (checked_world entity classtypes w) in Hret.
  assert (bound (checked_world entity classtypes w) members (pk_import entity))
    as Hb1 by done.
  destruct (classtypes_loop_log classtypes members (pk_import entity) [] []
              _ Hb1) as (o & w2 & Hloop & Ho).
  unfold bind at 1 in Hret.
  change (for_fold classtypes ([], []) translate_classtype _)
    with (for_fold classtypes ([], []) translate_classtype
            (checked_world entity classtypes w)) in Hret.
  rewrite Hloop in Hret.
  destruct o as [st| |]; [|done..].
  destruct Ho as (ds & fs & h & -> & Hds & Hfs & Hw2).
  pose proof (classtypes_loop_passes _ _ _ [] [] _ ds fs w2 Hb1 Hloop)
    as Hpass.
  cbn [app fst snd ret] in Hret, Hloop, Hpass.
  pose proof (bound_world _ _ _ _ _ _ Hb1 Hw2) as Hb2.
  unfold bind at 1 in Hret.
  destruct (translate_functions (source entity) w2) as [[fns| |] w3] eqn:Ef;
    [|done..].
  destruct (translate_functions_world _ _ _ _ _ _ Hb2 Ef) as (h3 & es3 & Hw3).
  pose proof (bound_world _ _ _ _ _ _ Hb2 Hw3) as Hb3.
  unfold bind at 1 in Hret.
  destruct (translate_workunits (source entity) w3) as [[wus| |] w4] eqn:Ew;
    [|done..].
  destruct (translate_workunits_world _ _ _ _ _ _ Hb3 Ew) as (h4 & es4 & Hw4).
  pose proof (bound_world _ _ _ _ _ _ Hb3 Hw4) as Hb4.
  rewrite (after_workunits_run _ _ _ _ _ _ _ _ _ Hb4) in Hret.
  cbv zeta in Hret. cbn [fst] in Hret. injection Hret as <- _.
  exists ds, fs, w2, fns, w3, wus, w4.
  do 6 (split; [done|]). cbv zeta. by rewrite map_app, <- app_assoc.
Qed.

(** C6.  The events of a run of [translate] are exactly those of
    [run_log]: one [add_parent_refs] per tree, then one call each of the
    extraction, of [check_symbols] (with one check per body), of
    [translate_classtypes] (with one visit and one copy per classtype),
    of [translate_functions] and of [translate_workunits] (with one
    visit per entry), of [generate_functor] and of [generate_bindings],
    then one serialization per fragment; nothing is repeated, and a run
    that fails stops where it fails.  Hence the steps the events show
    are the pipeline, or the part of it the run has reached.  The run
    ends in [sys.exit()] exactly when the symbol pass has a diagnostic.
    The bindings of [self] left by an earlier call do not influence the
    run. *)
Theorem translate_runs_pipeline_once entity classtypes w :
  (∃ es,
     w_log (translate entity classtypes w).2 = w_log w ++ es ∧
     run_log entity classtypes w (translate entity classtypes w).1 es ∧
     stages es =
     match (translate entity classtypes w).1 with
     | Return _ => pipeline
     | SysExit None => take 3 pipeline
     | SysExit (Some _) => take 6 pipeline
     | Raised => take 4 pipeline
     end) ∧
  (run_errors entity classtypes w ≠ [] ↔
   (translate entity classtypes w).1 = SysExit None) ∧
  ∀ import members,
    translate entity classtypes (rebind w import members) =
    translate entity classtypes w.
Proof.
  split; [|split].
  - destruct (translate_run_log entity classtypes w) as (es & Hlog & Hrun).
    exists es. split; [done|]. split; [done|].
    destruct (translate_cases entity classtypes w) as (o & w' & Ht & Hr).
    rewrite Ht in Hlog |- *. cbn [fst snd] in *.
    apply run_case_stages in Hr as (es' & Hlog' & Hst).
    unfold new_events in Hlog'. rewrite Hlog in Hlog'.
    by apply app_inv_head in Hlog' as ->.
  - rewrite translate_checked.
    destruct (run_errors entity classtypes w) as [|e errors] eqn:Herr.
    + split; [done|]. intros Hexit. exfalso.
      destruct (translate_cases entity classtypes w) as (o & w' & Ht & Hr).
      rewrite translate_checked, Herr in Ht. rewrite Ht in Hexit.
      cbn [fst] in Hexit. subst o. inversion Hr; congruence.
    + done.
  - intros import members. by rewrite !translate_eq.
Qed.

Lemma workunit_fault_exit entity classtypes w cts w2 fns w3
    pre n a post st_k w_k :
  let members := run_members entity classtypes w in
  run_errors entity classtypes w = [] →
  translate_classtypes classtypes
    (upd (linked entity classtypes w) (w_heap w)
       (check_events entity classtypes w)) = (Return cts, w2) →
  translate_functions (source entity) w2 = (Return fns, w3) →
  pk_workunits members = pre ++ (n, a) :: post →
  for_fold pre
    (WorkunitVisitor_new (source entity) (views members)
       (pk_workunits members) (fields members) (pk_functions members)
       (classtype_methods members) (pk_import entity) true, [])
    translate_workunit (upd w3 (w_heap w3) [EvTranslateWorkunits]) =
    (Return st_k, w_k) →
  WorkunitVisitor_visit st_k.1 (w_parents w_k) a (w_heap w_k) = None →
  translate entity classtypes w =
    (SysExit (Some 1%Z),
     upd w_k (w_heap w_k) [EvWorkunitVisit a; EvPrint (failure_message a)]).
Proof.
  intros members Herr Hc Hf Hsplit Hpre Hvisit.
  rewrite translate_checked, Herr. unfold after_symbols.
  unfold bind at 1. rewrite Hc. unfold bind at 1. rewrite Hf.
  pose proof (linked_bound entity classtypes w) as Hb.
  pose proof (bound_upd _ (w_heap w) (check_events entity classtypes w)
                _ _ Hb) as Hb1.
  destruct (translate_classtypes_world _ _ _ _ _ _ Hb1 Hc) as (h2 & es2 & ->).
  pose proof (bound_upd _ h2 es2 _ _ Hb1) as Hb2.
  destruct (translate_functions_world _ _ _ _ _ _ Hb2 Hf) as (h3 & es3 & ->).
  pose proof (bound_upd _ h3 es3 _ _ Hb2) as Hb3.
  unfold bind at 1. rewrite (translate_workunits_unfold _ _ _ _ Hb3).
  fold members.
  set (nv0 := WorkunitVisitor_new _ _ _ _ _ _ _ _) in *.
  rewrite Hsplit.
  unfold bind at 1. rewrite for_fold_app. unfold bind at 1.
  rewrite Hpre. rewrite for_fold_cons. unfold bind at 1.
  destruct st_k as [nv wus]. rewrite translate_workunit_run.
  simpl in Hvisit. by rewrite Hvisit.
Qed.

(** C9.  The two ways to fail end the process with different statuses.
    When the symbol pass has a diagnostic, [translate] ends in
    [sys.exit()], whose status is 0.  When the symbols are accepted, the
    classtypes and the functions translated, and the visit of a
    workunit raises, [translate] ends in [sys.exit(1)], whose status is
    1.  No run ends in [SystemExit] in another way. *)
Theorem exit_statuses entity classtypes w :
  (run_errors entity classtypes w ≠ [] →
   (translate entity classtypes w).1 = SysExit None ∧
   exit_status None = 0%Z) ∧
  (∀ cts w2 fns w3 pre n a post st_k w_k,
     let members := run_members entity classtypes w in
     run_errors entity classtypes w = [] →
     translate_classtypes classtypes
       (upd (linked entity classtypes w) (w_heap w)
          (check_events entity classtypes w)) = (Return cts, w2) →
     translate_functions (source entity) w2 = (Return fns, w3) →
     pk_workunits members = pre ++ (n, a) :: post →
     for_fold pre
       (WorkunitVisitor_new (source entity) (views members)
          (pk_workunits members) (fields members) (pk_functions members)
          (classtype_methods members) (pk_import entity) true, [])
       translate_workunit (upd w3 (w_heap w3) [EvTranslateWorkunits]) =
       (Return st_k, w_k) →
     WorkunitVisitor_visit st_k.1 (w_parents w_k) a (w_heap w_k) = None →
     (translate entity classtypes w).1 = SysExit (Some 1%Z) ∧
     exit_status (Some 1%Z) = 1%Z) ∧
  (∀ arg,
     (translate entity classtypes w).1 = SysExit arg →
     (run_errors entity classtypes w ≠ [] ∧ arg = None ∧
      exit_status arg = 0%Z) ∨
     (run_errors entity classtypes w = [] ∧ arg = Some 1%Z ∧
      exit_status arg = 1%Z ∧
      ∃ a, a ∈ values (pk_workunits (run_members entity classtypes w)) ∧
           last (w_log (translate entity classtypes w).2) =
           Some (EvPrint (failure_message a)))).
Proof.
  split; [|split].
  - intros Herr. split; [|done]. rewrite translate_checked.
    by destruct (run_errors entity classtypes w).
  - intros cts w2 fns w3 pre n a post st_k w_k members Herr Hc Hf Hs Hp Hv.
    split; [|done].
    by rewrite (workunit_fault_exit _ _ _ _ _ _ _ _ _ _ _ _ _
                  Herr Hc Hf Hs Hp Hv).
  - intros arg.
    destruct (translate_cases entity classtypes w) as (o & w' & -> & Hr).
    simpl. intros ->.
    inversion Hr as [Herr|
                    |h es pre a post Herr Hes Hv|]; subst.
    + by left.
    + right. split; [done|]. split; [done|]. split; [done|].
      exists a. split.
      * rewrite Hv. apply elem_of_app. right. by left.
      * unfold upd, function_events. cbn [w_log snd].
        repeat first [apply last_snoc | apply last_app_Some
                     | apply last_cons_Some].
Qed.

End RunExact.

(** ** Further properties of the code

    What the methods do beyond the properties above: their edge cases,
    what they leave unchanged, and how they compose. *)

Section AstCoverage.
Import Ast.

Lemma walk_queue_length todo : length (walk_queue todo) = todo_size todo.
Proof.
  funelim (walk_queue todo); simp walk_queue; [done|].
  cbn [length]. rewrite H. unfold todo_size.
  rewrite map_app, sum_list_with_app. destruct node as [i c s ks].
  cbn. lia.
Qed.

(** X1.  [ast.walk] yields the root first, then exactly the nodes below
    it, one for each place a node has in the tree. *)
Theorem walk_visits_tree classdef :
  head (walk classdef) = Some classdef ∧
  length (walk classdef) = ast_size classdef ∧
  ∀ node, node ∈ walk classdef ↔ subnode node classdef.
Proof.
  split; [by rewrite walk_children|]. split.
  - unfold walk. rewrite walk_queue_length. unfold todo_size. cbn. lia.
  - intros node. split; [apply walk_sound|apply walk_complete].
Qed.

Lemma walk_tail classdef :
  tail (walk classdef) = concat (map iter_child_nodes (walk classdef)).
Proof. by rewrite walk_children at 1. Qed.

(** X2.  [add_parent_refs] sets [parent] on the nodes [ast.walk] yields
    after the root and on nothing else: these nodes all have a parent
    afterwards, and the attribute of every other node, the root first,
    is what it was before. *)
Theorem add_parent_refs_frame classdef σ :
  dom (add_parent_refs classdef σ) =
    dom σ ∪ list_to_set (map nid (tail (walk classdef))) ∧
  ∀ k, k ∉ map nid (tail (walk classdef)) →
       add_parent_refs classdef σ !! k = σ !! k.
Proof.
  rewrite add_parent_refs_assign, walk_tail, <- edges_keys.
  generalize (edges (walk classdef)). intros es. split.
  - apply set_eq. intros k.
    rewrite elem_of_union, !elem_of_dom, elem_of_list_to_set.
    destruct (decide (k ∈ es.*1)) as [Hk|Hk].
    + destruct (assign_in es k Hk) as (p & _ & Hl). rewrite Hl.
      split; [by right|by eexists].
    + rewrite assign_notin by done. split; [by left|by intros [?|?]].
  - intros k Hk. by apply assign_notin.
Qed.

Lemma link_store_assign σ trees :
  link_store σ trees = assign σ (concat (map (λ t, edges (walk t)) trees)).
Proof.
  unfold link_store. revert σ.
  induction trees as [|t trees IH]; intros σ; [done|].
  cbn. rewrite assign_app, <- add_parent_refs_assign. apply IH.
Qed.

Lemma link_store_idempotent σ trees :
  link_store (link_store σ trees) trees = link_store σ trees.
Proof. rewrite !link_store_assign. apply assign_idempotent. Qed.

End AstCoverage.

Section RunCoverage.
Import PyObj Ast Static.
Context `{Collaborators}.
Local Open Scope py_scope.

Lemma omap_none {A B} (sel : A → option B) l :
  Forall (λ a, sel a = None) l → omap sel l = [].
Proof.
  induction 1 as [|a l Ha _ IH]; [done|].
  cbn [omap list_omap]. by rewrite Ha, IH.
Qed.

Lemma omap_map_none {A B C} (sel : A → option B) (f : C → A) l :
  (∀ c, sel (f c) = None) → omap sel (map f l) = [].
Proof.
  intros Hf. apply omap_none, Forall_forall.
  intros e (a & -> & _)%list_elem_of_fmap. apply Hf.
Qed.

Lemma omap_map_some {A B} (sel : A → option B) (f : B → A) l :
  (∀ b, sel (f b) = Some b) → omap sel (map f l) = l.
Proof.
  intros Hf. induction l as [|b l IH]; [done|].
  cbn [map omap list_omap]. by rewrite Hf, IH.
Qed.

Lemma omap_stage_none {B} (sel : event → option B) s es :
  (∀ e, in_stage s e → sel e = None) →
  Forall (in_stage s) es → omap sel es = [].
Proof.
  intros Hs Hes. apply omap_none. eapply Forall_impl; [exact Hes|done].
Qed.

Lemma printed_app es1 es2 : printed (es1 ++ es2) = printed es1 ++ printed es2.
Proof. apply omap_app. Qed.

Lemma printed_other es :
  Forall (λ e, stage_of e ≠ None) es → printed es = [].
Proof.
  induction 1 as [|e es He _ IH]; [done|].
  unfold printed in *. cbn [omap list_omap]. rewrite IH.
  by destruct e.
Qed.

Lemma printed_map_other {A} (f : A → event) l :
  (∀ a, stage_of (f a) ≠ None) → printed (map f l) = [].
Proof.
  intros Hf. apply printed_other, Forall_forall.
  intros e (a & -> & _)%list_elem_of_fmap. apply Hf.
Qed.

Lemma printed_lines lines : printed (map EvPrint lines) = lines.
Proof. induction lines as [|l lines IH]; [done|]. simpl. by f_equal. Qed.

Lemma printed_stage s es : Forall (in_stage s) es → printed es = [].
Proof.
  intros Hs. apply printed_other. eapply Forall_impl; [exact Hs|].
  intros e He. unfold in_stage in He. by rewrite He.
Qed.

Lemma printed_check_events entity classtypes w :
  printed (check_events entity classtypes w) = run_errors entity classtypes w.
Proof.
  unfold check_events. change (EvCheckSymbols :: ?l) with ([EvCheckSymbols] ++ l).
  rewrite !printed_app, printed_lines, (printed_map_other EvSymbolsPass) by done.
  done.
Qed.

Lemma printed_function_events entity classtypes w :
  printed (function_events entity classtypes w) = [].
Proof.
  unfold function_events.
  change (EvTranslateFunctions :: ?l) with ([EvTranslateFunctions] ++ l).
  by rewrite printed_app, (printed_map_other EvFunctionVisit).
Qed.

Lemma visited_functions_classtypes es :
  Forall (in_stage TranslateClasstypes) es → visited_functions es = [].
Proof. apply omap_stage_none. by intros []. Qed.

Lemma visited_workunits_classtypes es :
  Forall (in_stage TranslateClasstypes) es → visited_workunits es = [].
Proof. apply omap_stage_none. by intros []. Qed.

Lemma visited_check_events entity classtypes w :
  visited_functions (check_events entity classtypes w) = [] ∧
  visited_workunits (check_events entity classtypes w) = [].
Proof.
  unfold check_events, visited_functions, visited_workunits.
  change (EvCheckSymbols :: ?l) with ([EvCheckSymbols] ++ l).
  rewrite !omap_app.
  by rewrite !(omap_map_none _ EvSymbolsPass), !(omap_map_none _ EvPrint).
Qed.

Lemma visited_function_events entity classtypes w :
  visited_functions (function_events entity classtypes w) =
    values (pk_functions (run_members entity classtypes w)) ∧
  visited_workunits (function_events entity classtypes w) = [].
Proof.
  unfold function_events, visited_functions, visited_workunits.
  change (EvTranslateFunctions :: ?l) with ([EvTranslateFunctions] ++ l).
  rewrite !omap_app.
  by rewrite (omap_map_some _ EvFunctionVisit), (omap_map_none _ EvFunctionVisit).
Qed.

(** *** [translate] *)

(** X3.  Whatever way a run of [translate] ends, it leaves the
    translator bound to the import name of the entity and to the members
    extracted for it, keeps [module_file] and [functor_file], and leaves
    every tree linked. *)
Theorem translate_binds_self entity classtypes w :
  let w' := (translate entity classtypes w).2 in
  self_pk_import (w_self w') = Some (pk_import entity) ∧
  self_pk_members (w_self w') = Some (run_members entity classtypes w) ∧
  module_file (w_self w') = module_file (w_self w) ∧
  functor_file (w_self w') = functor_file (w_self w) ∧
  w_parents w' =
    link_store (w_parents w) (AST entity :: map AST classtypes).
Proof.
  destruct (translate_cases entity classtypes w) as (o & w' & -> & Hr).
  apply run_case_rest in Hr as (h & rest & -> & _). done.
Qed.

(** X4.  However a run of [translate] ends, it has linked the tree of the
    entity and the tree of every classtype: each child of a node of one
    of these trees carries the identity of a node of one of them that
    has it among its children. *)
Theorem translate_links_every_tree entity classtypes w tree node child :
  tree ∈ AST entity :: map AST classtypes →
  subnode node tree → child ∈ iter_child_nodes node →
  ∃ tree' parent,
    tree' ∈ AST entity :: map AST classtypes ∧
    subnode parent tree' ∧
    nid child ∈ map nid (iter_child_nodes parent) ∧
    w_parents (translate entity classtypes w).2 !! nid child =
      Some (nid parent).
Proof.
  intros Ht Hn%walk_complete Hc.
  destruct (translate_cases entity classtypes w) as (o & w' & -> & Hr).
  apply run_case_rest in Hr as (h & rest & -> & _).
  cbn [snd upd w_parents linked].
  rewrite link_store_assign.
  set (trees := AST entity :: map AST classtypes) in *.
  destruct (assign_in (concat (map (λ t, edges (walk t)) trees)) (nid child))
    as (p & Hp & Hl).
  { apply list_elem_of_fmap. exists (nid child, nid node). split; [done|].
    apply elem_of_concat. exists (edges (walk tree)).
    split; [by apply edge_in|].
    apply list_elem_of_fmap. by exists tree. }
  apply elem_of_concat in Hp as (es & Hp & Hes).
  apply list_elem_of_fmap in Hes as (tree' & -> & Htree').
  apply edge_inv in Hp as (parent & child' & Hparent & Hchild' & Hk & ->).
  exists tree', parent. split; [done|]. split; [by apply walk_sound|].
  split; [|apply Hl]. rewrite Hk. by apply list_elem_of_fmap_2.
Qed.

(** X5.  Compiling the same entity a second time, whatever the first run
    did: no parent link changes, the members extracted are the same,
    and so are the diagnostics of the symbol pass; a compilation that
    was rejected is rejected again with the same lines. *)
Theorem translate_again entity classtypes w :
  let w1 := (translate entity classtypes w).2 in
  w_parents (translate entity classtypes w1).2 = w_parents w1 ∧
  run_members entity classtypes w1 = run_members entity classtypes w ∧
  run_errors entity classtypes w1 = run_errors entity classtypes w ∧
  ((translate entity classtypes w).1 = SysExit None →
   (translate entity classtypes w1).1 = SysExit None).
Proof.
  intros w1.
  assert (w_parents w1 =
          link_store (w_parents w) (AST entity :: map AST classtypes)) as Hσ.
  { unfold w1.
    destruct (translate_cases entity classtypes w) as (o & w' & -> & Hr).
    by apply run_case_rest in Hr as (h & rest & -> & _). }
  assert (run_members entity classtypes w1 = run_members entity classtypes w)
    as Hm.
  { unfold run_members. by rewrite Hσ, link_store_idempotent. }
  assert (run_errors entity classtypes w1 = run_errors entity classtypes w)
    as He.
  { unfold run_errors, run_bodies. by rewrite Hm, Hσ, link_store_idempotent. }
  split; [|split; [done|split; [done|]]].
  - destruct (translate_cases entity classtypes w1) as (o & w' & -> & Hr).
    apply run_case_rest in Hr as (h & rest & -> & _).
    cbn [snd upd linked w_parents]. by rewrite Hσ, link_store_idempotent.
  - destruct (translate_cases entity classtypes w) as (o & w' & Ht & Hr).
    rewrite Ht. cbn [fst]. intros ->.
    assert (run_errors entity classtypes w ≠ []) as Herr.
    { inversion Hr; subst; done. }
    rewrite <- He in Herr.
    destruct (translate_cases entity classtypes w1) as (o1 & w1' & -> & Hr1).
    by destruct Hr1.
Qed.

(** X6.  A run prints only when it is about to exit: the diagnostics of
    the symbol pass, in the order in which the bodies were checked,
    before [sys.exit()]; the one line naming a workunit before
    [sys.exit(1)]; nothing when it returns or raises. *)
Theorem translate_prints_before_exit entity classtypes w :
  ∃ es,
    w_log (translate entity classtypes w).2 = w_log w ++ es ∧
    match (translate entity classtypes w).1 with
    | Return _ | Raised => printed es = []
    | SysExit None =>
        printed es = run_errors entity classtypes w ∧ printed es ≠ []
    | SysExit (Some _) =>
        ∃ a, a ∈ values (pk_workunits (run_members entity classtypes w)) ∧
             printed es = [failure_message a]
    end.
Proof.
  destruct (translate_cases entity classtypes w) as (o & w' & -> & Hr).
  cbn [fst snd].
  destruct Hr as [Herr|h es Herr Hes|h es pre a post Herr Hes Hv
                 |h es ds fs fns wus Herr Hes Hlen Hall r];
    eexists; (split; [unfold upd, linked; cbn [w_log];
                      rewrite <- !app_assoc; reflexivity|]).
  - rewrite !printed_app, (printed_map_other EvAddParentRefs) by done.
    change (printed [EvExtract]) with (@nil string).
    rewrite printed_check_events. done.
  - rewrite !printed_app, (printed_map_other EvAddParentRefs) by done.
    rewrite printed_check_events, Herr.
    change (EvTranslateClasstypes :: es) with ([EvTranslateClasstypes] ++ es).
    by rewrite printed_app, (printed_stage _ es Hes).
  - exists a. split; [rewrite Hv; apply elem_of_app; right; by left|].
    rewrite !printed_app, (printed_map_other EvAddParentRefs) by done.
    rewrite printed_check_events, Herr.
    change (EvTranslateClasstypes :: ?l) with ([EvTranslateClasstypes] ++ l).
    rewrite !printed_app, (printed_stage _ es Hes),
      printed_function_events.
    change (EvTranslateWorkunits :: ?l) with ([EvTranslateWorkunits] ++ l).
    by rewrite !printed_app, (printed_map_other EvWorkunitVisit).
  - rewrite !printed_app, (printed_map_other EvAddParentRefs) by done.
    rewrite printed_check_events, Herr.
    change (EvTranslateClasstypes :: ?l) with ([EvTranslateClasstypes] ++ l).
    rewrite !printed_app, (printed_stage _ es Hes),
      printed_function_events.
    change (EvTranslateWorkunits :: ?l) with ([EvTranslateWorkunits] ++ l).
    rewrite !printed_app, (printed_map_other EvWorkunitVisit) by done.
    by rewrite (printed_map_other EvSerialize).
Qed.

(** X7.  In every run each helper function and each workunit is visited
    at most once and in table order.  A run that returns has visited
    all of them; a run that ends in [sys.exit(1)] has visited every
    function, and the workunits up to the one that failed; a run that
    ends before (rejected symbols, a classtype that cannot be cloned)
    has visited none. *)
Theorem translate_visits_in_order entity classtypes w :
  let members := run_members entity classtypes w in
  ∃ es,
    w_log (translate entity classtypes w).2 = w_log w ++ es ∧
    match (translate entity classtypes w).1 with
    | Return _ =>
        visited_functions es = values (pk_functions members) ∧
        visited_workunits es = values (pk_workunits members)
    | SysExit (Some _) =>
        visited_functions es = values (pk_functions members) ∧
        ∃ pre a post,
          values (pk_workunits members) = pre ++ a :: post ∧
          visited_workunits es = pre ++ [a]
    | SysExit None | Raised =>
        visited_functions es = [] ∧ visited_workunits es = []
    end.
Proof.
  intros members.
  destruct (translate_cases entity classtypes w) as (o & w' & -> & Hr).
  cbn [fst snd].
  pose proof (visited_check_events entity classtypes w) as [Hcf Hcw].
  pose proof (visited_function_events entity classtypes w) as [Hff Hfw].
  fold members in Hff.
  destruct Hr as [Herr|h es Herr Hes|h es pre a post Herr Hes Hv
                 |h es ds fs fns wus Herr Hes Hlen Hall r];
    eexists; (split; [unfold upd, linked; cbn [w_log];
                      rewrite <- !app_assoc; reflexivity|]);
    try pose proof (visited_functions_classtypes _ Hes) as Hef;
    try pose proof (visited_workunits_classtypes _ Hes) as Hew;
    unfold visited_functions, visited_workunits in *;
    repeat match goal with
           | |- context [?e :: ?l ++ ?l'] =>
               change (e :: l ++ l') with ([e] ++ l ++ l')
           | |- context [EvTranslateClasstypes :: es] =>
               change (EvTranslateClasstypes :: es)
                 with ([EvTranslateClasstypes] ++ es)
           end;
    rewrite !omap_app, !(omap_map_none _ EvAddParentRefs) by done;
    rewrite ?Hcf, ?Hcw, ?Hef, ?Hew, ?Hff, ?Hfw;
    try (rewrite (omap_map_some
                    (λ e, match e with EvWorkunitVisit w => Some w | _ => None end)
                    EvWorkunitVisit) by done);
    try (rewrite (omap_map_none
                    (λ e, match e with EvFunctionVisit f => Some f | _ => None end)
                    EvWorkunitVisit) by done);
    try (rewrite !(omap_map_none _ EvSerialize) by done);
    cbn [omap list_omap app]; rewrite ?app_nil_r.
  - done.
  - done.
  - split; [done|]. by exists pre, a, post.
  - done.
Qed.

(** X8.  The kernel source of a run that returns has two fragments per
    classtype besides the generator stamp and the record, and the
    binding source has at least the stamp and the include block. *)
Theorem artifact_sizes entity classtypes w functor bindings :
  (translate entity classtypes w).1 = Return (functor, bindings) →
  length functor = 2 * length classtypes + 2 ∧ 2 ≤ length bindings.
Proof.
  destruct (translate_cases entity classtypes w) as (o & w' & -> & Hr).
  cbn [fst]. intros ->.
  inversion Hr as [| | |h0 es ds fs fns wus Herr Hes Hlen Hall r Ho Hw];
    subst.
  pose proof (Forall3_length_lr _ _ _ _ Hall) as Hfs.
  cbn [length]. rewrite length_app, length_map, length_app. cbn [length].
  split; lia.
Qed.

Lemma translate_classtypes_nil w :
  translate_classtypes [] w =
  (Return [], upd w (w_heap w) [EvTranslateClasstypes]).
Proof. done. Qed.

Lemma translate_functions_nil source w members import :
  bound w members import → pk_functions members = [] →
  translate_functions source w =
  (Return [], upd w (w_heap w) [EvTranslateFunctions]).
Proof.
  intros [Hm Hi] Hfns.
  unfold translate_functions, get_pk_members, get_pk_import, bind, get_self,
    emit, ret. cbn. rewrite Hm. cbn. rewrite Hi, Hfns. done.
Qed.

Lemma translate_workunits_nil source w members import :
  bound w members import → pk_workunits members = [] →
  translate_workunits source w =
  (Return [], upd w (w_heap w) [EvTranslateWorkunits]).
Proof.
  intros Hb Hwus. rewrite (translate_workunits_unfold _ _ _ _ Hb).
  by rewrite Hwus.
Qed.

(** X9.  An entity without drivers, workunits and helper functions,
    compiled without classtypes: the symbol pass is not called, so the
    run cannot be rejected; it returns the stamp and the record as the
    kernel source, and the stamp, the include block and the fragments of
    the binding generator as the binding source. *)
Theorem translate_nothing_to_translate entity w :
  let members := run_members entity [] w in
  pk_mains members = [] → pk_workunits members = [] →
  pk_functions members = [] →
  let functor_name := "pk_functor_" +:+ name entity in
  let r := generate_functor functor_name members [] [] (w_heap w) in
  translate entity [] w =
    (Return
       ([generate_header; Serializer_serialize r.2 r.1],
        generate_header :: generate_includes (w_self w) ::
          (if decide (style entity = workload) then
             bind_main functor_name members (source entity)
               (pk_import entity) (module_file (w_self w)) r.2
           else
             bind_workunits functor_name members []
               (module_file (w_self w)) r.2)),
     upd (linked entity [] w) r.2
       [EvCheckSymbols; EvTranslateClasstypes; EvTranslateFunctions;
        EvTranslateWorkunits; EvGenerateFunctor; EvGenerateBindings;
        EvSerialize r.1]).
Proof.
  intros members Hmains Hwus Hfns functor_name r.
  rewrite translate_eq. unfold bind at 1.
  pose proof (linked_bound entity [] w) as Hb.
  rewrite (check_symbols_run _ _ _ _ _ Hb). cbv zeta.
  fold members. unfold symbol_bodies. rewrite Hmains, Hwus, Hfns.
  cbn [values fmap list_fmap map app diagnostics run_pass fst].
  unfold after_symbols.
  unfold bind at 1. rewrite translate_classtypes_nil.
  unfold bind at 1.
  rewrite (translate_functions_nil _ _ members (pk_import entity)) by done.
  unfold bind at 1.
  rewrite (translate_workunits_nil _ _ members (pk_import entity)) by done.
  rewrite (after_workunits_run _ _ _ _ _ _ _ members (pk_import entity)) by done.
  cbv zeta. rewrite !upd_upd. unfold bindings_of. done.
Qed.

(** *** [__init__] and [check_symbols] *)

(** X10.  The methods that read [self.pk_members] or [self.pk_import]
    raise on a translator on which [translate] has not been called:
    [__init__] only declares these attributes.  The classtype loop reads
    them in its body, so it raises only if there is a classtype. *)
Theorem methods_need_translate w classtypes path source entity functor_name
    workunits :
  unbound w →
  (check_symbols classtypes path w).1 = Raised ∧
  (translate_functions source w).1 = Raised ∧
  (translate_workunits source w).1 = Raised ∧
  (generate_bindings entity functor_name source workunits w).1 = Raised ∧
  (translate_classtypes classtypes w).1 =
    match classtypes with [] => Return [] | _ :: _ => Raised end.
Proof.
  intros [Hm Hi].
  unfold check_symbols, translate_functions, translate_workunits,
    generate_bindings, translate_classtypes, get_pk_members, get_pk_import,
    bind, get_self, emit, raise. cbn [w_self fst].
  rewrite !Hm. cbn. split; [done|]. split; [done|]. split; [done|].
  split; [by destruct (decide (style entity = workload)); cbn; rewrite Hm|].
  destruct classtypes as [|c cs]; [done|].
  cbn. unfold translate_classtype, get_pk_members, bind, get_self, raise.
  cbn. by rewrite Hm.
Qed.

(** X11.  [check_symbols] on a bound translator: every body is checked,
    every diagnostic is printed in the order found, and the call returns
    exactly when there is none; the store of IR, the parent links and
    the translator itself are left as they were. *)
Theorem check_symbols_verdict classtypes path w members import :
  bound w members import →
  ∃ es,
    (check_symbols classtypes path w).2 = upd w (w_heap w) es ∧
    checked es = symbol_bodies members classtypes ∧
    printed es =
      diagnostics (SymbolsPass_new members import path) (w_parents w)
        (symbol_bodies members classtypes) ∧
    ((check_symbols classtypes path w).1 = Return tt ↔ printed es = []) ∧
    ((check_symbols classtypes path w).1 = SysExit None ↔ printed es ≠ []).
Proof.
  intros Hb. rewrite (check_symbols_run _ _ _ _ _ Hb). cbv zeta.
  set (errors := diagnostics _ _ _).
  set (bodies := symbol_bodies _ _).
  eexists. split; [reflexivity|]. cbn [fst].
  change (EvCheckSymbols :: ?l) with ([EvCheckSymbols] ++ l).
  unfold checked, printed. rewrite !omap_app.
  rewrite (omap_map_some _ EvSymbolsPass), (omap_map_some _ EvPrint) by done.
  rewrite (omap_map_none _ EvPrint), (omap_map_none _ EvSymbolsPass) by done.
  cbn [omap list_omap app]. rewrite app_nil_r.
  split; [done|]. split; [done|].
  destruct errors; split; split; done.
Qed.

(** *** [translate_classtypes] *)

Lemma translate_classtype_events ds0 fs0 c w members import :
  bound w members import →
  let f := (fresh_visit members import c (w_parents w) (w_heap w)).1 in
  ∃ o h,
    translate_classtype (ds0, fs0) c w =
      (o, upd w h [EvClasstypeVisit (AST c); EvDeepcopy f]) ∧
    match o with
    | Return st => ∃ d, st = (ds0 ++ [d], fs0 ++ [f])
    | SysExit _ => False
    | Raised => True
    end.
Proof.
  intros Hb. rewrite (translate_classtype_unfold _ _ _ _ _ _ Hb). cbv zeta.
  unfold fresh_visit.
  destruct (ClasstypeVisitor_visit _ _ _ _) as [f h1]. cbn [fst snd].
  unfold bind. rewrite clone_declaration_run. cbn [w_heap upd].
  destruct (deepcopy f h1) as [[d h2]|];
    [destruct (setattr d _ _ h2) as [h3|]|].
  - eexists _, h3. split; [unfold ret, upd; cbn; by rewrite <- app_assoc|].
    by exists d.
  - eexists _, h2. split; [unfold upd; cbn; by rewrite <- app_assoc|done].
  - eexists _, h1. split; [unfold upd; cbn; by rewrite <- app_assoc|done].
Qed.

Lemma classtypes_loop_events cs members import : ∀ ds0 fs0 w,
  bound w members import →
  ∃ o w',
    for_fold cs (ds0, fs0) translate_classtype w = (o, w') ∧
    match o with
    | Return st =>
        ∃ ds fs h, st = (ds0 ++ ds, fs0 ++ fs) ∧
                   length ds = length cs ∧
                   Forall2 (λ c f, ∃ h0,
                              f = (fresh_visit members import c
                                     (w_parents w) h0).1) cs fs ∧
                   w' = upd w h (classtype_events cs fs)
    | SysExit _ => False
    | Raised => True
    end.
Proof.
  induction cs as [|c cs IH]; intros ds0 fs0 w Hb.
  - exists (Return (ds0, fs0)), w. split; [done|].
    exists [], [], (w_heap w). rewrite !app_nil_r.
    unfold classtype_events. cbn. by rewrite upd_nil.
  - destruct (translate_classtype_events ds0 fs0 c w _ _ Hb)
      as (o & h & Hc & Ho).
    set (f := (fresh_visit members import c (w_parents w) (w_heap w)).1) in *.
    rewrite for_fold_cons. unfold bind. rewrite Hc.
    destruct o as [st| |]; [|done|by eexists _, _].
    destruct Ho as (d & ->).
    destruct (IH (ds0 ++ [d]) (fs0 ++ [f])
                (upd w h [EvClasstypeVisit (AST c); EvDeepcopy f]))
      as (o' & w' & Hr & Ho'); [done|].
    exists o', w'. split; [done|].
    destruct o' as [st'| |]; [|done..].
    destruct Ho' as (ds & fs & h' & -> & Hds & Hall & ->).
    exists (d :: ds), (f :: fs), h'. rewrite <- !app_assoc. cbn [app length].
    split; [done|]. split; [by rewrite Hds|]. split.
    + constructor; [by eexists|done].
    + by rewrite upd_upd.
Qed.

(** X12.  [translate_classtypes] on a bound translator never exits.  When
    it returns, it has visited every classtype once and in order, each
    with a visitor made for it from its own source, has copied what
    each visit returned right after the visit, and its result is as
    many declarations as there are classtypes followed by the
    definitions the visits returned. *)
Theorem translate_classtypes_pairs classtypes w members import :
  bound w members import →
  match (translate_classtypes classtypes w).1 with
  | Return cts =>
      ∃ declarations definitions h,
        cts = declarations ++ definitions ∧
        length declarations = length classtypes ∧
        Forall2 (λ c f, ∃ h0,
                   f = (fresh_visit members import c (w_parents w) h0).1)
          classtypes definitions ∧
        (translate_classtypes classtypes w).2 =
          upd w h
            (EvTranslateClasstypes ::
             classtype_events classtypes definitions)
  | SysExit _ => False
  | Raised => True
  end.
Proof.
  intros Hb. unfold translate_classtypes. unfold bind at 1. cbn.
  match goal with
  | |- context [bind _ _ ?w1] =>
      destruct (classtypes_loop_events classtypes members import [] [] w1)
        as (o & w' & Hr & Ho); [done|]
  end.
  unfold bind. rewrite Hr. destruct o as [st| |]; [|done..].
  destruct Ho as (ds & fs & h & -> & Hds & Hall & ->). cbn.
  exists ds, fs, h. split; [done|]. split; [done|]. split; [done|].
  unfold upd. cbn. by rewrite <- app_assoc.
Qed.

Lemma extends_refl h : extends h h.
Proof. by intros l o. Qed.

Lemma extends_trans h1 h2 h3 : extends h1 h2 → extends h2 h3 → extends h1 h3.
Proof. intros H12 H23 l o Hl. by apply H23, H12. Qed.

Lemma getattr_extends h h' target k v :
  extends h h' → getattr target k h = Some v → getattr target k h' = Some v.
Proof.
  intros He. destruct target as [| | | |l]; try done. cbn.
  destruct (h !! l) as [o|] eqn:El; [|done]. by rewrite (He _ _ El).
Qed.

(** Lines 149 and 150 on a record of a store without dangling
    references: they succeed, and the store they leave has no dangling
    reference either. *)
Lemma clone_closed w (x : loc) cls attrs :
  closed (w_heap w) → w_heap w !! x = Some (OInst cls attrs) →
  ∃ (y : loc) h',
    clone_declaration (VRef x) w =
      (Return (VRef y), upd w h' [EvDeepcopy (VRef x)]) ∧
    closed h' ∧ extends (w_heap w) h' ∧
    getattr (VRef y) "is_definition" h' = Some (VBool false).
Proof.
  intros Hc Hx.
  destruct (clone_spec _ _ _ _ Hc Hx)
    as (y & m & h1 & st & Hd & Hs & Hy & F & Hinj & Hy1 & Hrel & Hiso).
  pose proof (lookup_lt_Some _ _ _ Hy1) as Hylt.
  assert (length (w_heap w) ≤ y) as Hfresh.
  { destruct (cf_img _ _ _ _ F _ _ Hy) as [Hk|Hk]; [|lia].
    by rewrite lookup_empty in Hk. }
  assert (∀ r a, m !! a = Some r → r < length h1) as Himg.
  { intros r a Ha. destruct (cf_img _ _ _ _ F _ _ Ha) as [Hk|Hk]; [|lia].
    by rewrite lookup_empty in Hk. }
  eexists y, _. rewrite clone_declaration_run, Hd, Hs.
  split; [done|]. split; [|split].
  - intros l o r Hl Hr. rewrite length_insert.
    destruct (decide (l = y)) as [->|Hne].
    + rewrite list_lookup_insert_eq in Hl by done. injection Hl as <-.
      cbn in Hr. apply dict_set_values in Hr as [Hr|Hr]; [done|].
      destruct (orel_refs m (OInst cls attrs) (OInst cls st) r) as [a Ha];
        [by split|done|]. by eapply Himg.
    + rewrite list_lookup_insert_ne in Hl by done.
      destruct (decide (l < length (w_heap w))) as [Hlt|Hge].
      * rewrite (cf_old _ _ _ _ F) in Hl by done.
        pose proof (Hc _ _ _ Hl Hr). pose proof (cf_len _ _ _ _ F). lia.
      * destruct (cf_new _ _ _ _ F l) as [a0 Ha0];
          [lia|by eapply lookup_lt_Some|].
        destruct (Hiso _ _ Ha0) as (o1 & o1' & _ & Ho1' & Hrel1).
        rewrite Hl in Ho1'. injection Ho1' as <-.
        destruct (orel_refs _ _ _ r Hrel1 Hr) as [a Ha]. by eapply Himg.
  - intros l o Hl. pose proof (lookup_lt_Some _ _ _ Hl).
    rewrite list_lookup_insert_ne by lia.
    by rewrite (cf_old _ _ _ _ F).
  - cbn. rewrite list_lookup_insert_eq by done. apply dict_get_set_eq.
Qed.

Lemma classtypes_loop_returns cs members import :
  builds_records → ∀ ds0 fs0 w,
  bound w members import → closed (w_heap w) →
  ∃ ds fs w',
    for_fold cs (ds0, fs0) translate_classtype w =
      (Return (ds0 ++ ds, fs0 ++ fs), w') ∧
    length ds = length cs ∧ length fs = length cs ∧
    bound w' members import ∧
    closed (w_heap w') ∧ extends (w_heap w) (w_heap w') ∧
    Forall (λ d, getattr d "is_definition" (w_heap w') = Some (VBool false))
      ds.
Proof.
  intros Hrec. induction cs as [|c cs IH]; intros ds0 fs0 w Hb Hc.
  - exists [], [], w. rewrite !app_nil_r. do 5 (split; [done|]).
    split; [apply extends_refl|done].
  - rewrite for_fold_cons. unfold bind.
    rewrite (translate_classtype_unfold _ _ _ _ _ _ Hb). cbv zeta.
    match goal with
    | |- context [ClasstypeVisitor_visit ?nv ?σ ?a ?h] =>
        destruct (Hrec nv σ a h Hc) as (Hc1 & He1 & x & cls & attrs & Hx & Hx1);
        set (r := ClasstypeVisitor_visit nv σ a h) in *
    end.
    rewrite Hx. unfold bind.
    destruct (clone_closed (upd w r.2 [EvClasstypeVisit (AST c)]) x cls attrs)
      as (y & h2 & Hclone & Hc2 & He2 & Hflag); [done..|].
    rewrite Hclone. unfold ret.
    match goal with
    | |- context [for_fold cs ?st _ ?w2] =>
        destruct (IH (ds0 ++ [VRef y]) (fs0 ++ [VRef x]) w2)
          as (ds & fs & w' & Hr & Hds & Hfs & Hb' & Hc' & He' & Hall);
        [done|done|]
    end.
    rewrite Hr. exists (VRef y :: ds), (VRef x :: fs), w'.
    rewrite <- !app_assoc. split; [done|]. cbn [length].
    split; [by rewrite Hds|]. split; [by rewrite Hfs|].
    split; [done|]. split; [done|]. split.
    + eapply extends_trans; [exact He1|].
      eapply extends_trans; [exact He2|exact He'].
    + constructor; [|done]. by eapply getattr_extends.
Qed.

(** X13.  When the classtype visitor builds records and
    [translate_classtypes] returns, it returns one declaration and one
    definition per classtype, every declaration still has
    [is_definition] false at that point, no object that existed before
    the call has been changed, and no reference dangles. *)
Theorem translate_classtypes_keeps_flags classtypes w members import cts w' :
  builds_records → bound w members import → closed (w_heap w) →
  translate_classtypes classtypes w = (Return cts, w') →
  ∃ declarations definitions,
    cts = declarations ++ definitions ∧
    length declarations = length classtypes ∧
    length definitions = length classtypes ∧
    closed (w_heap w') ∧ extends (w_heap w) (w_heap w') ∧
    Forall (λ d, getattr d "is_definition" (w_heap w') = Some (VBool false))
      declarations.
Proof.
  intros Hrec Hb Hc. rewrite translate_classtypes_loop.
  destruct (classtypes_loop_returns classtypes members import Hrec [] []
              (upd w (w_heap w) [EvTranslateClasstypes]))
    as (ds & fs & w1 & Hr & Hds & Hfs & _ & Hc' & He' & Hall); [done|done|].
  unfold bind. rewrite Hr. unfold ret. cbn [fst snd app].
  intros [= <- <-]. by exists ds, fs.
Qed.


Lemma deepcopy_atom v h : is_atom v → deepcopy v h = Some (v, h).
Proof. unfold deepcopy. by destruct (length h), v. Qed.

(** X14.  A classtype visitor that returns no object ([None], as
    [generic_visit] does, or any other atomic value) makes the loop
    raise at line 150, after the copy: the value has no attribute to
    set.  Nothing is appended to either list and nothing is printed. *)
Theorem classtype_without_record_raises ds fs c w members import :
  bound w members import →
  let r :=
    ClasstypeVisitor_visit
      (ClasstypeVisitor_new (source c) (views members) (pk_workunits members)
         (fields members) (pk_functions members) (classtype_methods members)
         import true)
      (w_parents w) (AST c) (w_heap w) in
  is_atom r.1 →
  translate_classtype (ds, fs) c w =
    (Raised, upd w r.2 [EvClasstypeVisit (AST c); EvDeepcopy r.1]).
Proof.
  intros Hb r Hatom.
  rewrite (translate_classtype_unfold _ _ _ _ _ _ Hb). fold r. cbv zeta.
  clearbody r. destruct r as [v h1]. cbn [fst snd] in *.
  unfold bind. rewrite clone_declaration_run. cbn [w_heap upd].
  rewrite (deepcopy_atom _ _ Hatom).
  destruct v; try done; cbn; unfold upd; cbn; by rewrite <- app_assoc.
Qed.

Lemma dict_get_related (m : memo) attrs st k v :
  Forall2 (kvrel m) attrs st → dict_get k attrs = Some v →
  ∃ v', dict_get k st = Some v' ∧ vrel m v v'.
Proof.
  induction 1 as [|[k0 v0] [k1 v1] attrs st [Hk Hv] _ IH]; [done|].
  cbn in Hk, Hv. subst k1. cbn. case_decide; [|done].
  intros [= <-]. by exists v1.
Qed.

(** X15.  The declaration keeps the aliasing of the definition.  Two
    attributes of the definition that name the same object name the
    same object in the declaration, two that name different objects
    name different ones, and an attribute that names the definition
    itself names the declaration in the declaration. *)
Theorem declaration_keeps_sharing w (x : loc) cls attrs :
  closed (w_heap w) → w_heap w !! x = Some (OInst cls attrs) →
  ∃ (y : loc) w',
    clone_declaration (VRef x) w = (Return (VRef y), w') ∧
    ∀ k1 k2 (r1 r2 : loc),
      k1 ≠ "is_definition" → k2 ≠ "is_definition" →
      getattr (VRef x) k1 (w_heap w) = Some (VRef r1) →
      getattr (VRef x) k2 (w_heap w) = Some (VRef r2) →
      ∃ r1' r2' : loc,
        getattr (VRef y) k1 (w_heap w') = Some (VRef r1') ∧
        getattr (VRef y) k2 (w_heap w') = Some (VRef r2') ∧
        (r1 = r2 ↔ r1' = r2') ∧
        (r1 = x ↔ r1' = y).
Proof.
  intros Hc Hx.
  destruct (clone_spec _ _ _ _ Hc Hx)
    as (y & m & h1 & st & Hd & Hs & Hy & F & Hinj & Hy1 & Hrel & Hiso).
  pose proof (lookup_lt_Some _ _ _ Hy1) as Hylt.
  eexists y, _. rewrite clone_declaration_run, Hd, Hs.
  split; [done|].
  intros k1 k2 r1 r2 Hk1 Hk2. cbn [getattr upd w_heap]. rewrite Hx.
  rewrite list_lookup_insert_eq by done.
  intros H1 H2.
  destruct (dict_get_related _ _ _ _ _ Hrel H1) as (v1 & Hv1 & (b1 & -> & Hb1)).
  destruct (dict_get_related _ _ _ _ _ Hrel H2) as (v2 & Hv2 & (b2 & -> & Hb2)).
  exists b1, b2. rewrite !dict_get_set_ne by done.
  split; [done|]. split; [done|]. split; split.
  - intros <-. congruence.
  - intros <-. by eapply Hinj.
  - intros ->. congruence.
  - intros ->. by eapply Hinj.
Qed.

(** *** [translate_functions] and [translate_workunits] *)



Lemma dict_set_fresh {A} n (r : A) d :
  n ∉ d.*1 → dict_set n r d = d ++ [(n, r)].
Proof.
  induction d as [|[k v] d IH]; [done|]. cbn.
  intros [Hne Hd]%not_elem_of_cons. rewrite decide_False by done.
  by rewrite IH.
Qed.

Lemma workunits_loop_table items : ∀ nv acc w st w',
  NoDup (acc.*1 ++ items.*1) →
  for_fold items (nv, acc) translate_workunit w = (Return st, w') →
  ∃ rs h,
    st.2 = acc ++ rs ∧
    w' = upd w h (map EvWorkunitVisit (values items)) ∧
    Forall2 (λ item res,
               res.1 = item.1 ∧
               ∃ nv0 σ h0 nv1 h1,
                 WorkunitVisitor_visit nv0 σ item.2 h0 = Some (res.2, nv1, h1))
      items rs.
Proof.
  induction items as [|[n a] items IH]; intros nv acc w st w' Hnd.
  - cbn. intros [= <- <-]. exists [], (w_heap w).
    rewrite app_nil_r, upd_nil. by split.
  - rewrite for_fold_cons. unfold bind. rewrite translate_workunit_run.
    destruct (WorkunitVisitor_visit _ _ _ _) as [[[r nv'] h']|] eqn:Ev;
      [|done].
    assert (n ∉ acc.*1) as Hn.
    { apply NoDup_app in Hnd as (_ & Hdis & _). intros Hin.
      apply (Hdis n Hin). cbn. by left. }
    rewrite (dict_set_fresh _ _ _ Hn). intros Hr.
    apply IH in Hr as (rs & h & Hst & -> & Hall).
    2: { rewrite fmap_app. cbn. by rewrite <- app_assoc. }
    exists ((n, r) :: rs), h. rewrite Hst, <- app_assoc. cbn.
    split; [done|]. split; [by rewrite upd_upd|].
    constructor; [|done]. split; [done|]. by eexists _, _, _, _, _.
Qed.

(** X17.  When [translate_workunits] returns, every workunit has been
    visited once, in table order, and nothing was printed; the table it
    returns has the keys of [pk_workunits] in the same order, each bound
    to what the visitor returned for that workunit. *)
Theorem translate_workunits_table source w members import workunits w' :
  bound w members import →
  NoDup (pk_workunits members).*1 →
  translate_workunits source w = (Return workunits, w') →
  (∃ h, w' = upd w h (EvTranslateWorkunits ::
                      map EvWorkunitVisit (values (pk_workunits members)))) ∧
  Forall2 (λ item res,
             res.1 = item.1 ∧
             ∃ nv σ h0 nv1 h1,
               WorkunitVisitor_visit nv σ item.2 h0 = Some (res.2, nv1, h1))
    (pk_workunits members) workunits.
Proof.
  intros Hb Hnd. rewrite (translate_workunits_unfold _ _ _ _ Hb).
  unfold bind.
  destruct (for_fold _ _ _ _) as [[st| |] w1] eqn:E; [|done..].
  unfold ret. intros [= <- <-].
  destruct st as [nv1 wus].
  apply workunits_loop_table in E as (rs & h & Hst & -> & Hall); [|done].
  cbn in Hst. subst wus. split; [|done].
  exists h. by rewrite upd_upd.
Qed.

(** *** [generate_includes] *)

Lemma append_length (a b : string) :
  String.length (a +:+ b) = String.length a + String.length b.
Proof.
  induction a as [|x a IH]; [done|].
  change (S (String.length (a +:+ b)) = S (String.length a + String.length b)).
  by rewrite IH.
Qed.

Lemma append_inj_r (s a b : string) : a +:+ s = b +:+ s → a = b.
Proof.
  revert b. induction a as [|x a IH]; intros [|y b] Heq.
  - done.
  - apply (f_equal String.length) in Heq.
    change (String.length s = S (String.length (b +:+ s))) in Heq.
    rewrite append_length in Heq. lia.
  - apply (f_equal String.length) in Heq.
    change (S (String.length (a +:+ s)) = String.length s) in Heq.
    rewrite append_length in Heq. lia.
  - change (String x (a +:+ s) = String y (b +:+ s)) in Heq.
    injection Heq as -> Heq. f_equal. by apply IH.
Qed.

(** X18.  The include block depends on the translator through
    [functor_file] alone, and it determines [functor_file]: two
    translators produce the same block exactly when they were given the
    same functor file. *)
Theorem generate_includes_injective (self self' : StaticTranslator) :
  generate_includes self = generate_includes self' ↔
  functor_file self = functor_file self'.
Proof.
  rewrite !generate_includes_eq. split.
  - intros Heq%(inj (String.append _)). unfold include_line in Heq.
    apply (inj (String.append _)) in Heq. by apply append_inj_r in Heq.
  - by intros ->.
Qed.

End RunCoverage.

(** ** The properties on concrete runs *)

Section Examples.
Import PyObj Ast Static Demo.

Lemma forallb_elem {A} (f : A → bool) (l : list A) x :
  forallb f l = true → x ∈ l → f x = true.
Proof.
  induction l as [|a l IH]; simpl.
  - by intros _ ?%elem_of_nil.
  - intros [Ha Hl]%andb_true_iff [->|Hx]%elem_of_cons; [done|by apply IH].
Qed.

Lemma closedb_closed (h : heap) : closedb h = true → closed h.
Proof.
  intros Hb l o r Hl Hr. unfold closedb in Hb.
  apply (forallb_elem _ _ o) in Hb; [|by eapply list_elem_of_lookup_2].
  apply (forallb_elem _ _ (VRef r)) in Hb; [|done].
  by apply bool_decide_eq_true in Hb.
Qed.

(** C3 on a run: the undeclared name in [scale] ends the compilation
    once all four bodies are checked. *)
Lemma ghost_aborts :
  translate kernels_ghost [point] world0 =
  (SysExit None,
   upd (linked kernels_ghost [point] world0) []
     (EvCheckSymbols ::
      map EvSymbolsPass (run_bodies kernels_ghost [point] world0) ++
      [EvPrint "Unknown symbol ghost"])).
Proof.
  apply (symbol_errors_abort kernels_ghost [point] world0).
  vm_compute. discriminate.
Defined.

Lemma point_closed : closed point_heap.
Proof. apply closedb_closed. vm_compute. reflexivity. Defined.

(** C10 on the record of [Point]. *)
Lemma point_declaration_is_separate :
  ∃ (y : loc) h',
    clone_declaration (VRef 3) world2 =
      (Return (VRef y), upd world2 h' [EvDeepcopy (VRef 3)]) ∧
    4 ≤ y ∧
    getattr (VRef y) "is_definition" h' = Some (VBool false) ∧
    (∀ l o, point_heap !! l = Some o → h' !! l = Some o) ∧
    (∀ l, reachable h' 3 l → l < 4) ∧
    (∀ l, reachable h' y l → 4 ≤ l).
Proof.
  apply (declaration_shares_nothing world2 3 "RecordDecl"
           [("name", VStr "Point"); ("is_definition", VBool true);
            ("methods", VRef 2)]).
  - exact point_closed.
  - reflexivity.
Defined.


(** C1 on the classtype [Point]: the declaration reads back as the
    definition with the flag cleared, the body of [norm] still there. *)
Lemma point_declaration_unflagged :
  ∃ (y : loc) h',
    translate_classtype ([], []) point world1 =
      (Return ([VRef y], [VRef 3]),
       upd world1 h' [EvClasstypeVisit (AST point); EvDeepcopy (VRef 3)]) ∧
    reify 4 h' (VRef 3) = Some point_tree ∧
    reify 4 h' (VRef y) =
      Some (tree_setattr "is_definition" (TAtom (VBool false)) point_tree) ∧
    ∀ name, name ≠ "is_definition" →
      tree_getattr name
        (tree_setattr "is_definition" (TAtom (VBool false)) point_tree) =
      tree_getattr name point_tree.
Proof.
  apply (declaration_is_unflagged_definition [] [] point world1
           (run_members kernels [point] world0) "pk" 3 "RecordDecl"
           [("name", VStr "Point"); ("is_definition", VBool true);
            ("methods", VRef 2)] 4 point_tree).
  - split; reflexivity.
  - reflexivity.
  - exact point_closed.
  - reflexivity.
  - reflexivity.
Defined.

(** C1 as the claim words it fails on [Point]: the declaration is not
    the definition with the flag cleared and the bodies left out, for
    the body of [norm] is still in it. *)
Lemma point_declaration_keeps_bodies :
  ∃ d f w' td tf,
    translate_classtype ([], []) point world1 = (Return ([d], [f]), w') ∧
    reify 4 (w_heap w') f = Some tf ∧
    reify 4 (w_heap w') d = Some td ∧
    td ≠ omit_bodies (tree_setattr "is_definition" (TAtom (VBool false)) tf).
Proof.
  eexists _, _, _, _, _. split; [vm_compute; reflexivity|].
  split; [vm_compute; reflexivity|]. split; [vm_compute; reflexivity|].
  vm_compute. discriminate.
Qed.

(** C2 on a run: [clip], the second of three workunits, is rejected;
    [scale] is never visited. *)
Lemma clip_fault_aborts :
  ∃ w_k,
    translate kernels_fault [point] world0 =
      (SysExit (Some 1%Z),
       upd w_k (w_heap w_k) [EvWorkunitVisit clip; EvPrint (failure_message clip)]) ∧
    visited_workunits (w_log w_k) = [square] ∧
    exit_status (Some 1%Z) ≠ 0%Z.
Proof.
  epose proof (workunit_fault_aborts kernels_fault [point] world0 _ _ _ _
                 [("square", square)] "clip" clip [("scale", scale)] _ _)
    as H.
  destruct H as [H1 H2]; [vm_compute; reflexivity..|].
  eexists. split; [exact H1|]. split; [vm_compute; reflexivity|exact H2].
Defined.


(** C4 on a run that returns: the loop over [Point] gives one
    declaration and one definition, the declaration being the copy of
    what the visit of [Point] returned, and the artifact is the stamp,
    the declaration, the definition and the record of this run. *)
Lemma kernels_functor_order :
  ∃ declarations definitions w2 functions w3 workunits w4,
    for_fold [point] ([], []) translate_classtype
      (checked_world kernels [point] world0) =
      (Return (declarations, definitions), w2) ∧
    length declarations = length [point] ∧
    length definitions = length [point] ∧
    (∀ i c, [point] !! i = Some c →
       ∃ w_i d f,
         for_fold (take i [point]) ([], []) translate_classtype
           (checked_world kernels [point] world0) =
           (Return (take i declarations, take i definitions), w_i) ∧
         declarations !! i = Some d ∧ definitions !! i = Some f ∧
         classtype_pass (run_members kernels [point] world0)
           (pk_import kernels) c w_i d f) ∧
    translate_functions (source kernels) w2 = (Return functions, w3) ∧
    translate_workunits (source kernels) w3 = (Return workunits, w4) ∧
    let r := generate_functor ("pk_functor_" +:+ name kernels)
               (run_members kernels [point] world0)
               workunits functions (w_heap w4) in
    ["// ******* AUTOMATICALLY GENERATED BY PyKokkos *******";
     "struct Point;"; "struct Point {...};";
     "struct pk_functor_kernels {...};"] =
      [generate_header] ++
      map (Serializer_serialize r.2) declarations ++
      map (Serializer_serialize r.2) definitions ++
      [Serializer_serialize r.2 r.1].
Proof.
  eapply (kernel_artifact_order kernels [point] world0).
  vm_compute. reflexivity.
Defined.


(** C7 on two trees.  In the tree of [kernels] no node occurs twice,
    and the [Name] node 3 is linked to the [Assign] node 2 that holds
    it.  In [binop] the [Load] node 9 is held by both names, and is
    linked to one node that holds it, after which [ast.walk] yields no
    other. *)
Lemma kernels_parents_linked :
  (Ast.add_parent_refs (AST kernels) (Ast.add_parent_refs (AST kernels) ∅) =
     Ast.add_parent_refs (AST kernels) ∅ ∧
   Ast.add_parent_refs (AST kernels) ∅ !! 3 = Some 2) ∧
  ∃ before parent after,
    walk binop = before ++ parent :: after ∧
    subnode parent binop ∧
    9 ∈ map nid (iter_child_nodes parent) ∧
    (∀ n, n ∈ after → 9 ∉ map nid (iter_child_nodes n)) ∧
    Ast.add_parent_refs binop ∅ !! 9 = Some (nid parent).
Proof.
  split.
  - destruct (add_parent_refs_idempotent (AST kernels) ∅) as (Hi & _ & Hp).
    split; [exact Hi|].
    apply (Hp ltac:(vm_compute; apply (bool_decide_unpack _); vm_compute;
                    exact I)
              (Node 2 "Assign" "view" [Node 3 "Name" "i" []])
              (Node 3 "Name" "i" [])).
    + apply (subnode_child _ _ square); [vm_compute; by left|].
      eapply subnode_child; [|apply subnode_refl]. vm_compute. by left.
    + vm_compute. by left.
  - destruct (add_parent_refs_idempotent binop ∅) as (_ & Hp & _).
    apply (Hp (Node 31 "Name" "x" [shared_load]) shared_load).
    + eapply subnode_child; [|apply subnode_refl]. vm_compute. by left.
    + vm_compute. by left.
Defined.

(** C7, the node that contains the child: the [Load] node of [binop] is
    a child of the name [x], and after [add_parent_refs] its [parent]
    is not [x]. *)
Lemma shared_load_one_parent :
  ∃ node child,
    subnode node binop ∧ child ∈ iter_child_nodes node ∧
    Ast.add_parent_refs binop ∅ !! nid child ≠ Some (nid node).
Proof.
  exists (Node 31 "Name" "x" [shared_load]), shared_load.
  split; [|split].
  - eapply subnode_child; [|apply subnode_refl]. vm_compute. by left.
  - vm_compute. by left.
  - vm_compute. discriminate.
Qed.

(** C9 on two runs: the entity with an unknown symbol exits with no
    argument, status 0; the entity whose workunit [clip] is rejected
    exits with 1, status 1. *)
Lemma exit_statuses_differ :
  ((translate kernels_ghost [point] world0).1 = SysExit None ∧
   exit_status None = 0%Z) ∧
  ((translate kernels_fault [point] world0).1 = SysExit (Some 1%Z) ∧
   exit_status (Some 1%Z) = 1%Z).
Proof.
  split.
  - apply (proj1 (exit_statuses kernels_ghost [point] world0)).
    vm_compute. discriminate.
  - eapply (proj1 (proj2 (exit_statuses kernels_fault [point] world0))
              _ _ _ _ [("square", square)] "clip" clip [("scale", scale)]);
      vm_compute; reflexivity.
Defined.

(** C6 on the run of [kernels] that returns: its events are those of
    one pass through the nine steps. *)
Lemma kernels_pipeline_once :
  ∃ es,
    w_log (translate kernels [point] world0).2 = w_log world0 ++ es ∧
    run_log kernels [point] world0 (translate kernels [point] world0).1 es ∧
    stages es = pipeline.
Proof.
  destruct (translate_runs_pipeline_once kernels [point] world0)
    as [(es & Hlog & Hrun & Hst) _].
  exists es. split; [exact Hlog|]. split; [exact Hrun|].
  assert ((translate kernels [point] world0).1 =
          Return
            (["// ******* AUTOMATICALLY GENERATED BY PyKokkos *******";
              "struct Point;"; "struct Point {...};";
              "struct pk_functor_kernels {...};"],
             [generate_header; generate_includes (init "kernel" "functor.hpp");
              "PYBIND11_MODULE(kernel) square";
              "PYBIND11_MODULE(kernel) scale"]))
    as E by (vm_compute; reflexivity).
  rewrite E in Hst. exact Hst.
Defined.

(** C6 and C8 on the run of [kernels] that returns: the nine steps, and
    the four bodies checked. *)
Example kernels_steps :
  stages (w_log (translate kernels [point] world0).2) = pipeline ∧
  checked (w_log (translate kernels [point] world0).2) =
    [square; scale; helper; AST point].
Proof. split; vm_compute; reflexivity. Qed.

Example fault_steps :
  stages (w_log (translate kernels_fault [point] world0).2) = take 6 pipeline.
Proof. vm_compute. reflexivity. Qed.

Example ghost_steps :
  stages (w_log (translate kernels_ghost [point] world0).2) = take 3 pipeline.
Proof. vm_compute. reflexivity. Qed.

End Examples.

(** ** The further properties on concrete runs *)

Section MoreExamples.
Import PyObj Ast Static Demo.

Lemma closed_alloc (h : heap) (o : object) :
  closed h → (∀ r, VRef r ∈ obj_values o → r ≤ length h) →
  closed (h ++ [o]).
Proof.
  intros Hc Ho l o' r Hl Hr. rewrite length_app. cbn.
  apply lookup_app_Some in Hl as [Hl|[Hge Hl]].
  - pose proof (Hc _ _ _ Hl Hr). lia.
  - apply list_lookup_singleton_Some in Hl as [_ <-].
    pose proof (Ho _ Hr). lia.
Qed.

Lemma extends_app (h ext : heap) : extends h (h ++ ext).
Proof. intros l o Hl. by apply lookup_app_l_Some. Qed.

Lemma method_decl_spec n h :
  closed h →
  ∃ o1 o2, method_decl n h = (VRef (S (length h)), h ++ [o1; o2]) ∧
           closed (h ++ [o1; o2]).
Proof.
  intros Hc. unfold method_decl, alloc. cbn.
  eexists _, _. rewrite <- app_assoc. split; [rewrite length_app; cbn; f_equal; f_equal; lia|].
  change (h ++ [?a; ?b]) with (h ++ [a] ++ [b]). rewrite app_assoc.
  apply closed_alloc; [apply closed_alloc; [done|]|].
  - cbn. intros r [=]%list_elem_of_singleton.
  - cbn. rewrite length_app. cbn.
    intros r [[=]|[= ->]%list_elem_of_singleton]%elem_of_cons. lia.
Qed.

Lemma method_decls_spec ns : ∀ h,
  closed h →
  ∃ ms ext, method_decls ns h = (ms, h ++ ext) ∧ closed (h ++ ext) ∧
            ∀ r, VRef r ∈ ms → r < length (h ++ ext).
Proof.
  induction ns as [|n ns IH]; intros h Hc.
  - exists [], []. rewrite app_nil_r. split; [done|]. split; [done|].
    by intros r ?%elem_of_nil.
  - cbn [method_decls].
    destruct (method_decl_spec n h Hc) as (o1 & o2 & -> & Hc1).
    destruct (IH _ Hc1) as (ms & ext & -> & Hc2 & Hms).
    exists (VRef (S (length h)) :: ms), ([o1; o2] ++ ext).
    rewrite app_assoc. split; [done|]. split; [done|].
    intros r [[= ->]|Hr]%elem_of_cons; [|by apply Hms].
    rewrite !length_app. cbn. lia.
Qed.

Lemma demo_builds_records : builds_records.
Proof.
  intros nv σ classdef h Hc. cbn. unfold visit_classtype.
  destruct (method_decls_spec (iter_child_nodes classdef) h Hc)
    as (ms & ext & -> & Hc1 & Hms).
  unfold record_decl, alloc. cbn.
  set (h1 := h ++ ext) in *.
  assert (closed ((h1 ++ [OList ms]) ++
                  [OInst "RecordDecl"
                     [("name", VStr (ident classdef));
                      ("is_definition", VBool true);
                      ("methods", VRef (length h1))]])) as Hc2.
  { apply closed_alloc; [apply closed_alloc; [done|]|].
    - cbn. intros r Hr. apply Hms in Hr. lia.
    - cbn. rewrite length_app. cbn.
      intros r [[=]|[[=]|[= ->]%list_elem_of_singleton]%elem_of_cons]%elem_of_cons.
      lia. }
  split; [done|]. split.
  - unfold h1. rewrite <- !app_assoc. apply extends_app.
  - eexists _, _, _. split; [done|].
    rewrite lookup_app_r by done. by rewrite Nat.sub_diag.
Qed.

Lemma world1_bound :
  bound world1 (run_members kernels [point] world0) "pk".
Proof. split; reflexivity. Defined.

Lemma empty_closed : closed (w_heap world1).
Proof. apply closedb_closed. vm_compute. reflexivity. Defined.

Lemma pair_closed : closed (w_heap world3).
Proof. apply closedb_closed. vm_compute. reflexivity. Defined.

(** X2 on the tree of [kernels]: its root gets no [parent]. *)
Lemma kernels_root_unlinked :
  Ast.add_parent_refs (AST kernels) ∅ !! 0 = None.
Proof.
  rewrite (proj2 (add_parent_refs_frame (AST kernels) ∅) 0).
  - reflexivity.
  - apply (bool_decide_unpack _). vm_compute. exact I.
Defined.

(** X4 on the run of [kernels]: the method [norm] of the classtype
    [Point] is linked to the class. *)
Lemma point_method_linked :
  ∃ tree' parent,
    tree' ∈ AST kernels :: map AST [point] ∧
    subnode parent tree' ∧
    11 ∈ map nid (iter_child_nodes parent) ∧
    w_parents (translate kernels [point] world0).2 !! 11 = Some (nid parent).
Proof.
  apply (translate_links_every_tree kernels [point] world0 (AST point)
           (AST point) (Node 11 "FunctionDef" "norm" [Node 12 "Return" "" []])).
  - vm_compute. right. by left.
  - apply subnode_refl.
  - vm_compute. by left.
Defined.

(** X5 on the rejected entity: it is rejected again. *)
Lemma ghost_rejected_again :
  (translate kernels_ghost [point]
     (translate kernels_ghost [point] world0).2).1 = SysExit None.
Proof.
  apply (translate_again kernels_ghost [point] world0).
  vm_compute. reflexivity.
Defined.

(** X8 on the run of [kernels]. *)
Lemma kernels_artifact_sizes :
  length ["// ******* AUTOMATICALLY GENERATED BY PyKokkos *******";
          "struct Point;"; "struct Point {...};";
          "struct pk_functor_kernels {...};"] = 2 * length [point] + 2 ∧
  2 ≤ length [generate_header; generate_includes (init "kernel" "functor.hpp");
              "PYBIND11_MODULE(kernel) square";
              "PYBIND11_MODULE(kernel) scale"].
Proof.
  apply (artifact_sizes kernels [point] world0).
  vm_compute. reflexivity.
Defined.

(** X9 on [hollow]. *)
Lemma hollow_translates :
  (translate hollow [] world0).1 =
  Return
    (["// ******* AUTOMATICALLY GENERATED BY PyKokkos *******";
      "struct pk_functor_hollow {...};"],
     [generate_header; generate_includes (init "kernel" "functor.hpp");
      "PYBIND11_MODULE(kernel) run pk_functor_hollow"]).
Proof.
  rewrite (translate_nothing_to_translate hollow world0);
    [|reflexivity..].
  vm_compute. reflexivity.
Defined.

(** X10 on the translator as constructed. *)
Lemma fresh_translator_raises :
  (check_symbols [point] "kernels.py" world0).1 = Raised ∧
  (translate_functions (source kernels) world0).1 = Raised ∧
  (translate_workunits (source kernels) world0).1 = Raised ∧
  (generate_bindings kernels "pk_functor_kernels" (source kernels) [] world0).1
    = Raised ∧
  (translate_classtypes [point] world0).1 = Raised.
Proof.
  apply (methods_need_translate world0 [point] "kernels.py" (source kernels)
           kernels "pk_functor_kernels" []).
  split; reflexivity.
Defined.

(** X11 on the entity with the undeclared name. *)
Lemma ghost_verdict :
  ∃ es,
    (check_symbols [point] "kernels.py" (linked kernels_ghost [point] world0)).2
      = upd (linked kernels_ghost [point] world0) [] es ∧
    checked es =
      symbol_bodies (run_members kernels_ghost [point] world0) [point] ∧
    printed es = ["Unknown symbol ghost"] ∧
    ((check_symbols [point] "kernels.py"
        (linked kernels_ghost [point] world0)).1 = Return tt ↔
     printed es = []) ∧
    ((check_symbols [point] "kernels.py"
        (linked kernels_ghost [point] world0)).1 = SysExit None ↔
     printed es ≠ []).
Proof.
  apply (check_symbols_verdict [point] "kernels.py"
           (linked kernels_ghost [point] world0)
           (run_members kernels_ghost [point] world0) "pk").
  split; reflexivity.
Defined.

(** X12 on the classtype [Point]. *)
Lemma point_pair :
  ∃ declarations definitions h,
    [VRef 4; VRef 3] = declarations ++ definitions ∧
    length declarations = length [point] ∧
    Forall2 (λ c f, ∃ h0,
               f = (fresh_visit (run_members kernels [point] world0) "pk" c
                      (w_parents world1) h0).1)
      [point] definitions ∧
    (translate_classtypes [point] world1).2 =
      upd world1 h
        (EvTranslateClasstypes :: classtype_events [point] definitions).
Proof.
  pose proof (translate_classtypes_pairs [point] world1
                (run_members kernels [point] world0) "pk" world1_bound) as H.
  assert ((translate_classtypes [point] world1).1 = Return [VRef 4; VRef 3])
    as E by (vm_compute; reflexivity).
  rewrite E in H. exact H.
Defined.

(** X13 on the classtype [Point]. *)
Lemma point_flags_kept :
  ∃ declarations definitions,
    [VRef 4; VRef 3] = declarations ++ definitions ∧
    length declarations = length [point] ∧
    length definitions = length [point] ∧
    closed (w_heap (translate_classtypes [point] world1).2) ∧
    extends (w_heap world1) (w_heap (translate_classtypes [point] world1).2) ∧
    Forall (λ d, getattr d "is_definition"
                   (w_heap (translate_classtypes [point] world1).2) =
                 Some (VBool false))
      declarations.
Proof.
  apply (translate_classtypes_keeps_flags [point] world1
           (run_members kernels [point] world0) "pk" _ _
           demo_builds_records world1_bound empty_closed).
  vm_compute. reflexivity.
Defined.

(** X14 with the visitor that returns [None]. *)
Lemma generic_visit_raises :
  @translate_classtype generic ([], []) point world_generic =
  (Raised,
   @upd generic world_generic []
     [EvClasstypeVisit (AST point); EvDeepcopy VNone]).
Proof.
  apply (@classtype_without_record_raises generic [] [] point world_generic
           (@run_members generic kernels [point]
              {| w_self := @init generic "kernel" "functor.hpp";
                 w_parents := ∅; w_heap := []; w_log := [] |}) "pk").
  - split; reflexivity.
  - exact I.
Defined.

(** X15 on a record that names one list twice and names itself. *)
Lemma pair_sharing_kept :
  ∃ (y : loc) w',
    clone_declaration (VRef 1) world3 = (Return (VRef y), w') ∧
    ∃ r1' r2' : loc,
      getattr (VRef y) "fields" (w_heap w') = Some (VRef r1') ∧
      getattr (VRef y) "methods" (w_heap w') = Some (VRef r2') ∧
      (0 = 0 ↔ r1' = r2') ∧ (0 = 1 ↔ r1' = y).
Proof.
  destruct (declaration_keeps_sharing world3 1 "RecordDecl"
              [("name", VStr "Pair"); ("is_definition", VBool true);
               ("fields", VRef 0); ("methods", VRef 0);
               ("canonical", VRef 1)] pair_closed eq_refl)
    as (y & w' & Hclone & Hshare).
  exists y, w'. split; [exact Hclone|].
  apply (Hshare "fields" "methods" 0 0); [discriminate|discriminate| |];
    reflexivity.
Defined.


(** X17 on the workunits of [kernels]. *)
Lemma kernels_workunit_table :
  (∃ h, (translate_workunits (source kernels) world1).2 =
        upd world1 h
          (EvTranslateWorkunits ::
           map EvWorkunitVisit
             (values (pk_workunits (run_members kernels [point] world0))))) ∧
  Forall2 (λ item res,
             res.1 = item.1 ∧
             ∃ nv σ h0 nv1 h1,
               WorkunitVisitor_visit nv σ item.2 h0 = Some (res.2, nv1, h1))
    (pk_workunits (run_members kernels [point] world0))
    [("square", ("for", VRef 1)); ("scale", ("for", VRef 3))].
Proof.
  apply (translate_workunits_table (source kernels) world1
           (run_members kernels [point] world0) "pk" _ _ world1_bound).
  - vm_compute. apply (bool_decide_unpack _). vm_compute. exact I.
  - vm_compute. reflexivity.
Defined.

End MoreExamples.
